(** * Durability core of the storage network: a shallow embedding

    The development follows the Go sources:
    - [storagenode/piecestore] order verification ([verifyOrderLimit],
      [VerifyOrder], [VerifyPieceHash], [IsExpired]);
    - [satellite/audit] the audit verifier ([GetShare], [DownloadShares],
      [Verify], [Reverify] and their helpers);
    - [satellite/repair/checker] the segment-health observer
      ([RemoteSegment]) and the second look at irreparable segments
      ([updateIrreparableSegmentStatus], [IrreparableProcess]);
    - [satellite/repair/repairer] the segment repairer ([Repair]).

    Go integers are integers of [Z]; the conversions to [int32] that the code
    performs are written out with [int32]. Maps are [gmap]s, slices are lists.
    Calls that leave the process (databases, overlay, network, clock) are
    fields of an environment record, and the calls a function makes are
    collected in a trace. *)

From stdpp Require Import gmap strings list fin_maps.
From Stdlib Require Import ZArith Lia.

Set Warnings "-clear-no-such-hyp".
Local Open Scope Z_scope.

(** ** Go values *)

Module Go.

(** Conversion of an integer to [int32] (two's complement wrap-around). *)
Definition int32 (z : Z) : Z := (z + 2147483648) mod 4294967296 - 2147483648.

(** Conversion of an integer to [int64]. *)
Definition int64 (z : Z) : Z :=
  (z + 9223372036854775808) mod 18446744073709551616 - 9223372036854775808.

Definition MaxInt32 : Z := 2147483647.
Definition MinInt32 : Z := -2147483648.
Definition MaxInt64 : Z := 9223372036854775807.
Definition MinInt64 : Z := -9223372036854775808.

(** [len] of a slice. *)
Definition len {A} (l : list A) : Z := Z.of_nat (length l).

(** [time.Time] as nanoseconds counted from the zero time, and
    [time.Duration] as nanoseconds. *)
Definition Time := Z.
Definition Duration := Z.
Definition Second : Duration := 1000000000.

Definition IsZero (t : Time) : bool := bool_decide (t = 0).
Definition Before (t u : Time) : bool := bool_decide (t < u).
Definition Add (t : Time) (d : Duration) : Time := t + d.
(** [t.Sub(u)] saturates at the largest and smallest duration. *)
Definition Sub (t u : Time) : Duration := Z.max MinInt64 (Z.min MaxInt64 (t - u)).

(** A map to [bool] read at a key that may be absent. *)
Definition lookupBool `{Countable K} (m : gmap K bool) (k : K) : bool :=
  default false (m !! k).

(** A slice: [None] is the nil slice. *)
Definition elems {A} (s : option (list A)) : list A := default [] s.

End Go.

(** ** Errors

    Error values as [github.com/zeebo/errs] and gRPC build them. An error
    handed back by a collaborator is [External] and carries what the
    predicates used by this code report about it. *)

Inductive Code :=
| OK | Canceled | Unknown | InvalidArgument | DeadlineExceeded | NotFound
| AlreadyExists | PermissionDenied | ResourceExhausted | FailedPrecondition
| Aborted | OutOfRange | Unimplemented | Internal | Unavailable | DataLoss
| Unauthenticated.

#[global] Instance Code_eq_dec : EqDecision Code.
Proof. solve_decision. Defined.

Inductive errClass :=
| ClsRepairer            (* repairer.Error *)
| ClsIrreparable         (* repairer.IrreparableError *)
| ClsChecker             (* checker.Error *)
| ClsAudit               (* audit.Error *)
| ClsNotEnoughShares     (* audit.ErrNotEnoughShares *)
| ClsSegmentDeleted      (* audit.ErrSegmentDeleted *)
| ClsProtocol            (* piecestore.ErrProtocol *)
| ClsVerifyNotAuthorized (* piecestore.ErrVerifyNotAuthorized *)
| ClsVerifyUntrusted     (* piecestore.ErrVerifyUntrusted *)
| ClsVerifyDuplicate     (* piecestore.ErrVerifyDuplicateRequest *)
| ClsTransport.          (* transport.Error *)

#[global] Instance errClass_eq_dec : EqDecision errClass.
Proof. solve_decision. Defined.

(** What the code can observe of an error made elsewhere. *)
Record ErrFacts := {
  ef_transport : bool;   (* transport.Error.Has(err) *)
  ef_dialTimeout : bool; (* errs.Is(err, context.DeadlineExceeded) *)
  ef_canceled : bool;    (* errs2.IsCanceled(err) *)
  ef_keyNotFound : bool; (* storage.ErrKeyNotFound.Has(err) *)
  ef_rpc : Code          (* the code c with errs2.IsRPC(err, c) *)
}.

Inductive error :=
| External (what : string) (f : ErrFacts)
| New (c : errClass) (msg : string)      (* Class.New *)
| Wrap (c : errClass) (e : error)        (* Class.Wrap on a non-nil error *)
| Status (c : Code) (msg : string)       (* status.Error / status.Errorf *)
| Combined (e1 e2 : error).              (* errs.Combine of two non-nil errors *)

(** [Class.Has]: some error of the chain was made by the class. *)
Fixpoint Has (c : errClass) (e : error) : bool :=
  match e with
  | New c' _ => bool_decide (c = c')
  | Wrap c' e' => bool_decide (c = c') || Has c e'
  | External _ f =>
      match c with
      | ClsTransport => ef_transport f
      | _ => false
      end
  | Status _ _ => false
  | Combined _ _ => false
  end.

(** [errs.Combine]: nil when both are nil, the only non-nil one, or the group. *)
Definition Combine (e1 e2 : option error) : option error :=
  match e1, e2 with
  | None, None => None
  | Some e, None => Some e
  | None, Some e => Some e
  | Some a, Some b => Some (Combined a b)
  end.

(** [Class.Wrap]: nil stays nil. *)
Definition WrapOpt (c : errClass) (e : option error) : option error :=
  match e with
  | None => None
  | Some e' => Some (Wrap c e')
  end.

(** How a call ends: it returns, it panics, or it waits for ever. *)
Inductive outcome (A : Type) :=
| Returns (a : A)
| Panics (msg : string)
| Blocks.
Arguments Returns {A} a.
Arguments Panics {A} msg.
Arguments Blocks {A}.

(** Identifiers: node IDs, piece IDs and serial numbers are fixed-size byte
    strings, read here as the numbers they encode. *)
Definition NodeID := N.
Definition PieceID := N.
Definition SerialNumber := N.
Definition Path := string.
Definition bytes := list Z.

(** ** Pointers *)

Module pb.

Record RedundancyScheme := {
  MinReq : Z;
  Total : Z;
  RepairThreshold : Z;
  SuccessThreshold : Z;
  ErasureShareSize : Z
}.

Record RemotePiece := {
  PieceNum : Z;
  NodeId : NodeID;
  Hash : option N
}.

Record RemoteSegment := {
  Redundancy : RedundancyScheme;   (* a pointer in Go: the segments here carry a scheme *)
  RootPieceId : PieceID;
  RemotePieces : option (list RemotePiece)
}.

Inductive DataType := INLINE | REMOTE.

#[global] Instance DataType_eq_dec : EqDecision DataType.
Proof. solve_decision. Defined.

Record Pointer := {
  Type_ : DataType;
  InlineSegment : bytes;
  Remote : option RemoteSegment;
  SegmentSize : Z;
  CreationDate : Go.Time;
  ExpirationDate : Go.Time;
  Metadata : bytes
}.

(** The nil-safe getters generated for the messages. *)
Definition GetRemote (p : Pointer) : option RemoteSegment := Remote p.
Definition GetRemotePieces (r : option RemoteSegment) : option (list RemotePiece) :=
  r ≫= RemotePieces.
Definition GetRedundancy (r : option RemoteSegment) : option RedundancyScheme :=
  Redundancy <$> r.
Definition GetErasureShareSize (r : option RedundancyScheme) : Z :=
  from_option ErasureShareSize 0 r.

End pb.

(** ** Storage node: verification of order limits and orders *)

Module Piecestore.

Import Go.

Inductive PieceAction := PUT | GET | GET_AUDIT | GET_REPAIR | PUT_REPAIR | DELETE.

Record OrderLimit := {
  ol_SerialNumber : SerialNumber;
  ol_SatelliteId : NodeID;
  ol_StorageNodeId : NodeID;
  ol_UplinkPublicKey : N;
  ol_PieceId : PieceID;
  ol_Action : PieceAction;
  ol_Limit : Z;
  ol_PieceExpiration : Time;
  ol_OrderExpiration : Time;
  ol_OrderCreation : Time;
  ol_SatelliteSignature : bytes
}.

Record Order := {
  o_SerialNumber : SerialNumber;
  o_Amount : Z;
  o_UplinkSignature : bytes
}.

Record Config := {
  ExpirationGracePeriod : Duration;
  OrderLimitGracePeriod : Duration
}.

(** Modelled from the spec: the used-serials store of the storage node, of
    which the endpoint calls [Add]. The spec describes a store of serials with
    an expiry index: a storage node rejects a serial it has already settled,
    and a serial is forgotten once it has expired. The store keeps, for each
    recorded serial, the satellite and the expiration given to [Add]. *)
Definition usedSerials_Add (st : gmap N (NodeID * Time))
    (satellite : NodeID) (serial : SerialNumber) (expiration : Time)
    : option error * gmap N (NodeID * Time) :=
  match st !! serial with
  | Some _ => (Some (External "serial number already used"
                       {| ef_transport := false; ef_dialTimeout := false;
                          ef_canceled := false; ef_keyNotFound := false;
                          ef_rpc := Unknown |}), st)
  | None => (None, <[serial := (satellite, expiration)]> st)
  end.

(** Modelled from the spec: the expiry of the used-serials store drops the
    serials whose expiration lies before [now]. *)
Definition usedSerials_DeleteExpired (now : Time) (st : gmap N (NodeID * Time))
    : gmap N (NodeID * Time) :=
  filter (λ kv, ¬ (kv.2.2 < now)) st.

(** The collaborators of the endpoint. *)
Record Endpoint := {
  signerID : NodeID;
  config : Config;
  trust_VerifySatelliteID : NodeID → option error;
  trust_GetSignee : NodeID → error + N;
  signing_VerifyOrderLimitSignature : N → OrderLimit → option error;
  signing_VerifyUplinkOrderSignature : N → Order → option error;
  errs2_IsCanceled : error → bool
}.

(** The readings of [time.Now()] made during one call of
    [verifyOrderLimit]: at entry, and inside the two [IsExpired] calls. *)
Record Clock := {
  now : Time;
  nowPieceExpired : Time;
  nowOrderExpired : Time
}.

Definition IsExpired (ep : Endpoint) (timeNow : Time) (expiration : Time) : bool :=
  if IsZero expiration then false
  else Before expiration (Add timeNow (- ExpirationGracePeriod (config ep))).

Definition VerifyOrderLimitSignature (ep : Endpoint) (limit : OrderLimit) : option error :=
  match trust_GetSignee ep (ol_SatelliteId limit) with
  | inl err =>
      if errs2_IsCanceled ep err then Some err
      else Some (New ClsVerifyUntrusted "unable to get signee")
  | inr signee =>
      match signing_VerifyOrderLimitSignature ep signee limit with
      | Some err => Some (New ClsVerifyUntrusted "invalid order limit signature")
      | None => None
      end
  end.

Definition serialExpiration (ep : Endpoint) (clk : Clock) (limit : OrderLimit) : Time :=
  let graceExpiration := Add (now clk) (OrderLimitGracePeriod (config ep)) in
  if Before graceExpiration (ol_OrderExpiration limit) then graceExpiration
  else ol_OrderExpiration limit.

Definition verifyOrderLimit (ep : Endpoint) (clk : Clock)
    (usedSerials : gmap N (NodeID * Time)) (limit : OrderLimit)
    : option error * gmap N (NodeID * Time) :=
  if bool_decide (ol_Limit limit < 0) then
    (Some (Status InvalidArgument "order limit is negative"), usedSerials)
  else if bool_decide (signerID ep ≠ ol_StorageNodeId limit) then
    (Some (Status InvalidArgument "order intended for other storagenode"), usedSerials)
  else if IsExpired ep (nowPieceExpired clk) (ol_PieceExpiration limit) then
    (Some (Status InvalidArgument "piece expired"), usedSerials)
  else if IsExpired ep (nowOrderExpired clk) (ol_OrderExpiration limit) then
    (Some (Status InvalidArgument "order expired"), usedSerials)
  else if bool_decide (Sub (now clk) (ol_OrderCreation limit)
                       > OrderLimitGracePeriod (config ep)) then
    (Some (Status InvalidArgument "order created too long ago"), usedSerials)
  else if bool_decide (ol_SatelliteId limit = 0%N) then
    (Some (Status InvalidArgument "missing satellite id"), usedSerials)
  else if bool_decide (ol_UplinkPublicKey limit = 0%N) then
    (Some (Status InvalidArgument "missing uplink public key"), usedSerials)
  else if bool_decide (len (ol_SatelliteSignature limit) = 0) then
    (Some (Status InvalidArgument "missing satellite signature"), usedSerials)
  else if bool_decide (ol_PieceId limit = 0%N) then
    (Some (Status InvalidArgument "missing piece id"), usedSerials)
  else
    match trust_VerifySatelliteID ep (ol_SatelliteId limit) with
    | Some err => (Some (Status PermissionDenied "untrusted"), usedSerials)
    | None =>
        match VerifyOrderLimitSignature ep limit with
        | Some err =>
            if errs2_IsCanceled ep err
            then (Some (Status Canceled "context has been canceled"), usedSerials)
            else (Some (Status Unauthenticated "untrusted"), usedSerials)
        | None =>
            match usedSerials_Add usedSerials (ol_SatelliteId limit)
                    (ol_SerialNumber limit) (serialExpiration ep clk limit) with
            | (Some err, st) =>
                (Some (Status Unauthenticated "serial number is already used"), st)
            | (None, st) => (None, st)
            end
        end
    end.

Definition VerifyOrder (ep : Endpoint) (limit : OrderLimit) (order : Order)
    (largestOrderAmount : Z) : option error :=
  if bool_decide (o_SerialNumber order ≠ ol_SerialNumber limit) then
    Some (New ClsProtocol "order serial number changed during upload")
  else if bool_decide (o_Amount order < largestOrderAmount) then
    Some (New ClsProtocol "order contained smaller amount")
  else if bool_decide (o_Amount order > ol_Limit limit) then
    Some (New ClsProtocol "order exceeded allowed amount")
  else
    WrapOpt ClsVerifyUntrusted
      (signing_VerifyUplinkOrderSignature ep (ol_UplinkPublicKey limit) order).

(** What happens to the store of used serials over time: order limits are
    submitted and expired serials are dropped. *)
Inductive op :=
| OpVerify (clk : Clock) (limit : OrderLimit)
| OpDeleteExpired (timeNow : Time).

Definition step (ep : Endpoint) (st : gmap N (NodeID * Time)) (o : op)
    : gmap N (NodeID * Time) :=
  match o with
  | OpVerify clk limit => (verifyOrderLimit ep clk st limit).2
  | OpDeleteExpired t => usedSerials_DeleteExpired t st
  end.

Definition run (ep : Endpoint) (st : gmap N (NodeID * Time)) (ops : list op)
    : gmap N (NodeID * Time) :=
  foldl (step ep) st ops.

(** The cleanup times of a run. *)
Definition cleanups (ops : list op) : list Time :=
  omap (λ o, match o with OpDeleteExpired t => Some t | OpVerify _ _ => None end) ops.

(** [pb.PieceHash] *)
Record PieceHash := {
  ph_PieceId : PieceID;
  ph_Hash : bytes;
  ph_PieceSize : Z;
  ph_Signature : bytes
}.

(** [VerifyPieceHash]: the hash the uplink signed is for the piece of the
    limit and is the hash computed locally. [signing_VerifyUplinkPieceHashSignature]
    is the signature check of the [signing] package; its error is not kept. *)
Definition VerifyPieceHash
    (signing_VerifyUplinkPieceHashSignature : N → PieceHash → option error)
    (limit : option OrderLimit) (hash : option PieceHash) (expectedHash : bytes)
    : option error :=
  match limit, hash with
  | Some limit, Some hash =>
      if bool_decide (len expectedHash = 0) then
        Some (New ClsProtocol "invalid arguments")
      else if bool_decide (ol_PieceId limit ≠ ph_PieceId hash) then
        Some (New ClsProtocol "piece id changed")
      else if bool_decide (ph_Hash hash ≠ expectedHash) then
        Some (New ClsProtocol "hashes don't match")
      else
        match signing_VerifyUplinkPieceHashSignature (ol_UplinkPublicKey limit) hash with
        | Some err => Some (New ClsVerifyUntrusted "invalid piece hash signature")
        | None => None
        end
  | _, _ => Some (New ClsProtocol "invalid arguments")
  end.

End Piecestore.

(** ** Satellite: the audit verifier *)

Module Audit.

Import Go pb.

Record AddressedOrderLimit := {
  StorageNodeId : NodeID;        (* limit.GetLimit().StorageNodeId *)
  StorageNodeAddress : string
}.

Record Share := {
  sh_Error : option error;
  sh_PieceNum : Z;
  sh_NodeID : NodeID;
  sh_Data : option bytes
}.

(** [Share{}] *)
Definition zeroShare : Share :=
  {| sh_Error := None; sh_PieceNum := 0; sh_NodeID := 0%N; sh_Data := None |}.

Record Stripe := {
  Index : Z;
  Segment : Pointer;
  SegmentPath : Path
}.

Record PendingAudit := {
  pa_NodeID : NodeID;
  pa_PieceID : PieceID;
  pa_StripeIndex : Z;
  pa_ShareSize : Z;
  pa_ExpectedShareHash : bytes;
  pa_Path : Path
}.

Record Report := {
  Successes : list NodeID;
  Fails : list NodeID;
  Offlines : list NodeID;
  PendingAudits : list PendingAudit
}.

(** [infectious.Share] *)
Record InfShare := {
  Number : Z;
  inf_Data : bytes
}.

(** A call of [metainfo.UpdatePieces]. *)
Record UpdatePiecesCall := {
  up_path : Path;
  up_ref : Pointer;
  up_toAdd : list RemotePiece;
  up_toRemove : list RemotePiece
}.

(** The verifier's configuration and collaborators. [rangeMap] is the order
    in which a [range] over a map visits its entries and [arrival] the order
    in which the channel of [DownloadShares] delivers what was sent; Go
    fixes neither. *)
Record Env := {
  minBytesPerSecond : Z;
  minDownloadTimeout : Duration;
  transport_Error_Has : error → bool;
  errs_Is_DeadlineExceeded : error → bool;   (* errs.Is(err, context.DeadlineExceeded) *)
  errs2_IsRPC : error → Code → bool;
  storage_ErrKeyNotFound_Has : error → bool;
  rangeMap : ∀ A : Type, gmap Z A → list (Z * A);
  arrival : list (option Share) → list (option Share);
  storj_SplitPath : Path → list string;
  storj_JoinPaths : list string → string;
  orders_CreateAuditOrderLimits :
    option string → Pointer → gmap N bool → error + (list (option AddressedOrderLimit) * N);
  metainfo_Get : Path → error + Pointer;
  metainfo_UpdatePieces : UpdatePiecesCall → option error;
  piecestore_Dial : option Duration → AddressedOrderLimit → option error;
  ps_Download : option Duration → AddressedOrderLimit → N → Z → Z → option error;
  io_ReadFull : AddressedOrderLimit → Z → Z → error + bytes;
  downloader_Close : AddressedOrderLimit → option error;
  infectious_NewFEC : Z → Z → option error;
  fec_Correct : Z → Z → list InfShare → error + list InfShare;
  fec_Rebuild : Z → Z → list InfShare → Z → error + bytes;
  fec_EncodeSingle : Z → Z → bytes → Z → Z → error + bytes;
  pkcrypto_SHA256Hash : bytes → bytes
}.

(** The timeout [GetShare] puts on its context: [None] when the context is
    used as it came. *)
Definition GetShare_timeout (env : Env) (shareSize : Z) : option Duration :=
  let bandwidthMsgSize := shareSize in
  if bool_decide (minBytesPerSecond env > 0) then
    let maxTransferTime :=
      Z.quot (int64 (Second * bandwidthMsgSize)) (minBytesPerSecond env) in
    if bool_decide (maxTransferTime < minDownloadTimeout env)
    then Some (minDownloadTimeout env)
    else Some maxTransferTime
  else None.

Definition GetShare (env : Env) (limit : AddressedOrderLimit) (piecePrivateKey : N)
    (stripeIndex : Z) (shareSize : Z) (pieceNum : Z) : Share * option error :=
  let timedCtx := GetShare_timeout env shareSize in
  let storageNodeID := StorageNodeId limit in
  match piecestore_Dial env timedCtx limit with
  | Some err => (zeroShare, Some (Wrap ClsAudit err))
  | None =>
      let offset := int64 (shareSize * stripeIndex) in
      match ps_Download env timedCtx limit piecePrivateKey offset shareSize with
      | Some err => (zeroShare, Some err)
      | None =>
          match io_ReadFull env limit offset shareSize with
          | inl err => (zeroShare, Combine (Some err) (downloader_Close env limit))
          | inr buf =>
              ({| sh_Error := None; sh_PieceNum := pieceNum;
                  sh_NodeID := storageNodeID; sh_Data := Some buf |},
               Combine None (downloader_Close env limit))
          end
      end
  end.

(** What the goroutine started for limit [i] sends on the channel. *)
Definition downloadOne (env : Env) (piecePrivateKey : N) (stripeIndex shareSize : Z)
    (i : Z) (limit : AddressedOrderLimit) : Share :=
  match GetShare env limit piecePrivateKey stripeIndex shareSize i with
  | (share, Some err) =>
      {| sh_Error := Some err; sh_PieceNum := i;
         sh_NodeID := StorageNodeId limit; sh_Data := None |}
  | (share, None) => share
  end.

(** Everything sent on the channel, in the order of the limits: nil for a
    nil limit, the goroutine's share otherwise. *)
Definition sent (env : Env) (piecePrivateKey : N) (stripeIndex shareSize : Z)
    (limits : list (option AddressedOrderLimit)) : list (option Share) :=
  imap (λ i limit,
          downloadOne env piecePrivateKey stripeIndex shareSize (Z.of_nat i) <$> limit)
       limits.

(** The receiving loop: one receive per limit. It blocks when the channel
    has nothing more to deliver. *)
Fixpoint receive (n : nat) (ch : list (option Share)) (shares : gmap Z Share)
    : outcome (gmap Z Share) :=
  match n with
  | O => Returns shares
  | S n' =>
      match ch with
      | [] => Blocks
      | Some share :: ch' => receive n' ch' (<[sh_PieceNum share := share]> shares)
      | None :: ch' => receive n' ch' shares
      end
  end.

(** What one receive does to the map of shares, and the entry a message
    stands for. *)
Definition store (shares : gmap Z Share) (msg : option Share) : gmap Z Share :=
  match msg with
  | Some share => <[sh_PieceNum share := share]> shares
  | None => shares
  end.

Definition keyed (msg : option Share) : option (Z * Share) :=
  (λ share, (sh_PieceNum share, share)) <$> msg.

Definition DownloadShares (env : Env) (limits : list (option AddressedOrderLimit))
    (piecePrivateKey : N) (stripeIndex shareSize : Z)
    : outcome (gmap Z Share * option error) :=
  match receive (length limits)
          (arrival env (sent env piecePrivateKey stripeIndex shareSize limits)) ∅ with
  | Returns shares => Returns (shares, None)
  | Panics msg => Panics msg
  | Blocks => Blocks
  end.

(** [getOfflineNodes]: the nodes of the pointer that have no order limit and
    are not skipped. *)
Definition getOfflineNodes (pointer : Pointer)
    (limits : list (option AddressedOrderLimit)) (skip : gmap N bool) : list NodeID :=
  let nodesWithLimit : gmap N bool :=
    foldl (λ m limit,
             match limit with
             | Some l => <[StorageNodeId l := true]> m
             | None => m
             end) ∅ limits in
  foldl (λ offlines piece,
           if negb (lookupBool nodesWithLimit (NodeId piece))
              && negb (lookupBool skip (NodeId piece))
           then offlines ++ [NodeId piece]
           else offlines)
        [] (elems (GetRemotePieces (GetRemote pointer))).

Definition checkIfSegmentDeleted (env : Env) (segmentPath : Path)
    (oldPointer : option Pointer) : error + Pointer :=
  match metainfo_Get env segmentPath with
  | inl err =>
      if storage_ErrKeyNotFound_Has env err
      then inl (New ClsSegmentDeleted segmentPath)
      else inl err
  | inr newPointer =>
      match oldPointer with
      | Some old =>
          if bool_decide (CreationDate old ≠ CreationDate newPointer)
          then inl (New ClsSegmentDeleted segmentPath)
          else inr newPointer
      | None => inr newPointer
      end
  end.

Definition createBucketID (env : Env) (path : Path) : option string :=
  let comps := storj_SplitPath env path in
  if bool_decide (len comps < 3) then None
  else Some (storj_JoinPaths env [default ""%string (comps !! 0%nat);
                                  default ""%string (comps !! 2%nat)]).

(** The four collections [Verify] fills while it looks at the shares. *)
Record Sorted := {
  offlineNodes : list NodeID;
  failedNodes : list NodeID;
  containedNodes : gmap Z NodeID;
  sharesToAudit : gmap Z Share
}.

Definition addOffline (st : Sorted) (n : NodeID) : Sorted :=
  {| offlineNodes := offlineNodes st ++ [n]; failedNodes := failedNodes st;
     containedNodes := containedNodes st; sharesToAudit := sharesToAudit st |}.
Definition addFailed (st : Sorted) (n : NodeID) : Sorted :=
  {| offlineNodes := offlineNodes st; failedNodes := failedNodes st ++ [n];
     containedNodes := containedNodes st; sharesToAudit := sharesToAudit st |}.
Definition addContained (st : Sorted) (pieceNum : Z) (n : NodeID) : Sorted :=
  {| offlineNodes := offlineNodes st; failedNodes := failedNodes st;
     containedNodes := <[pieceNum := n]> (containedNodes st);
     sharesToAudit := sharesToAudit st |}.
Definition addToAudit (st : Sorted) (pieceNum : Z) (share : Share) : Sorted :=
  {| offlineNodes := offlineNodes st; failedNodes := failedNodes st;
     containedNodes := containedNodes st;
     sharesToAudit := <[pieceNum := share]> (sharesToAudit st) |}.

(** The part of the loop body of [Verify] below the transport errors. *)
Definition sortByRPC (env : Env) (st : Sorted) (pieceNum : Z) (share : Share)
    (err : error) : Sorted :=
  if errs2_IsRPC env err NotFound then
    (* missing share *)
    addFailed st (sh_NodeID share)
  else if errs2_IsRPC env err DeadlineExceeded then
    (* dial successful, but download timed out *)
    addContained st pieceNum (sh_NodeID share)
  else
    (* unknown error *)
    addContained st pieceNum (sh_NodeID share).

(** One turn of the loop [for pieceNum, share := range shares] of [Verify]. *)
Definition sortShare (env : Env) (st : Sorted) (entry : Z * Share) : Sorted :=
  let '(pieceNum, share) := entry in
  match sh_Error share with
  | None =>
      (* no error -- share downloaded successfully *)
      addToAudit st pieceNum share
  | Some err =>
      if transport_Error_Has env err then
        if errs_Is_DeadlineExceeded env err then
          (* dial timeout *)
          addOffline st (sh_NodeID share)
        else if errs2_IsRPC env err Unknown then
          (* dial failed -- offline node *)
          addOffline st (sh_NodeID share)
        else
          (* unknown transport error; the loop body goes on below *)
          sortByRPC env (addContained st pieceNum (sh_NodeID share)) pieceNum share err
      else sortByRPC env st pieceNum share err
  end.

(** Where one turn of that loop puts the node of a share. *)
Inductive Verdict :=
| ToAudit | Offline | Failed | Contained | ContainedAndFailed.

#[global] Instance Verdict_eq_dec : EqDecision Verdict.
Proof. solve_decision. Defined.

Definition verdict (env : Env) (share : Share) : Verdict :=
  match sh_Error share with
  | None => ToAudit
  | Some err =>
      if transport_Error_Has env err then
        if errs_Is_DeadlineExceeded env err then Offline
        else if errs2_IsRPC env err Unknown then Offline
        else if errs2_IsRPC env err NotFound then ContainedAndFailed
        else Contained
      else if errs2_IsRPC env err NotFound then Failed
      else Contained
  end.

Definition isContained (v : Verdict) : bool :=
  match v with Contained | ContainedAndFailed => true | _ => false end.
Definition isFailed (v : Verdict) : bool :=
  match v with Failed | ContainedAndFailed => true | _ => false end.

Definition makeCopies (env : Env) (originals : gmap Z Share) : list InfShare :=
  map (λ entry : Z * Share,
         {| Number := sh_PieceNum entry.2; inf_Data := elems (sh_Data entry.2) |})
      (rangeMap env Share originals).

Definition auditShares (env : Env) (required total : Z) (originals : gmap Z Share)
    : error + (list Z * list InfShare) :=
  match infectious_NewFEC env required total with
  | Some err => inl err
  | None =>
      let copies := makeCopies env originals in
      match fec_Correct env required total copies with
      | inl err => inl err
      | inr corrected =>
          inr (map Number
                 (filter (λ share,
                    elems (sh_Data (default zeroShare (originals !! Number share)))
                    ≠ inf_Data share) corrected),
               corrected)
      end
  end.

Definition removeFailedPieces (env : Env) (path : Path) (pointer : Pointer)
    (failed : list NodeID) : option error * list UpdatePiecesCall :=
  if bool_decide (len failed = 0) then (None, [])
  else
    let toRemove :=
      filter (λ piece, NodeId piece ∈ failed)
             (elems (GetRemotePieces (GetRemote pointer))) in
    let call := {| up_path := path; up_ref := pointer;
                   up_toAdd := []; up_toRemove := toRemove |} in
    (metainfo_UpdatePieces env call, [call]).

(** [getSuccessNodes]: the nodes of the shares that are neither failed,
    offline nor contained. *)
Definition getSuccessNodes (env : Env) (shares : gmap Z Share)
    (failed offline : list NodeID) (contained : gmap Z NodeID) : list NodeID :=
  let mark := foldl (λ (m : gmap N bool) n, <[n := true]> m) in
  let fails := mark (mark (mark ∅ failed) offline)
                    ((rangeMap env NodeID contained).*2) in
  foldl (λ successNodes (entry : Z * Share),
           if negb (lookupBool fails (sh_NodeID entry.2))
           then successNodes ++ [sh_NodeID entry.2]
           else successNodes)
        [] (rangeMap env Share shares).

(** The loop of [createPendingAudits] over the contained nodes. *)
Fixpoint pendingLoop (env : Env) (required total : Z) (stripeData : bytes)
    (shareSize : Z) (stripe : Stripe) (contained : list (Z * NodeID))
    (pending : list PendingAudit) : error + list PendingAudit :=
  match contained with
  | [] => inr pending
  | (pieceNum, nodeID) :: rest =>
      match fec_EncodeSingle env required total stripeData shareSize pieceNum with
      | inl err => inl (Wrap ClsAudit err)
      | inr share =>
          pendingLoop env required total stripeData shareSize stripe rest
            (pending ++
             [{| pa_NodeID := nodeID;
                 pa_PieceID := from_option RootPieceId 0%N (GetRemote (Segment stripe));
                 pa_StripeIndex := Index stripe;
                 pa_ShareSize := shareSize;
                 pa_ExpectedShareHash := pkcrypto_SHA256Hash env share;
                 pa_Path := SegmentPath stripe |}])
      end
  end.

Definition createPendingAudits (env : Env) (contained : gmap Z NodeID)
    (correctedShares : list InfShare) (stripe : Stripe) : error + list PendingAudit :=
  if bool_decide (Z.of_nat (size contained) = 0) then inr []
  else
    let redundancy := GetRedundancy (GetRemote (Segment stripe)) in
    let required := from_option MinReq 0 redundancy in
    let total := from_option Total 0 redundancy in
    let shareSize := GetErasureShareSize redundancy in
    match infectious_NewFEC env required total with
    | Some err => inl (Wrap ClsAudit err)
    | None =>
        match fec_Rebuild env required total correctedShares shareSize with
        | inl err => inl (Wrap ClsAudit err)
        | inr stripeData =>
            pendingLoop env required total stripeData shareSize stripe
              (rangeMap env NodeID contained) []
        end
    end.

(** A share that was downloaded without error, and their number in a map of
    shares. *)
Definition downloaded (entry : Z * Share) : bool :=
  match sh_Error entry.2 with
  | None => true
  | Some _ => false
  end.

Definition downloadedCount (shares : gmap Z Share) : Z :=
  len (filter (λ entry, downloaded entry = true) (map_to_list shares)).

(** [Verify] gives back the report, the error and the pointer updates it
    asked for. *)
Definition Verify (env : Env) (stripe : Stripe) (skip : gmap N bool)
    : outcome (option Report * option error * list UpdatePiecesCall) :=
  let pointer := Segment stripe in
  let shareSize := GetErasureShareSize (GetRedundancy (GetRemote pointer)) in
  let bucketID := createBucketID env (SegmentPath stripe) in
  match orders_CreateAuditOrderLimits env bucketID pointer skip with
  | inl err => Returns (None, Some err, [])
  | inr (orderLimits, privateKey) =>
      (* note: offlineNodes here will include disqualified nodes *)
      let offline0 := getOfflineNodes (Segment stripe) orderLimits skip in
      let offlinesOnly := {| Successes := []; Fails := []; Offlines := offline0;
                             PendingAudits := [] |} in
      match DownloadShares env orderLimits privateKey (Index stripe) shareSize with
      | Blocks => Blocks
      | Panics msg => Panics msg
      | Returns (shares, Some err) => Returns (Some offlinesOnly, Some err, [])
      | Returns (shares, None) =>
          match checkIfSegmentDeleted env (SegmentPath stripe) (Some (Segment stripe)) with
          | inl err => Returns (Some offlinesOnly, Some err, [])
          | inr _ =>
              let st := foldl (sortShare env)
                          {| offlineNodes := offline0; failedNodes := [];
                             containedNodes := ∅; sharesToAudit := ∅ |}
                          (rangeMap env Share shares) in
              match Remote pointer with
              | None => Panics "nil pointer dereference"
              | Some remote =>
                  let required := MinReq (Redundancy remote) in
                  let total := Total (Redundancy remote) in
                  let failsOfflines :=
                    {| Successes := []; Fails := failedNodes st;
                       Offlines := offlineNodes st; PendingAudits := [] |} in
                  if bool_decide (Z.of_nat (size (sharesToAudit st)) < required) then
                    Returns (Some failsOfflines,
                             Some (New ClsNotEnoughShares "got fewer shares than required"),
                             [])
                  else
                    match auditShares env required total (sharesToAudit st) with
                    | inl err => Returns (Some failsOfflines, Some err, [])
                    | inr (pieceNums, correctedShares) =>
                        let failed :=
                          failedNodes st ++
                          map (λ pieceNum,
                                 sh_NodeID (default zeroShare (shares !! pieceNum)))
                              pieceNums in
                        (* remove failed audit pieces from the pointer *)
                        let '(_, calls) :=
                          removeFailedPieces env (SegmentPath stripe) (Segment stripe)
                            failed in
                        let successNodes :=
                          getSuccessNodes env shares failed (offlineNodes st)
                            (containedNodes st) in
                        match createPendingAudits env (containedNodes st)
                                correctedShares stripe with
                        | inl err =>
                            Returns (Some {| Successes := successNodes; Fails := failed;
                                             Offlines := offlineNodes st;
                                             PendingAudits := [] |},
                                     Some err, calls)
                        | inr pendingAudits =>
                            Returns (Some {| Successes := successNodes; Fails := failed;
                                             Offlines := offlineNodes st;
                                             PendingAudits := pendingAudits |},
                                     None, calls)
                        end
                    end
              end
          end
      end
  end.

(** *** Reverification of the contained nodes *)

(** The struct [result] of [Reverify] with its status, as the function
    fills it: the pending audit for [contained], the error for [erred]. *)
Inductive result :=
| skipped (nodeID : NodeID)
| success (nodeID : NodeID)
| offline (nodeID : NodeID)
| failed (nodeID : NodeID)
| contained (nodeID : NodeID) (pendingAudit : PendingAudit)
| erred (nodeID : NodeID) (err : error).

(** The containment store, the order service and the error classes of the
    overlay, as [Reverify] uses them for one piece. [containment_Get] is the
    reading made before the download and [containment_GetAgain] the one made
    after it. An order limit made without error is not nil. *)
Record Containment := {
  containment_Get : NodeID → error + PendingAudit;
  containment_GetAgain : NodeID → error + PendingAudit;
  containment_Delete : NodeID → option error;
  ErrContainedNotFound_Has : error → bool;
  overlay_ErrNodeDisqualified_Has : error → bool;
  overlay_ErrNodeOffline_Has : error → bool;
  orders_CreateAuditOrderLimit :
    option string → NodeID → Z → PieceID → Z → error + (AddressedOrderLimit * N)
}.

(** The goroutines of [Reverify] run side by side and change what they
    read: [envAt i] and [containmentAt i] are the collaborators as the piece at
    position [i] finds them, and [arrivalOfResults] is the order in which the
    channel delivers the results. *)
Record Reverifier := {
  envAt : nat → Env;
  containmentAt : nat → Containment;
  arrivalOfResults : list result → list result
}.

(** A share that was not found or does not match: the audit has failed,
    unless the segment is gone. [oldPointer] is what [checkIfSegmentDeleted]
    compares the pointer with. *)
Definition failUnlessDeleted (env : Env) (pending : PendingAudit) (piece : RemotePiece)
    (oldPointer : option Pointer) : result * list UpdatePiecesCall :=
  match checkIfSegmentDeleted env (pa_Path pending) oldPointer with
  | inl err => (success (NodeId piece), [])
  | inr oldPtr =>
      (* remove failed audit pieces from the pointer; an error is logged *)
      let '(_, calls) :=
        removeFailedPieces env (pa_Path pending) oldPtr [pa_NodeID pending] in
      (failed (NodeId piece), calls)
  end.

(** The goroutine started for a piece whose node is contained: what it sends
    on the channel and the pointer updates it asks for. *)
Definition reverifyPending (env : Env) (c : Containment) (stripe : Stripe)
    (pending : PendingAudit) (piece : RemotePiece) : result * list UpdatePiecesCall :=
  match orders_CreateAuditOrderLimit c (createBucketID env (SegmentPath stripe))
          (pa_NodeID pending) (PieceNum piece) (pa_PieceID pending)
          (pa_ShareSize pending) with
  | inl err =>
      if overlay_ErrNodeDisqualified_Has c err then
        match containment_Delete c (NodeId piece) with
        | Some errDelete => (erred (NodeId piece) (Combined err errDelete), [])
        | None => (erred (NodeId piece) err, [])
        end
      else if overlay_ErrNodeOffline_Has c err then (offline (NodeId piece), [])
      else (erred (NodeId piece) err, [])
  | inr (limit, piecePrivateKey) =>
      let '(share, err) :=
        GetShare env limit piecePrivateKey (pa_StripeIndex pending)
          (pa_ShareSize pending) (PieceNum piece) in
      (* check if the pending audit was deleted while downloading the share *)
      match containment_GetAgain c (NodeId piece) with
      | inl getErr =>
          if ErrContainedNotFound_Has c getErr then (skipped (NodeId piece), [])
          else (erred (NodeId piece) getErr, [])
      | inr _ =>
          (* analyze the error from GetShare *)
          match err with
          | Some err =>
              if transport_Error_Has env err then
                if errs_Is_DeadlineExceeded env err then
                  (* dial timeout *)
                  (offline (NodeId piece), [])
                else if errs2_IsRPC env err Unknown then
                  (* dial failed -- offline node *)
                  (offline (NodeId piece), [])
                else
                  (* unknown transport error *)
                  (contained (NodeId piece) pending, [])
              else if errs2_IsRPC env err NotFound then
                (* missing share *)
                failUnlessDeleted env pending piece (Some (Segment stripe))
              else if errs2_IsRPC env err DeadlineExceeded then
                (* dial successful, but download timed out *)
                (contained (NodeId piece) pending, [])
              else
                (* unknown error *)
                (contained (NodeId piece) pending, [])
          | None =>
              let downloadedHash := pkcrypto_SHA256Hash env (elems (sh_Data share)) in
              if bool_decide (downloadedHash = pa_ExpectedShareHash pending) then
                (* hashes match *)
                (success (NodeId piece), [])
              else
                (* hashes mismatch *)
                failUnlessDeleted env pending piece None
          end
      end
  end.

(** One turn of the loop of [Reverify] over the pieces: the result that
    reaches the channel for the piece, and the pointer updates asked for. *)
Definition reverifyPiece (env : Env) (c : Containment) (stripe : Stripe)
    (piece : RemotePiece) : result * list UpdatePiecesCall :=
  match containment_Get c (NodeId piece) with
  | inl err =>
      if ErrContainedNotFound_Has c err then (skipped (NodeId piece), [])
      else (erred (NodeId piece) err, [])
  | inr pending => reverifyPending env c stripe pending piece
  end.

(** What the pieces of the stripe send, in the order of the pieces. *)
Definition reverified (v : Reverifier) (stripe : Stripe)
    : list (result * list UpdatePiecesCall) :=
  imap (λ i piece, reverifyPiece (envAt v i) (containmentAt v i) stripe piece)
       (elems (GetRemotePieces (GetRemote (Segment stripe)))).

(** What the receiving loop of [Reverify] does with one result. *)
Definition recordResult (acc : Report * option error) (r : result)
    : Report * option error :=
  let '(report, err) := acc in
  match r with
  | skipped _ => (report, err)
  | success nodeID =>
      ({| Successes := Successes report ++ [nodeID]; Fails := Fails report;
          Offlines := Offlines report; PendingAudits := PendingAudits report |}, err)
  | offline nodeID =>
      ({| Successes := Successes report; Fails := Fails report;
          Offlines := Offlines report ++ [nodeID];
          PendingAudits := PendingAudits report |}, err)
  | failed nodeID =>
      ({| Successes := Successes report; Fails := Fails report ++ [nodeID];
          Offlines := Offlines report; PendingAudits := PendingAudits report |}, err)
  | contained _ pendingAudit =>
      ({| Successes := Successes report; Fails := Fails report;
          Offlines := Offlines report;
          PendingAudits := PendingAudits report ++ [pendingAudit] |}, err)
  | erred _ e => (report, Combine err (Some e))
  end.

(** What a result adds to the report, by status, and the node it is for. *)
Definition successOf (r : result) : option NodeID :=
  match r with success nodeID => Some nodeID | _ => None end.
Definition offlineOf (r : result) : option NodeID :=
  match r with offline nodeID => Some nodeID | _ => None end.
Definition failedOf (r : result) : option NodeID :=
  match r with failed nodeID => Some nodeID | _ => None end.
Definition containedOf (r : result) : option PendingAudit :=
  match r with contained _ pendingAudit => Some pendingAudit | _ => None end.
Definition erredOf (r : result) : option error :=
  match r with erred _ err => Some err | _ => None end.
Definition nodeOf (r : result) : NodeID :=
  match r with
  | skipped n | success n | offline n | failed n | contained n _ | erred n _ => n
  end.

(** The results that add an entry to the report. *)
Definition reported (r : result) : bool :=
  match r with
  | skipped _ | erred _ _ => false
  | success _ | offline _ | failed _ | contained _ _ => true
  end.

(** The receiving loop: one receive per piece. It blocks when the channel
    has nothing more to deliver. *)
Fixpoint receiveResults (n : nat) (ch : list result) (acc : Report * option error)
    : outcome (Report * option error) :=
  match n with
  | O => Returns acc
  | S n' =>
      match ch with
      | [] => Blocks
      | r :: ch' => receiveResults n' ch' (recordResult acc r)
      end
  end.

(** [Reverify] gives back the report, the error and the pointer updates
    asked for, these in the order of the pieces. *)
Definition Reverify (v : Reverifier) (stripe : Stripe)
    : outcome (Report * option error * list UpdatePiecesCall) :=
  let pieces := elems (GetRemotePieces (GetRemote (Segment stripe))) in
  let sent := reverified v stripe in
  match receiveResults (length pieces) (arrivalOfResults v sent.*1)
          ({| Successes := []; Fails := []; Offlines := []; PendingAudits := [] |}, None)
  with
  | Returns (report, err) => Returns (report, err, concat sent.*2)
  | Panics msg => Panics msg
  | Blocks => Blocks
  end.

End Audit.


(** ** Satellite: the segment-health observer *)

Module Checker.

Import Go pb.

Record InjuredSegment := {
  is_Path : Path;
  is_LostPieces : list Z;
  is_InsertedTime : Time
}.

Record IrreparableSegment := {
  irr_Path : Path;
  irr_SegmentDetail : Pointer;
  irr_LostPieces : Z;
  irr_LastRepairAttempt : Z;
  irr_RepairAttemptCount : Z
}.

Record durabilityStats := {
  remoteFilesChecked : Z;
  remoteSegmentsChecked : Z;
  remoteSegmentsNeedingRepair : Z;
  remoteSegmentsLost : Z;
  remoteSegmentInfo : list string
}.

(** The calls the observer makes to the queue and to the irreparable store. *)
Inductive Call :=
| CallInsert (seg : InjuredSegment)                 (* repairQueue.Insert *)
| CallDelete (path : Path)                          (* irrdb.Delete *)
| CallIncrementRepairAttempts (seg : IrreparableSegment).

Record Env := {
  nodestate_MissingPieces : Time → list RemotePiece → error + list Z;
  repairQueue_Insert : InjuredSegment → option error;
  irrdb_Delete : Path → option error;
  irrdb_IncrementRepairAttempts : IrreparableSegment → option error;
  time_Now : Time;          (* time.Now().UTC() *)
  time_NowUnix : Z;         (* time.Now().Unix() *)
  storj_SplitPath : Path → list string;
  storj_JoinPaths : list string → string
}.

(** [contains]: checks for a string in a slice. *)
Fixpoint contains (a : list string) (x : string) : bool :=
  match a with
  | [] => false
  | n :: rest => if bool_decide (x = n) then true else contains rest x
  end.

Definition setChecked (st : durabilityStats) : durabilityStats :=
  {| remoteFilesChecked := remoteFilesChecked st;
     remoteSegmentsChecked := int64 (remoteSegmentsChecked st + 1);
     remoteSegmentsNeedingRepair := remoteSegmentsNeedingRepair st;
     remoteSegmentsLost := remoteSegmentsLost st;
     remoteSegmentInfo := remoteSegmentInfo st |}.
Definition setNeedingRepair (st : durabilityStats) : durabilityStats :=
  {| remoteFilesChecked := remoteFilesChecked st;
     remoteSegmentsChecked := remoteSegmentsChecked st;
     remoteSegmentsNeedingRepair := int64 (remoteSegmentsNeedingRepair st + 1);
     remoteSegmentsLost := remoteSegmentsLost st;
     remoteSegmentInfo := remoteSegmentInfo st |}.
Definition setLost (st : durabilityStats) (info : list string) : durabilityStats :=
  {| remoteFilesChecked := remoteFilesChecked st;
     remoteSegmentsChecked := remoteSegmentsChecked st;
     remoteSegmentsNeedingRepair := remoteSegmentsNeedingRepair st;
     remoteSegmentsLost := int64 (remoteSegmentsLost st + 1);
     remoteSegmentInfo := info |}.

(** [checkerObserver.RemoteSegment]: the error returned, the statistics after
    the call and the calls made. *)
Definition RemoteSegment (env : Env) (monStats : durabilityStats) (path : Path)
    (pointer : Pointer) : option error * durabilityStats * list Call :=
  let monStats := setChecked monStats in
  let remote := GetRemote pointer in
  match GetRemotePieces remote, remote with
  | None, _ | _, None => (None, monStats, [])          (* no pieces on remote segment *)
  | Some pieces, Some rem =>
      match nodestate_MissingPieces env (CreationDate pointer) pieces with
      | inl err =>
          (Combine (Some (New ClsChecker "error getting missing pieces")) (Some err),
           monStats, [])
      | inr missingPieces =>
          let numHealthy := int32 (len pieces - len missingPieces) in
          let redundancy := Redundancy rem in
          if bool_decide (numHealthy > MinReq redundancy)
             && bool_decide (numHealthy <= RepairThreshold redundancy)
             && bool_decide (numHealthy < SuccessThreshold redundancy) then
            if bool_decide (len missingPieces = 0) then
              (* bad redundancy scheme *)
              (None, monStats, [])
            else
              let monStats := setNeedingRepair monStats in
              let seg := {| is_Path := path; is_LostPieces := missingPieces;
                            is_InsertedTime := time_Now env |} in
              match repairQueue_Insert env seg with
              | Some err => (None, monStats, [CallInsert seg])
              | None =>
                  (* the error of Delete is logged; nil is returned either way *)
                  (None, monStats, [CallInsert seg; CallDelete path])
              end
          else if bool_decide (numHealthy <= MinReq redundancy)
                  && bool_decide (numHealthy < RepairThreshold redundancy) then
            let pathElements := storj_SplitPath env path in
            let info :=
              if bool_decide (len pathElements >= 4) then
                let lostSegInfo :=
                  storj_JoinPaths env [default ""%string (pathElements !! 0%nat);
                                       default ""%string (pathElements !! 2%nat);
                                       default ""%string (pathElements !! 3%nat)] in
                if contains (remoteSegmentInfo monStats) lostSegInfo
                then remoteSegmentInfo monStats
                else remoteSegmentInfo monStats ++ [lostSegInfo]
              else remoteSegmentInfo monStats in
            let monStats := setLost monStats info in
            let segmentInfo :=
              {| irr_Path := path; irr_SegmentDetail := pointer;
                 irr_LostPieces := int32 (len missingPieces);
                 irr_LastRepairAttempt := time_NowUnix env;
                 irr_RepairAttemptCount := 1 |} in
            (None, monStats, [CallIncrementRepairAttempts segmentInfo])
          else (None, monStats, [])
      end
  end.

(** [checkerObserver.RemoteObject] and [checkerObserver.InlineSegment]: the
    error returned and the statistics after the call. *)
Definition RemoteObject (monStats : durabilityStats) (path : Path) (pointer : Pointer)
    : option error * durabilityStats :=
  (None,
   {| remoteFilesChecked := int64 (remoteFilesChecked monStats + 1);
      remoteSegmentsChecked := remoteSegmentsChecked monStats;
      remoteSegmentsNeedingRepair := remoteSegmentsNeedingRepair monStats;
      remoteSegmentsLost := remoteSegmentsLost monStats;
      remoteSegmentInfo := remoteSegmentInfo monStats |}).

Definition InlineSegment (monStats : durabilityStats) (path : Path) (pointer : Pointer)
    : option error * durabilityStats :=
  (None, monStats).

(** [Checker.updateIrreparableSegmentStatus]: the error returned and the
    calls made. The pointer may be nil. *)
Definition updateIrreparableSegmentStatus (env : Env) (pointer : option Pointer)
    (path : Path) : option error * list Call :=
  match pointer, pointer ≫= GetRemote with
  | None, _ | _, None => (None, [])
  | Some ptr, Some remote =>
      match RemotePieces remote with
      | None => (None, [])                             (* no pieces on remote segment *)
      | Some pieces =>
          match nodestate_MissingPieces env (CreationDate ptr) pieces with
          | inl err =>
              (Combine (Some (New ClsChecker "error getting missing pieces")) (Some err),
               [])
          | inr missingPieces =>
              let numHealthy := int32 (len pieces - len missingPieces) in
              let redundancy := Redundancy remote in
              if bool_decide (numHealthy > MinReq redundancy)
                 && bool_decide (numHealthy <= RepairThreshold redundancy)
                 && bool_decide (numHealthy < SuccessThreshold redundancy) then
                if bool_decide (len missingPieces = 0) then
                  (* bad redundancy scheme *)
                  (None, [])
                else
                  let seg := {| is_Path := path; is_LostPieces := missingPieces;
                                is_InsertedTime := time_Now env |} in
                  match repairQueue_Insert env seg with
                  | Some err =>
                      (Combine
                         (Some (New ClsChecker "error adding injured segment to queue"))
                         (Some err),
                       [CallInsert seg])
                  | None =>
                      (* the error of Delete is logged *)
                      (None, [CallInsert seg; CallDelete path])
                  end
              else if bool_decide (numHealthy <= MinReq redundancy)
                      && bool_decide (numHealthy < RepairThreshold redundancy) then
                (* make an entry into the irreparable table *)
                let segmentInfo :=
                  {| irr_Path := path; irr_SegmentDetail := ptr;
                     irr_LostPieces := int32 (len missingPieces);
                     irr_LastRepairAttempt := time_NowUnix env;
                     irr_RepairAttemptCount := 1 |} in
                match irrdb_IncrementRepairAttempts env segmentInfo with
                | Some err =>
                    (Combine
                       (Some (New ClsChecker "error handling irreparable segment to queue"))
                       (Some err),
                     [CallIncrementRepairAttempts segmentInfo])
                | None => (None, [CallIncrementRepairAttempts segmentInfo])
                end
              else (None, [])
          end
      end
  end.

(** What [IrreparableProcess] does, in order: the pages it reads from the
    irreparable store and the segments it looks at again, each with the calls
    and the error of [updateIrreparableSegmentStatus]. *)
Inductive Event :=
| EvGetLimited (limit : Z) (lastSeenSegmentPath : Path)
| EvUpdate (path : Path) (calls : list Call) (err : option error).

(** The collaborators of [IrreparableProcess]. The process changes the
    stores it reads, and time passes: what a collaborator answers may depend
    on everything done before. The rows of the irreparable store carry their
    pointer. *)
Record Irreparable := {
  irrdb_GetLimited : list Event → Z → Path → error + list IrreparableSegment;
  checkerAt : list Event → Env
}.

(** The loop over the segments of one page; an error is logged and the loop
    goes on. *)
Definition updateSegments (w : Irreparable) (segments : list IrreparableSegment)
    (history : list Event) : list Event :=
  foldl (λ history segment,
           let '(err, calls) :=
             updateIrreparableSegmentStatus (checkerAt w history)
               (Some (irr_SegmentDetail segment)) (irr_Path segment) in
           history ++ [EvUpdate (irr_Path segment) calls err])
        history segments.

(** The loop [for { ... }] of [IrreparableProcess], with a bound on the
    number of pages read: [None] when the bound is reached. *)
Fixpoint IrreparableLoop (fuel : nat) (w : Irreparable) (lastSeenSegmentPath : Path)
    (history : list Event) : option (option error * list Event) :=
  match fuel with
  | O => None
  | S fuel' =>
      let limit := 1000 in
      match irrdb_GetLimited w history limit lastSeenSegmentPath with
      | inl err =>
          Some (Combine (Some (New ClsChecker "error reading segment from the queue"))
                        (Some err),
                history ++ [EvGetLimited limit lastSeenSegmentPath])
      | inr segments =>
          let history := history ++ [EvGetLimited limit lastSeenSegmentPath] in
          (* zero segments returned with nil err *)
          if bool_decide (len segments = 0) then Some (None, history)
          else
            let lastSeenSegmentPath :=
              from_option irr_Path lastSeenSegmentPath (last segments) in
            IrreparableLoop fuel' w lastSeenSegmentPath
              (updateSegments w segments history)
      end
  end.

Definition IrreparableProcess (fuel : nat) (w : Irreparable)
    : option (option error * list Event) :=
  IrreparableLoop fuel w "" [].

(** An irreparable store that holds the given pages and does not change
    while they are read: asked for the segments after [cursor], it answers
    with the first page, then, asked for the segments after the last path of a
    page, with the next one, and with no segment after the last page. *)
Fixpoint serves (w : Irreparable) (cursor : Path)
    (pages : list (list IrreparableSegment)) : Prop :=
  match pages with
  | [] => ∀ history, irrdb_GetLimited w history 1000 cursor = inr []
  | page :: rest =>
      page ≠ []
      ∧ (∀ history, irrdb_GetLimited w history 1000 cursor = inr page)
      ∧ serves w (from_option irr_Path cursor (last page)) rest
  end.

(** The paths of the segments looked at again, and the pages read. *)
Definition updatedPaths (history : list Event) : list Path :=
  omap (λ ev, match ev with EvUpdate path _ _ => Some path | _ => None end) history.

Definition pagesRead (history : list Event) : list (Z * Path) :=
  omap (λ ev, match ev with
              | EvGetLimited limit cursor => Some (limit, cursor)
              | _ => None
              end) history.

(** Where a read of the irreparable store starts from: the empty path
    when nothing was done before, and otherwise the path of the segment that
    was looked at last. *)
Definition cursorAfter (history : list Event) (cursor : Path) : Prop :=
  match last history with
  | None => cursor = ""%string
  | Some ev => ∃ calls err, ev = EvUpdate cursor calls err
  end.

(** Every read of a history asks for 1000 segments and starts from where
    the events before it have led. *)
Definition readsInOrder (history : list Event) : Prop :=
  ∀ before limit cursor rest,
    history = before ++ EvGetLimited limit cursor :: rest →
    limit = 1000 ∧ cursorAfter before cursor.

End Checker.

(** ** Satellite: the segment repairer *)

Module Repairer.

Import Go pb.

Record Node := {
  Id : NodeID;
  Address : string
}.

(** [eestream.RedundancyStrategy], as far as [Repair] reads it. *)
Record RedundancyStrategy := {
  OptimalThreshold : Z
}.

Record FindStorageNodesRequest := {
  RequestedCount : Z;
  FreeBandwidth : Z;
  FreeDisk : Z;
  ExcludedNodes : list NodeID
}.

Definition OrderLimits := list (option Audit.AddressedOrderLimit).

(** The calls [Repair] makes to its collaborators. *)
Inductive Call :=
| CallGet (path : Path)                                          (* metainfo.Get *)
| CallGetMissingPieces (pieces : list RemotePiece)               (* cache.GetMissingPieces *)
| CallCreateGetRepairOrderLimits (healthy : list RemotePiece)
| CallFindStorageNodes (request : FindStorageNodesRequest)
| CallCreatePutRepairOrderLimits (newNodes : list Node)
| CallECGet (limits : OrderLimits)                               (* ec.Get: the download *)
| CallRange
| CallECRepair (limits : OrderLimits)                            (* ec.Repair: the upload *)
| CallUpdatePieces (path : Path) (ref : Pointer)
    (toAdd toRemove : list RemotePiece)                          (* metainfo.UpdatePieces *)
| CallClose.

Definition isDownload (c : Call) : bool :=
  match c with CallECGet _ | CallRange => true | _ => false end.
Definition isUpload (c : Call) : bool :=
  match c with CallECRepair _ => true | _ => false end.
Definition isUpdate (c : Call) : bool :=
  match c with CallUpdatePieces _ _ _ _ => true | _ => false end.

(** The repairer's collaborators. [ceilTimesMultiplier x] stands for
    [int(math.Ceil(float64(x) * repairer.multiplierOptimalThreshold))]. *)
Record Env := {
  metainfo_Get : Path → error + Pointer;
  metainfo_UpdatePieces :
    Path → Pointer → list RemotePiece → list RemotePiece → option error;
  eestream_NewRedundancyStrategyFromProto :
    option RedundancyScheme → error + RedundancyStrategy;
  eestream_CalcPieceSize : Z → RedundancyStrategy → Z;
  cache_GetMissingPieces : list RemotePiece → error + list Z;
  cache_FindStorageNodes : FindStorageNodesRequest → error + list Node;
  orders_CreateGetRepairOrderLimits :
    string → Pointer → list RemotePiece → error + (OrderLimits * N);
  orders_CreatePutRepairOrderLimits :
    string → Pointer → OrderLimits → list Node → error + (OrderLimits * N);
  ec_Get : OrderLimits → N → RedundancyStrategy → Z → option error;
  rr_Range : option error;
  r_Close : option error;
  ec_Repair : OrderLimits → N → RedundancyStrategy → Time → Path
              → error + (list (option Node) * list (option N));
  ceilTimesMultiplier : Z → Z;
  storj_SplitPath : Path → list string;
  storj_JoinPaths : list string → string
}.

(** A computation inside [Repair]: the calls made so far, and either a value
    to go on with, the error the function returns, or a panic. *)
Inductive res (A : Type) :=
| Val (a : A)
| Ret (err : option error)
| Panic (msg : string).
Arguments Val {A} a.
Arguments Ret {A} err.
Arguments Panic {A} msg.

Definition M (A : Type) : Type := list Call * res A.

Definition pure {A} (a : A) : M A := ([], Val a).
Definition bind {A B} (m : M A) (k : A → M B) : M B :=
  match m with
  | (t, Val a) => let '(t', r) := k a in (t ++ t', r)
  | (t, Ret e) => (t, Ret e)
  | (t, Panic msg) => (t, Panic msg)
  end.
Definition call (c : Call) : M unit := ([c], Val tt).
Definition return_ {A} (err : option error) : M A := ([], Ret err).
Definition panic {A} (msg : string) : M A := ([], Panic msg).
(** [v, err := f(...); if err != nil { return mk(err) }] *)
Definition try {A} (r : error + A) (mk : error → error) : M A :=
  match r with
  | inl err => return_ (Some (mk err))
  | inr a => pure a
  end.
Definition tryOpt (r : option error) (mk : error → error) : M unit :=
  match r with
  | Some err => return_ (Some (mk err))
  | None => pure tt
  end.

#[global] Instance M_ret : MRet M := @pure.
#[global] Instance M_bind : MBind M := λ A B k m, bind m k.

(** [sliceToSet] converts the given slice to a set. *)
Definition sliceToSet (slice : list Z) : gmap Z bool :=
  foldl (λ set value, <[value := true]> set) ∅ slice.

Definition createBucketID (env : Env) (path : Path) : error + string :=
  let comps := storj_SplitPath env path in
  if bool_decide (len comps < 3)
  then inl (New ClsRepairer "no bucket component in path")
  else inr (storj_JoinPaths env [default ""%string (comps !! 0%nat);
                                 default ""%string (comps !! 2%nat)]).

(** The loop that sorts the pieces of the pointer by the lost piece numbers:
    the node IDs to exclude, the healthy and the unhealthy pieces. *)
Definition sortPieces (lostPiecesSet : gmap Z bool) (pieces : list RemotePiece)
    : list NodeID * list RemotePiece * list RemotePiece :=
  foldl (λ '(excludeNodeIDs, healthyPieces, unhealthyPieces) piece,
           if negb (lookupBool lostPiecesSet (PieceNum piece))
           then (excludeNodeIDs ++ [NodeId piece], healthyPieces ++ [piece],
                 unhealthyPieces)
           else (excludeNodeIDs ++ [NodeId piece], healthyPieces,
                 unhealthyPieces ++ [piece]))
        ([], [], []) pieces.

(** The loop over [successfulNodes]: the repaired pieces and their piece
    numbers. Reading [hashes[i]] beyond the slice panics. *)
Fixpoint collectRepaired (i : nat) (successfulNodes : list (option Node))
    (hashes : list (option N)) (repairedPieces : list RemotePiece)
    (repairedMap : gmap Z bool) : M (list RemotePiece * gmap Z bool) :=
  match successfulNodes with
  | [] => pure (repairedPieces, repairedMap)
  | None :: rest => collectRepaired (S i) rest hashes repairedPieces repairedMap
  | Some node :: rest =>
      match hashes !! i with
      | None => panic "index out of range"
      | Some hash =>
          collectRepaired (S i) rest hashes
            (repairedPieces ++
             [{| PieceNum := int32 (Z.of_nat i); NodeId := Id node; Hash := hash |}])
            (<[int32 (Z.of_nat i) := true]> repairedMap)
      end
  end.

(** The pieces handed to [UpdatePieces] for removal. *)
Definition piecesToRemove (healthyAfterRepair : Z) (redundancy : RedundancyScheme)
    (unhealthyPieces : list RemotePiece) (repairedMap : gmap Z bool)
    : list RemotePiece :=
  if bool_decide (healthyAfterRepair >= SuccessThreshold redundancy) then
    (* if full repair, remove all unhealthy pieces *)
    unhealthyPieces
  else
    (* if partial repair, leave unrepaired unhealthy pieces in the pointer *)
    foldl (λ toRemove piece,
             if lookupBool repairedMap (PieceNum piece)
             then toRemove ++ [piece]
             else toRemove)
          [] unhealthyPieces.

(** [Repair] after [rr.Range] has succeeded; the deferred [r.Close] is added
    by [Repair]. *)
Definition uploadAndUpdate (env : Env) (path : Path) (pointer : Pointer)
    (remote : RemoteSegment) (redundancy : RedundancyStrategy) (expiration : Time)
    (putLimits : OrderLimits) (putPrivateKey : N)
    (healthyPieces unhealthyPieces : list RemotePiece) : M unit :=
  call (CallECRepair putLimits);;
  '(successfulNodes, hashes) ←
    try (ec_Repair env putLimits putPrivateKey redundancy expiration path)
        (Wrap ClsRepairer);
  '(repairedPieces, repairedMap) ← collectRepaired 0 successfulNodes hashes [] ∅;
  let healthyAfterRepair := int32 (len healthyPieces + len repairedPieces) in
  let toRemove :=
    piecesToRemove healthyAfterRepair (Redundancy remote) unhealthyPieces repairedMap in
  call (CallUpdatePieces path pointer repairedPieces toRemove);;
  return_ (metainfo_UpdatePieces env path pointer repairedPieces toRemove).

(** Running the deferred [err = errs.Combine(err, r.Close())]. *)
Definition deferClose {A} (env : Env) (m : M A) : M A :=
  match m with
  | (t, Ret err) => (t ++ [CallClose], Ret (Combine err (r_Close env)))
  | (t, Panic msg) => (t ++ [CallClose], Panic msg)
  | (t, Val a) => (t, Val a)
  end.

(** [Repair] once the segment is known to need repair and to be
    repairable. *)
Definition repairSegment (env : Env) (path : Path) (pointer : Pointer)
    (remote : RemoteSegment) (redundancy : RedundancyStrategy)
    (pieces : list RemotePiece) (missingPieces : list Z) : M unit :=
  let pieceSize := eestream_CalcPieceSize env (SegmentSize pointer) redundancy in
  let expiration := ExpirationDate pointer in
  let lostPiecesSet := sliceToSet missingPieces in
  let '(excludeNodeIDs, healthyPieces, unhealthyPieces) :=
    sortPieces lostPiecesSet pieces in
  bucketID ← try (createBucketID env path) (Wrap ClsRepairer);
  call (CallCreateGetRepairOrderLimits healthyPieces);;
  '(getOrderLimits, getPrivateKey) ←
    try (orders_CreateGetRepairOrderLimits env bucketID pointer healthyPieces)
        (Wrap ClsRepairer);
  let requestCount :=
    ceilTimesMultiplier env (OptimalThreshold redundancy) - len healthyPieces in
  let request := {| RequestedCount := requestCount; FreeBandwidth := pieceSize;
                    FreeDisk := pieceSize; ExcludedNodes := excludeNodeIDs |} in
  call (CallFindStorageNodes request);;
  newNodes ← try (cache_FindStorageNodes env request) (Wrap ClsRepairer);
  call (CallCreatePutRepairOrderLimits newNodes);;
  '(putLimits, putPrivateKey) ←
    try (orders_CreatePutRepairOrderLimits env bucketID pointer getOrderLimits newNodes)
        (Wrap ClsRepairer);
  (* Download the segment using just the healthy pieces *)
  call (CallECGet getOrderLimits);;
  tryOpt (ec_Get env getOrderLimits getPrivateKey redundancy (SegmentSize pointer))
         (Wrap ClsRepairer);;
  call CallRange;;
  tryOpt (rr_Range env) (Wrap ClsRepairer);;
  deferClose env
    (uploadAndUpdate env path pointer remote redundancy expiration putLimits
       putPrivateKey healthyPieces unhealthyPieces).

Arguments repairSegment : simpl never.

Definition RepairM (env : Env) (path : Path) : M unit :=
  call (CallGet path);;
  pointer ← try (metainfo_Get env path) (Wrap ClsRepairer);
  if bool_decide (Type_ pointer ≠ REMOTE) then
    return_ (Some (New ClsRepairer "cannot repair inline segment"))
  else
  redundancy ←
    try (eestream_NewRedundancyStrategyFromProto env (GetRedundancy (GetRemote pointer)))
        (Wrap ClsRepairer);
  let pieces := elems (GetRemotePieces (GetRemote pointer)) in
  call (CallGetMissingPieces pieces);;
  missingPieces ←
    try (cache_GetMissingPieces env pieces)
        (λ _, New ClsRepairer "error getting missing pieces");
  let numHealthy := len pieces - len missingPieces in
  match Remote pointer with
  | None => panic "nil pointer dereference"
  | Some remote =>
      (* irreparable piece, we need k+1 to detect corrupted pieces *)
      if bool_decide (int32 numHealthy < int32 (MinReq (Redundancy remote) + 1)) then
        return_ (Some (Wrap ClsRepairer
                         (New ClsIrreparable "segment cannot be repaired")))
      else
      (* repair not needed *)
      if bool_decide (int32 numHealthy > RepairThreshold (Redundancy remote)) then
        return_ None
      else repairSegment env path pointer remote redundancy pieces missingPieces
  end.

(** [SegmentRepairer.Repair]: the calls it made and how it ended. *)
Definition Repair (env : Env) (path : Path) : list Call * outcome (option error) :=
  match RepairM env path with
  | (t, Ret err) => (t, Returns err)
  | (t, Panic msg) => (t, Panics msg)
  | (t, Val _) => (t, Returns None)
  end.

End Repairer.

(** ** Concrete collaborators, used to run the definitions *)

Module Fixtures.

Import Go pb.

Definition plainFacts : ErrFacts :=
  {| ef_transport := false; ef_dialTimeout := false; ef_canceled := false;
     ef_keyNotFound := false; ef_rpc := Unknown |}.

(** The facts of the innermost error made elsewhere. *)
Fixpoint factsOf (e : error) : option ErrFacts :=
  match e with
  | External _ f => Some f
  | Wrap _ e' => factsOf e'
  | _ => None
  end.

Definition isRPC (e : error) (c : Code) : bool :=
  match factsOf e with
  | Some f => bool_decide (ef_rpc f = c)
  | None =>
      match e with
      | Status c' _ => bool_decide (c' = c)
      | _ => bool_decide (c = Unknown)
      end
  end.

(** A storage node that trusts every satellite and accepts every signature. *)
Definition endpoint : Piecestore.Endpoint :=
  {| Piecestore.signerID := 7%N;
     Piecestore.config := {| Piecestore.ExpirationGracePeriod := 10;
                             Piecestore.OrderLimitGracePeriod := 1000 |};
     Piecestore.trust_VerifySatelliteID := λ _, None;
     Piecestore.trust_GetSignee := λ sat, inr sat;
     Piecestore.signing_VerifyOrderLimitSignature := λ _ _, None;
     Piecestore.signing_VerifyUplinkOrderSignature := λ _ _, None;
     Piecestore.errs2_IsCanceled := λ e, from_option ef_canceled false (factsOf e) |}.

Definition limit1 : Piecestore.OrderLimit :=
  {| Piecestore.ol_SerialNumber := 42%N;
     Piecestore.ol_SatelliteId := 3%N;
     Piecestore.ol_StorageNodeId := 7%N;
     Piecestore.ol_UplinkPublicKey := 11%N;
     Piecestore.ol_PieceId := 13%N;
     Piecestore.ol_Action := Piecestore.GET;
     Piecestore.ol_Limit := 4096;
     Piecestore.ol_PieceExpiration := 0;
     Piecestore.ol_OrderExpiration := 5000;
     Piecestore.ol_OrderCreation := 900;
     Piecestore.ol_SatelliteSignature := [1; 2; 3] |}.

(** A second order limit with the serial of [limit1], made later and for
    another piece. *)
Definition limit2 : Piecestore.OrderLimit :=
  {| Piecestore.ol_SerialNumber := 42%N;
     Piecestore.ol_SatelliteId := 3%N;
     Piecestore.ol_StorageNodeId := 7%N;
     Piecestore.ol_UplinkPublicKey := 11%N;
     Piecestore.ol_PieceId := 14%N;
     Piecestore.ol_Action := Piecestore.GET;
     Piecestore.ol_Limit := 4096;
     Piecestore.ol_PieceExpiration := 0;
     Piecestore.ol_OrderExpiration := 5000;
     Piecestore.ol_OrderCreation := 2500;
     Piecestore.ol_SatelliteSignature := [1; 2; 3] |}.

Definition clockAt (t : Time) : Piecestore.Clock :=
  {| Piecestore.now := t; Piecestore.nowPieceExpired := t;
     Piecestore.nowOrderExpired := t |}.

Definition order (serial : SerialNumber) (amount : Z) : Piecestore.Order :=
  {| Piecestore.o_SerialNumber := serial; Piecestore.o_Amount := amount;
     Piecestore.o_UplinkSignature := [9] |}.

(** A verifier whose collaborators all succeed, except that the download
    from a node fails with the error [failing] gives for that node. Maps are
    visited in the order of [map_to_list] and the channel delivers in reverse
    order. *)
Definition verifier (mbps : Z) (limits : list (option Audit.AddressedOrderLimit))
    (current : Pointer) (failing : NodeID → option error) : Audit.Env :=
  {| Audit.minBytesPerSecond := mbps;
     Audit.minDownloadTimeout := 5 * Second;
     Audit.transport_Error_Has := Has ClsTransport;
     Audit.errs_Is_DeadlineExceeded := λ e, from_option ef_dialTimeout false (factsOf e);
     Audit.errs2_IsRPC := isRPC;
     Audit.storage_ErrKeyNotFound_Has := λ e, from_option ef_keyNotFound false (factsOf e);
     Audit.rangeMap := λ A m, map_to_list m;
     Audit.arrival := reverse;
     Audit.storj_SplitPath := λ p, [p];
     Audit.storj_JoinPaths := λ l, String.concat "/" l;
     Audit.orders_CreateAuditOrderLimits := λ _ _ _, inr (limits, 1%N);
     Audit.metainfo_Get := λ _, inr current;
     Audit.metainfo_UpdatePieces := λ _, None;
     Audit.piecestore_Dial := λ _ _, None;
     Audit.ps_Download := λ _ limit _ _ _, failing (Audit.StorageNodeId limit);
     Audit.io_ReadFull := λ _ _ _, inr [1; 2; 3; 4];
     Audit.downloader_Close := λ _, None;
     Audit.infectious_NewFEC := λ _ _, None;
     Audit.fec_Correct := λ _ _ shares, inr shares;
     Audit.fec_Rebuild := λ _ _ _ _, inr [1; 2; 3; 4; 1; 2; 3; 4];
     Audit.fec_EncodeSingle := λ _ _ _ _ _, inr [1; 2; 3; 4];
     Audit.pkcrypto_SHA256Hash := λ b, b |}.

Definition limitFor (n : NodeID) : option Audit.AddressedOrderLimit :=
  Some {| Audit.StorageNodeId := n; Audit.StorageNodeAddress := "" |}.

Definition piece (num : Z) (n : NodeID) : RemotePiece :=
  {| PieceNum := num; NodeId := n; Hash := None |}.

(** A remote segment with redundancy [(k, r, s, n) = (2, 3, 4, 5)]. *)
Definition scheme2345 : RedundancyScheme :=
  {| MinReq := 2; Total := 5; RepairThreshold := 3; SuccessThreshold := 4;
     ErasureShareSize := 4 |}.

Definition segment (red : RedundancyScheme) (pieces : list RemotePiece) : Pointer :=
  {| Type_ := REMOTE; InlineSegment := [];
     Remote := Some {| Redundancy := red; RootPieceId := 99%N;
                       RemotePieces := Some pieces |};
     SegmentSize := 64; CreationDate := 100; ExpirationDate := 0; Metadata := [] |}.

Definition noFailure : NodeID → option error := λ _, None.

(** Three pieces on the nodes 10, 11 and 12, each with an order limit. *)
Definition threePieces : list RemotePiece := [piece 0 10%N; piece 1 11%N; piece 2 12%N].
Definition threeLimits : list (option Audit.AddressedOrderLimit) :=
  [limitFor 10%N; limitFor 11%N; limitFor 12%N; None; None].

Definition stripeOf (pieces : list RemotePiece) : Audit.Stripe :=
  {| Audit.Index := 0; Audit.Segment := segment scheme2345 pieces;
     Audit.SegmentPath := "project/l/bucket/object" |}.

(** A dial that failed: a transport error, not a timeout, with RPC code
    [Unknown]. *)
Definition dialFailed : error :=
  External "connection refused"
    {| ef_transport := true; ef_dialTimeout := false; ef_canceled := false;
       ef_keyNotFound := false; ef_rpc := Unknown |}.

(** A transport error that is neither a timeout nor of RPC code [Unknown],
    and that carries the RPC code [NotFound]. *)
Definition transportNotFound : error :=
  External "transport: not found"
    {| ef_transport := true; ef_dialTimeout := false; ef_canceled := false;
       ef_keyNotFound := false; ef_rpc := NotFound |}.

Definition failingAt (n : NodeID) (e : error) : NodeID → option error :=
  λ m, if bool_decide (m = n) then Some e else None.

Definition emptySorted : Audit.Sorted :=
  {| Audit.offlineNodes := []; Audit.failedNodes := [];
     Audit.containedNodes := ∅; Audit.sharesToAudit := ∅ |}.

Definition failedShare (pieceNum : Z) (n : NodeID) (e : error) : Audit.Share :=
  {| Audit.sh_Error := Some e; Audit.sh_PieceNum := pieceNum;
     Audit.sh_NodeID := n; Audit.sh_Data := None |}.

(** A share downloaded without error. *)
Definition okShare (pieceNum : Z) (n : NodeID) : Audit.Share :=
  {| Audit.sh_Error := None; Audit.sh_PieceNum := pieceNum;
     Audit.sh_NodeID := n; Audit.sh_Data := Some [1; 2; 3; 4] |}.

(** The shares of the pieces 0 and 1, downloaded from the nodes 10 and 11. *)
Definition twoShares : gmap Z Audit.Share :=
  {[0 := okShare 0 10%N; 1 := okShare 1 11%N]}.

(** A download refused with the RPC code [NotFound]: not a transport
    error. *)
Definition downloadNotFound : error :=
  External "piece not found"
    {| ef_transport := false; ef_dialTimeout := false; ef_canceled := false;
       ef_keyNotFound := false; ef_rpc := NotFound |}.

(** An observer whose reliability cache reports the pieces numbered in
    [lost] as missing. *)
Definition observer (lost : list Z) : Checker.Env :=
  {| Checker.nodestate_MissingPieces := λ _ pieces,
       inr (filter (λ n, n ∈ lost) (PieceNum <$> pieces));
     Checker.repairQueue_Insert := λ _, None;
     Checker.irrdb_Delete := λ _, None;
     Checker.irrdb_IncrementRepairAttempts := λ _, None;
     Checker.time_Now := 777;
     Checker.time_NowUnix := 7;
     Checker.storj_SplitPath := λ p, [p];
     Checker.storj_JoinPaths := λ l, String.concat "/" l |}.

Definition fivePieces : list RemotePiece :=
  [piece 0 10%N; piece 1 11%N; piece 2 12%N; piece 3 13%N; piece 4 14%N].

Definition noStats : Checker.durabilityStats :=
  {| Checker.remoteFilesChecked := 0; Checker.remoteSegmentsChecked := 0;
     Checker.remoteSegmentsNeedingRepair := 0; Checker.remoteSegmentsLost := 0;
     Checker.remoteSegmentInfo := [] |}.

(** A repairer whose collaborators all succeed: the overlay reports the
    pieces numbered in [lost] as missing and the upload ends with the nodes
    [uploaded], each with a hash. *)
Definition repairer (pointer : Pointer) (lost : list Z)
    (uploaded : list (option Repairer.Node)) : Repairer.Env :=
  {| Repairer.metainfo_Get := λ _, inr pointer;
     Repairer.metainfo_UpdatePieces := λ _ _ _ _, None;
     Repairer.eestream_NewRedundancyStrategyFromProto := λ red,
       inr {| Repairer.OptimalThreshold := from_option SuccessThreshold 0 red |};
     Repairer.eestream_CalcPieceSize := λ size _, size;
     Repairer.cache_GetMissingPieces := λ pieces,
       inr (filter (λ n, n ∈ lost) (PieceNum <$> pieces));
     Repairer.cache_FindStorageNodes := λ _, inr [];
     Repairer.orders_CreateGetRepairOrderLimits := λ _ _ _, inr ([], 1%N);
     Repairer.orders_CreatePutRepairOrderLimits := λ _ _ _ _, inr ([], 2%N);
     Repairer.ec_Get := λ _ _ _ _, None;
     Repairer.rr_Range := None;
     Repairer.r_Close := None;
     Repairer.ec_Repair := λ _ _ _ _ _, inr (uploaded, (λ _, Some 5%N) <$> uploaded);
     Repairer.ceilTimesMultiplier := λ x, x;
     Repairer.storj_SplitPath := λ _, ["project"; "l"; "bucket"; "object"]%string;
     Repairer.storj_JoinPaths := λ l, String.concat "/" l |}.

(** The same repairer, except that the upload gives back no hashes. *)
Definition withoutHashes (env : Repairer.Env) : Repairer.Env :=
  {| Repairer.metainfo_Get := Repairer.metainfo_Get env;
     Repairer.metainfo_UpdatePieces := Repairer.metainfo_UpdatePieces env;
     Repairer.eestream_NewRedundancyStrategyFromProto :=
       Repairer.eestream_NewRedundancyStrategyFromProto env;
     Repairer.eestream_CalcPieceSize := Repairer.eestream_CalcPieceSize env;
     Repairer.cache_GetMissingPieces := Repairer.cache_GetMissingPieces env;
     Repairer.cache_FindStorageNodes := Repairer.cache_FindStorageNodes env;
     Repairer.orders_CreateGetRepairOrderLimits :=
       Repairer.orders_CreateGetRepairOrderLimits env;
     Repairer.orders_CreatePutRepairOrderLimits :=
       Repairer.orders_CreatePutRepairOrderLimits env;
     Repairer.ec_Get := Repairer.ec_Get env;
     Repairer.rr_Range := Repairer.rr_Range env;
     Repairer.r_Close := Repairer.r_Close env;
     Repairer.ec_Repair := λ limits key redundancy expiration path,
       match Repairer.ec_Repair env limits key redundancy expiration path with
       | inl err => inl err
       | inr (nodes, _) => inr (nodes, [])
       end;
     Repairer.ceilTimesMultiplier := Repairer.ceilTimesMultiplier env;
     Repairer.storj_SplitPath := Repairer.storj_SplitPath env;
     Repairer.storj_JoinPaths := Repairer.storj_JoinPaths env |}.

Definition node (n : NodeID) : option Repairer.Node :=
  Some {| Repairer.Id := n; Repairer.Address := "" |}.

(** A segment of the irreparable store, and a store that holds the segments
    [a] and [b] on its first page and [c] on its second. *)
Definition lostSegment (path : Path) : Checker.IrreparableSegment :=
  {| Checker.irr_Path := path;
     Checker.irr_SegmentDetail := segment scheme2345 fivePieces;
     Checker.irr_LostPieces := 3; Checker.irr_LastRepairAttempt := 7;
     Checker.irr_RepairAttemptCount := 1 |}.

Definition irreparableStore (lost : list Z) : Checker.Irreparable :=
  {| Checker.irrdb_GetLimited := λ _ _ cursor,
       if bool_decide (cursor = ""%string) then inr [lostSegment "a"; lostSegment "b"]
       else if bool_decide (cursor = "b"%string) then inr [lostSegment "c"]
       else inr [];
     Checker.checkerAt := λ _, observer lost |}.

(** An irreparable store that cannot be read. *)
Definition brokenStore : Checker.Irreparable :=
  {| Checker.irrdb_GetLimited := λ _ _ _, inl (External "database is locked" plainFacts);
     Checker.checkerAt := λ _, observer [] |}.

(** The pending audit of a contained node, and a containment store that
    holds the nodes [held], each with its pending audit. Order limits are made
    for every node. *)
Definition pendingOf (n : NodeID) : Audit.PendingAudit :=
  {| Audit.pa_NodeID := n; Audit.pa_PieceID := 99%N; Audit.pa_StripeIndex := 0;
     Audit.pa_ShareSize := 4; Audit.pa_ExpectedShareHash := [1; 2; 3; 4];
     Audit.pa_Path := "project/l/bucket/object" |}.

Definition notContained : error :=
  External "pending audit not found" plainFacts.

Definition containment (held : list NodeID) : Audit.Containment :=
  {| Audit.containment_Get := λ n,
       if bool_decide (n ∈ held) then inr (pendingOf n) else inl notContained;
     Audit.containment_GetAgain := λ n,
       if bool_decide (n ∈ held) then inr (pendingOf n) else inl notContained;
     Audit.containment_Delete := λ _, None;
     Audit.ErrContainedNotFound_Has := λ _, true;
     Audit.overlay_ErrNodeDisqualified_Has := λ _, false;
     Audit.overlay_ErrNodeOffline_Has := λ _, false;
     Audit.orders_CreateAuditOrderLimit := λ _ n _ _ _,
       inr ({| Audit.StorageNodeId := n; Audit.StorageNodeAddress := "" |}, 1%N) |}.

(** A reverifier that finds the same collaborators for every piece; the
    channel delivers in reverse order. *)
Definition reverifier (held : list NodeID) (failing : NodeID → option error)
    : Audit.Reverifier :=
  {| Audit.envAt := λ _, verifier 128 threeLimits (segment scheme2345 threePieces) failing;
     Audit.containmentAt := λ _, containment held;
     Audit.arrivalOfResults := reverse |}.

End Fixtures.

(** * Properties *)

(** ** Conversions that do not wrap *)

Module GoProps.

Import Go.

Lemma int32_small z : MinInt32 ≤ z ≤ MaxInt32 → int32 z = z.
Proof.
  unfold int32, MinInt32, MaxInt32. intros H.
  rewrite Z.mod_small by lia. lia.
Qed.

Lemma int64_small z : MinInt64 ≤ z ≤ MaxInt64 → int64 z = z.
Proof.
  unfold int64, MinInt64, MaxInt64. intros H.
  rewrite Z.mod_small by lia. lia.
Qed.

Lemma len_nil_iff {A} (l : list A) : len l = 0 ↔ l = [].
Proof. unfold len. destruct l; simpl; split; intros; try done; lia. Qed.

End GoProps.

(** ** Orders and order limits on the storage node *)

Module PiecestoreProps.

Import Go Piecestore.

Lemma usedSerials_Add_inv (st : gmap N (NodeID * Time)) sat serial exp r st' :
  usedSerials_Add st sat serial exp = (r, st') →
  (r = None ∧ st !! serial = None ∧ st' = <[serial := (sat, exp)]> st)
  ∨ ((∃ e, r = Some e) ∧ is_Some (st !! serial) ∧ st' = st).
Proof.
  unfold usedSerials_Add. destruct (st !! serial) eqn:E; intros [= <- <-].
  - right. eauto.
  - left. auto.
Qed.

(** A call either adds the serial of its limit, which was not recorded, and
    accepts, or rejects and leaves the store as it was. *)
Lemma verifyOrderLimit_inv ep clk (st : gmap N (NodeID * Time)) limit r st' :
  verifyOrderLimit ep clk st limit = (r, st') →
  (r = None ∧ st !! ol_SerialNumber limit = None
   ∧ st' = <[ol_SerialNumber limit :=
               (ol_SatelliteId limit, serialExpiration ep clk limit)]> st)
  ∨ ((∃ e, r = Some e) ∧ st' = st).
Proof.
  unfold verifyOrderLimit.
  repeat (case_bool_decide; [intros [= <- <-]; right; eauto|]).
  repeat (match goal with
          | |- context [if ?b then _ else _] => destruct b
          | |- context [match ?x with _ => _ end] => destruct x eqn:?
          end; try (intros [= <- <-]; right; by eauto)).
  all: match goal with
       | H : usedSerials_Add _ _ _ _ = _ |- _ =>
           apply usedSerials_Add_inv in H; destruct H as [(? & ? & ?)|(? & ? & ?)]
       end.
  all: intros [= <- <-]; subst; try (right; by eauto); try (left; by eauto).
  all: try (destruct H as [? ?]; discriminate).
Qed.

(** A limit whose serial is recorded is rejected. *)
Lemma verifyOrderLimit_recorded ep clk (st : gmap N (NodeID * Time)) limit :
  is_Some (st !! ol_SerialNumber limit) →
  ∃ e, verifyOrderLimit ep clk st limit = (Some e, st).
Proof.
  intros [x Hx]. destruct (verifyOrderLimit ep clk st limit) as [r st'] eqn:E.
  apply verifyOrderLimit_inv in E as [(_ & Hn & _)|([e ->] & ->)].
  - cbv [SerialNumber NodeID Time] in *. congruence.
  - eauto.
Qed.

(** A recorded serial stays recorded while its expiration is not passed. *)
Lemma step_keeps ep (st : gmap N (NodeID * Time)) o serial sat exp :
  st !! serial = Some (sat, exp) →
  Forall (λ t, t ≤ exp) (cleanups [o]) →
  step ep st o !! serial = Some (sat, exp).
Proof.
  intros Hs Hc. destruct o as [clk limit|t]; simpl.
  - destruct (verifyOrderLimit ep clk st limit) as [r st'] eqn:E. simpl.
    apply verifyOrderLimit_inv in E as [(_ & Hn & ->)|(_ & ->)]; [|done].
    rewrite lookup_insert_ne; [done|]. intros Heq. rewrite Heq in Hn.
    cbv [SerialNumber NodeID Time] in *. congruence.
  - unfold usedSerials_DeleteExpired. apply map_lookup_filter_Some. split; [done|].
    simpl. apply Forall_cons in Hc as [Hc _]. lia.
Qed.

Lemma run_keeps ep ops : ∀ (st : gmap N (NodeID * Time)) serial sat exp,
  st !! serial = Some (sat, exp) →
  Forall (λ t, t ≤ exp) (cleanups ops) →
  run ep st ops !! serial = Some (sat, exp).
Proof.
  induction ops as [|o ops IH]; intros st serial sat exp Hs Hc; [done|].
  unfold run. simpl. apply IH.
  - apply step_keeps; [done|]. destruct o; simpl in *; [constructor|].
    apply Forall_cons in Hc as [? _]. by repeat constructor.
  - destruct o; simpl in *; [done|]. by apply Forall_cons in Hc as [_ ?].
Qed.

(** The serial expires with the order, or at the end of the grace period when
    that comes first. *)
Lemma serialExpiration_min ep clk limit :
  serialExpiration ep clk limit
  = Z.min (ol_OrderExpiration limit) (now clk + OrderLimitGracePeriod (config ep)).
Proof.
  unfold serialExpiration, Before, Add. case_bool_decide; lia.
Qed.

(** An accepted limit was made within the grace period. *)
Lemma verifyOrderLimit_fresh ep clk (st st' : gmap N (NodeID * Time)) limit :
  verifyOrderLimit ep clk st limit = (None, st') →
  Sub (now clk) (ol_OrderCreation limit) ≤ OrderLimitGracePeriod (config ep).
Proof.
  unfold verifyOrderLimit.
  do 2 (case_bool_decide; [by intros [=]|]).
  do 2 (match goal with
        | |- context [if IsExpired ?e ?t ?x then _ else _] =>
            destruct (IsExpired e t x); [by intros [=]|]
        end).
  case_bool_decide; [by intros [=]|]. intros _. lia.
Qed.

(** C7 does not hold as stated: the serial of an accepted order limit is kept
    until the end of the grace period only, when that comes before the
    expiration of the order. Here the grace period is 1000: a limit that
    expires at 5000 is accepted at 1000, its serial is dropped by the cleanup
    at 2500, and a second limit with the same serial, made at 2500, is accepted
    at 3000, before either limit has expired. *)
Theorem verifyOrderLimit_serial_reused :
  ∃ st1 st2 : gmap N (NodeID * Time),
    verifyOrderLimit Fixtures.endpoint (Fixtures.clockAt 1000) ∅ Fixtures.limit1
    = (None, st1)
    ∧ verifyOrderLimit Fixtures.endpoint (Fixtures.clockAt 3000)
        (run Fixtures.endpoint st1 [OpDeleteExpired 2500]) Fixtures.limit2
      = (None, st2)
    ∧ ol_SerialNumber Fixtures.limit2 = ol_SerialNumber Fixtures.limit1
    ∧ 3000 ≤ ol_OrderExpiration Fixtures.limit1
    ∧ 3000 ≤ ol_OrderExpiration Fixtures.limit2.
Proof.
  eexists _, _. split; [vm_compute; reflexivity|].
  split; [vm_compute; reflexivity|]. repeat split; vm_compute; discriminate.
Qed.

(** C7, as the code has it: an accepted order limit leaves its serial in the
    used-serials store, with the earlier of the expiration of the order and
    the end of the grace period as its expiration. As long as no cleanup later
    than that expiration has run, every order limit bearing the serial is
    rejected and the store is left as it is. Once the serial may have been
    dropped, an order limit bearing the serial that was made no later than the
    accepted one, such as the accepted limit itself, is still rejected until
    the accepted limit expires: this when the clock of the node was not behind
    the creation of the limit, has not gone back since the cleanups, and the
    grace period is below the largest duration. *)
Theorem verifyOrderLimit_single_use ep clk1 clk2
    (st st1 : gmap N (NodeID * Time)) limit1 limit2 ops :
  verifyOrderLimit ep clk1 st limit1 = (None, st1) →
  ol_SerialNumber limit2 = ol_SerialNumber limit1 →
  st1 !! ol_SerialNumber limit1
    = Some (ol_SatelliteId limit1,
            Z.min (ol_OrderExpiration limit1)
                  (now clk1 + OrderLimitGracePeriod (config ep)))
  ∧ (Forall (λ t, t ≤ Z.min (ol_OrderExpiration limit1)
                            (now clk1 + OrderLimitGracePeriod (config ep)))
            (cleanups ops) →
     ∃ e, verifyOrderLimit ep clk2 (run ep st1 ops) limit2 = (Some e, run ep st1 ops))
  ∧ (ol_OrderCreation limit2 ≤ ol_OrderCreation limit1 →
     ol_OrderCreation limit1 ≤ now clk1 →
     Forall (λ t, t ≤ now clk2) (cleanups ops) →
     now clk2 ≤ ol_OrderExpiration limit1 →
     OrderLimitGracePeriod (config ep) < MaxInt64 →
     ∃ e, verifyOrderLimit ep clk2 (run ep st1 ops) limit2 = (Some e, run ep st1 ops)).
Proof.
  intros Hacc Hser. rewrite <-serialExpiration_min.
  apply verifyOrderLimit_inv in Hacc as [(_ & _ & ->)|([e He] & _)]; [|done].
  assert (Forall (λ t, t ≤ serialExpiration ep clk1 limit1) (cleanups ops) →
          ∃ e, verifyOrderLimit ep clk2
                 (run ep (<[ol_SerialNumber limit1 :=
                              (ol_SatelliteId limit1, serialExpiration ep clk1 limit1)]> st)
                      ops) limit2
               = (Some e,
                  run ep (<[ol_SerialNumber limit1 :=
                              (ol_SatelliteId limit1, serialExpiration ep clk1 limit1)]> st)
                      ops)) as Hrecorded.
  { intros Hops. apply verifyOrderLimit_recorded. rewrite Hser.
    erewrite run_keeps; [done| |done]. by rewrite lookup_insert_eq. }
  split; [by rewrite lookup_insert_eq|]. split; [done|].
  intros Hc2 Hc1 Hclean Hlife Hgrace.
  destruct (decide (Forall (λ t, t ≤ serialExpiration ep clk1 limit1) (cleanups ops)))
    as [Hops|Hops]; [by apply Hrecorded|].
  apply not_Forall_Exists in Hops; [|apply _].
  apply Exists_exists in Hops as (t & Hin & Ht).
  rewrite Forall_forall in Hclean. apply Hclean in Hin.
  rewrite serialExpiration_min in Ht.
  destruct (verifyOrderLimit ep clk2 _ limit2) as [r st'] eqn:E.
  pose proof E as E'.
  apply verifyOrderLimit_inv in E' as [(-> & _ & _)|([e ->] & ->)]; [|eauto].
  apply verifyOrderLimit_fresh in E. unfold Sub, MaxInt64, MinInt64 in *.
  exfalso. unfold compose in Ht. lia.
Qed.

Lemma verifyOrderLimit_single_use_witness :
  ∃ e, verifyOrderLimit Fixtures.endpoint (Fixtures.clockAt 3000)
         (run Fixtures.endpoint
            (verifyOrderLimit Fixtures.endpoint (Fixtures.clockAt 1000) ∅
               Fixtures.limit1).2
            [OpDeleteExpired 2500])
         Fixtures.limit1
       = (Some e,
          run Fixtures.endpoint
            (verifyOrderLimit Fixtures.endpoint (Fixtures.clockAt 1000) ∅
               Fixtures.limit1).2
            [OpDeleteExpired 2500]).
Proof.
  refine (proj2 (proj2 (verifyOrderLimit_single_use Fixtures.endpoint
                          (Fixtures.clockAt 1000) (Fixtures.clockAt 3000) ∅ _
                          Fixtures.limit1 Fixtures.limit1 [OpDeleteExpired 2500] _ _))
            _ _ _ _ _).
  - reflexivity.
  - reflexivity.
  - simpl. lia.
  - simpl. lia.
  - repeat constructor. simpl. lia.
  - simpl. lia.
  - unfold MaxInt64. simpl. lia.
Defined.

(** C8: [VerifyOrder] answers with a protocol error when the serial of the
    order differs from the serial of the limit, when the amount is below the
    largest amount accepted so far, or when the amount is above the limit;
    an order with the limit's serial, an amount between the previous amount
    and the limit, and a valid uplink signature is accepted. *)
Theorem VerifyOrder_checks ep limit order largestOrderAmount :
  (o_SerialNumber order ≠ ol_SerialNumber limit
   ∨ o_Amount order < largestOrderAmount
   ∨ o_Amount order > ol_Limit limit →
   ∃ msg, VerifyOrder ep limit order largestOrderAmount = Some (New ClsProtocol msg))
  ∧ (o_SerialNumber order = ol_SerialNumber limit →
     largestOrderAmount ≤ o_Amount order ≤ ol_Limit limit →
     signing_VerifyUplinkOrderSignature ep (ol_UplinkPublicKey limit) order = None →
     VerifyOrder ep limit order largestOrderAmount = None).
Proof.
  unfold VerifyOrder. split.
  - intros H. repeat (case_bool_decide; [eauto|]). exfalso. lia.
  - intros Hs Ha Hsig. repeat (case_bool_decide; [done || lia|]). by rewrite Hsig.
Qed.

Lemma VerifyOrder_checks_witness :
  (∃ msg, VerifyOrder Fixtures.endpoint Fixtures.limit1 (Fixtures.order 42%N 100) 200
          = Some (New ClsProtocol msg))
  ∧ VerifyOrder Fixtures.endpoint Fixtures.limit1 (Fixtures.order 42%N 300) 200 = None.
Proof.
  split.
  - apply (proj1 (VerifyOrder_checks Fixtures.endpoint Fixtures.limit1
                    (Fixtures.order 42%N 100) 200)).
    right. left. simpl. lia.
  - apply (proj2 (VerifyOrder_checks Fixtures.endpoint Fixtures.limit1
                    (Fixtures.order 42%N 300) 200)).
    + reflexivity.
    + simpl. lia.
    + reflexivity.
Defined.

(** *** Acceptance and rejection of an order limit *)

(** X1: [verifyOrderLimit] accepts an order limit exactly when the limit is
    not negative, is addressed to this storage node, neither the piece nor the
    order has expired, the order was created within the grace period, the
    satellite ID, the uplink key, the satellite signature and the piece ID are
    present, the satellite is trusted, its signature verifies, and the
    used-serials store takes the serial; the serial is then stored with the
    earlier of the order expiration and the end of the grace period. *)
Theorem verifyOrderLimit_accepts ep clk (st st' : gmap N (NodeID * Time)) limit :
  verifyOrderLimit ep clk st limit = (None, st') ↔
  0 ≤ ol_Limit limit
  ∧ signerID ep = ol_StorageNodeId limit
  ∧ IsExpired ep (nowPieceExpired clk) (ol_PieceExpiration limit) = false
  ∧ IsExpired ep (nowOrderExpired clk) (ol_OrderExpiration limit) = false
  ∧ Sub (now clk) (ol_OrderCreation limit) ≤ OrderLimitGracePeriod (config ep)
  ∧ ol_SatelliteId limit ≠ 0%N
  ∧ ol_UplinkPublicKey limit ≠ 0%N
  ∧ ol_SatelliteSignature limit ≠ []
  ∧ ol_PieceId limit ≠ 0%N
  ∧ trust_VerifySatelliteID ep (ol_SatelliteId limit) = None
  ∧ VerifyOrderLimitSignature ep limit = None
  ∧ usedSerials_Add st (ol_SatelliteId limit) (ol_SerialNumber limit)
      (Z.min (ol_OrderExpiration limit) (now clk + OrderLimitGracePeriod (config ep)))
    = (None, st').
Proof.
  rewrite <-serialExpiration_min. unfold verifyOrderLimit.
  rewrite <-(GoProps.len_nil_iff (ol_SatelliteSignature limit)).
  repeat (case_bool_decide; [split; [done|intros H'; exfalso; naive_solver lia]|]).
  destruct (IsExpired ep (nowPieceExpired clk) (ol_PieceExpiration limit));
    [split; [done|naive_solver]|].
  destruct (IsExpired ep (nowOrderExpired clk) (ol_OrderExpiration limit));
    [split; [done|naive_solver]|].
  repeat (case_bool_decide; [split; [done|intros H'; exfalso; naive_solver lia]|]).
  destruct (trust_VerifySatelliteID ep (ol_SatelliteId limit));
    [split; [done|naive_solver]|].
  destruct (VerifyOrderLimitSignature ep limit) as [e|].
  { destruct (errs2_IsCanceled ep e); split; try done; naive_solver. }
  destruct (usedSerials_Add st _ _ _) as [[e|] st0].
  - split; [done|]. intros (_ & _ & _ & _ & _ & _ & _ & _ & _ & _ & _ & ?). done.
  - split.
    + intros [= ->]. repeat split; try done; try lia.
    + intros (_ & _ & _ & _ & _ & _ & _ & _ & _ & _ & _ & [= ->]). done.
Qed.

(** X2: every error of [verifyOrderLimit] is a gRPC status with one of the
    codes InvalidArgument, PermissionDenied, Canceled and Unauthenticated, and
    unless the code is Unauthenticated the used-serials store is left as it
    was. *)
Theorem verifyOrderLimit_rejects ep clk (st st' : gmap N (NodeID * Time)) limit err :
  verifyOrderLimit ep clk st limit = (Some err, st') →
  ∃ code msg,
    err = Status code msg
    ∧ code ∈ [InvalidArgument; PermissionDenied; Canceled; Unauthenticated]
    ∧ (code ≠ Unauthenticated → st' = st).
Proof.
  unfold verifyOrderLimit.
  repeat (case_bool_decide;
          [intros [= <- <-]; eexists _, _; split; [done|]; split; [set_solver|done]|]).
  repeat (match goal with
          | |- context [if ?b then _ else _] => destruct b
          | |- context [match ?x with _ => _ end] => destruct x eqn:?
          end;
          try (intros [= <- <-]; eexists _, _; split; [done|];
               split; [set_solver|done])).
  all: try by intros [=].
  all: intros [= <- <-]; eexists _, _; split; [done|]; split; [set_solver|done].
Qed.

Lemma verifyOrderLimit_rejects_witness :
  ∃ code msg,
    Status InvalidArgument "order intended for other storagenode" = Status code msg
    ∧ code ∈ [InvalidArgument; PermissionDenied; Canceled; Unauthenticated]
    ∧ (code ≠ Unauthenticated → (∅ : gmap N (NodeID * Time)) = ∅).
Proof.
  apply (verifyOrderLimit_rejects
           {| signerID := 8%N; config := config Fixtures.endpoint;
              trust_VerifySatelliteID := λ _, None;
              trust_GetSignee := λ sat, inr sat;
              signing_VerifyOrderLimitSignature := λ _ _, None;
              signing_VerifyUplinkOrderSignature := λ _ _, None;
              errs2_IsCanceled := λ _, false |}
           (Fixtures.clockAt 1000) ∅ ∅ Fixtures.limit1).
  reflexivity.
Defined.

(** X3: an expiration that is the zero time never counts as expired, and an
    expiration that counts as expired at one time does so at every later
    time. *)
Theorem IsExpired_monotone ep (t t' : Time) (expiration : Time) :
  IsExpired ep t 0 = false
  ∧ (t ≤ t' → IsExpired ep t expiration = true → IsExpired ep t' expiration = true).
Proof.
  unfold IsExpired, IsZero, Before, Add. split; [done|].
  intros Ht. repeat case_bool_decide; try done; lia.
Qed.

(** X4: [VerifyPieceHash] accepts exactly when the limit and the hash are
    given, the expected hash is not empty, the hash is for the piece of the
    limit, it equals the expected hash and the uplink signature verifies; a
    bad signature gives an error of the untrusted class and every other
    failure a protocol error. *)
Theorem VerifyPieceHash_checks verify limit hash expectedHash :
  (VerifyPieceHash verify limit hash expectedHash = None ↔
   ∃ l h, limit = Some l ∧ hash = Some h
          ∧ expectedHash ≠ []
          ∧ ol_PieceId l = ph_PieceId h
          ∧ ph_Hash h = expectedHash
          ∧ verify (ol_UplinkPublicKey l) h = None)
  ∧ (∀ err, VerifyPieceHash verify limit hash expectedHash = Some err →
       (∃ msg, err = New ClsProtocol msg)
       ∨ (Has ClsVerifyUntrusted err = true
          ∧ ∃ l h e, limit = Some l ∧ hash = Some h
                     ∧ verify (ol_UplinkPublicKey l) h = Some e)).
Proof.
  unfold VerifyPieceHash.
  assert (∀ (P : Prop) msg,
            ¬ P →
            (Some (New ClsProtocol msg) = None ↔ P)
            ∧ (∀ err, Some (New ClsProtocol msg) = Some err →
                 (∃ msg', err = New ClsProtocol msg')
                 ∨ (Has ClsVerifyUntrusted err = true
                    ∧ ∃ l h e, limit = Some l ∧ hash = Some h
                               ∧ verify (ol_UplinkPublicKey l) h = Some e)))
    as Hprotocol.
  { intros P msg HP. split; [done|]. intros err [= <-]. eauto. }
  destruct limit as [l|], hash as [h|]; try (apply Hprotocol; naive_solver).
  case_bool_decide as Hlen.
  { apply GoProps.len_nil_iff in Hlen. apply Hprotocol. naive_solver. }
  repeat (case_bool_decide; [apply Hprotocol; naive_solver|]).
  destruct (verify (ol_UplinkPublicKey l) h) as [e|] eqn:E.
  - split; [naive_solver|]. intros err [= <-]. right. split; [done|]. eauto 10.
  - split; [|done]. split; [|done]. intros _. exists l, h.
    repeat split; try done; try (by apply dec_stable).
    all: intros ->; by apply Hlen.
Qed.

End PiecestoreProps.


(** ** The audit verifier *)

Module AuditProps.

Import Go pb Audit GoProps.

(** C9, as the code has it: when [minBytesPerSecond] is positive, [GetShare]
    puts on its context the timeout [max(shareSize / minBytesPerSecond,
    minDownloadTimeout)], the quotient being taken in nanoseconds and
    truncated; when [minBytesPerSecond] is not positive it adds no deadline. *)
Theorem GetShare_timeout_spec env shareSize :
  MinInt32 ≤ shareSize ≤ MaxInt32 →
  (minBytesPerSecond env > 0 →
   GetShare_timeout env shareSize
   = Some (Z.max (Z.quot (Second * shareSize) (minBytesPerSecond env))
                 (minDownloadTimeout env)))
  ∧ (minBytesPerSecond env ≤ 0 → GetShare_timeout env shareSize = None).
Proof.
  unfold GetShare_timeout, MinInt32, MaxInt32, Second. intros Hs. split; intros Hm.
  - rewrite bool_decide_true by done.
    rewrite int64_small by (unfold MinInt64, MaxInt64; lia).
    case_bool_decide; f_equal; lia.
  - by rewrite bool_decide_false by lia.
Qed.

Lemma GetShare_timeout_spec_witness :
  GetShare_timeout
    (Fixtures.verifier 128 [] (Fixtures.segment Fixtures.scheme2345 []) Fixtures.noFailure)
    2560
  = Some (Z.max (Z.quot (Second * 2560) 128) (5 * Second)).
Proof.
  apply (proj1 (GetShare_timeout_spec
                  (Fixtures.verifier 128 [] (Fixtures.segment Fixtures.scheme2345 [])
                     Fixtures.noFailure) 2560 ltac:(unfold MinInt32, MaxInt32; lia))).
  simpl. lia.
Defined.

(** C9 does not hold as stated: with [minBytesPerSecond = 0] a share is
    downloaded with no deadline of its own. *)
Lemma GetShare_no_deadline :
  ¬ ∃ d, GetShare_timeout
           (Fixtures.verifier 0 [] (Fixtures.segment Fixtures.scheme2345 [])
              Fixtures.noFailure) 2560 = Some d.
Proof. intros [d H]. vm_compute in H. discriminate. Qed.

(** *** [DownloadShares] *)

Lemma receive_all ch : ∀ n shares,
  length ch = n → receive n ch shares = Returns (foldl store shares ch).
Proof.
  induction ch as [|[share|] ch IH]; intros [|n] shares Hlen; simplify_eq/=; auto.
Qed.

(** When fewer messages arrive than there are limits, the loop waits. *)
Lemma receive_short ch : ∀ n shares,
  (length ch < n)%nat → receive n ch shares = Blocks.
Proof.
  induction ch as [|[share|] ch IH]; intros [|n] shares Hlen; simpl in *;
    try lia; auto with lia.
Qed.

Lemma foldl_store ch : ∀ shares : gmap Z Share,
  foldl store shares ch = list_to_map (reverse (omap keyed ch)) ∪ shares.
Proof.
  induction ch as [|[share|] ch IH]; intros shares; simpl.
  - by rewrite (left_id_L ∅ (∪)).
  - rewrite IH, reverse_cons, list_to_map_app. simpl.
    rewrite <-(assoc_L (∪)). f_equal.
    by rewrite <-insert_union_l, (left_id_L ∅ (∪)).
  - apply IH.
Qed.

Lemma downloadOne_PieceNum env key stripeIndex shareSize i limit :
  sh_PieceNum (downloadOne env key stripeIndex shareSize i limit) = i.
Proof.
  unfold downloadOne.
  destruct (GetShare env limit key stripeIndex shareSize i) as [sh [e|]] eqn:E;
    [done|].
  unfold GetShare in E. repeat case_match; simplify_eq/=; try done.
  all: destruct (downloader_Close env limit); simplify_eq/=.
Qed.

Lemma downloadOne_NodeID env key stripeIndex shareSize i limit :
  sh_NodeID (downloadOne env key stripeIndex shareSize i limit) = StorageNodeId limit.
Proof.
  unfold downloadOne.
  destruct (GetShare env limit key stripeIndex shareSize i) as [sh [e|]] eqn:E;
    [done|].
  unfold GetShare in E. repeat case_match; simplify_eq/=; try done.
  all: destruct (downloader_Close env limit); simplify_eq/=.
Qed.

(** The keys of what a list of limits sends are the positions of its non-nil
    limits: they differ from each other. *)
Lemma keys_imap (f : nat → AddressedOrderLimit → Share)
    (limits : list (option AddressedOrderLimit)) : ∀ (n : nat),
  (∀ i limit, sh_PieceNum (f i limit) = Z.of_nat (n + i)) →
  NoDup (omap keyed (imap (λ i (limit : option AddressedOrderLimit), f i <$> limit)
                          limits)).*1
  ∧ ∀ k, k ∈ (omap keyed (imap (λ i (limit : option AddressedOrderLimit), f i <$> limit)
                               limits)).*1 → Z.of_nat n ≤ k.
Proof.
  revert f. induction limits as [|limit limits IH]; intros f n Hf.
  { split; [constructor|]. intros k Hk. by apply elem_of_nil in Hk. }
  rewrite imap_cons.
  destruct (IH (f ∘ S) (S n)) as [Hnd Hge].
  { intros i l. simpl. rewrite Hf. lia. }
  assert (imap ((λ i (l : option AddressedOrderLimit), f i <$> l) ∘ S) limits
          = imap (λ i (l : option AddressedOrderLimit), (f ∘ S) i <$> l) limits)
    as -> by done.
  destruct limit as [limit|]; csimpl.
  - split.
    + constructor; [|done]. intros Hin. apply Hge in Hin. rewrite Hf in Hin. lia.
    + intros k [->|Hin]%elem_of_cons; [rewrite Hf; lia|]. apply Hge in Hin. lia.
  - split; [done|]. intros k Hin. apply Hge in Hin. lia.
Qed.

Lemma sent_NoDup env key stripeIndex shareSize limits :
  NoDup (omap keyed (sent env key stripeIndex shareSize limits)).*1.
Proof.
  unfold sent.
  apply (keys_imap (λ i, downloadOne env key stripeIndex shareSize (Z.of_nat i)) limits 0).
  intros i limit. by rewrite downloadOne_PieceNum.
Qed.

Lemma elem_of_sent env key stripeIndex shareSize limits k share :
  (k, share) ∈ omap keyed (sent env key stripeIndex shareSize limits)
  ↔ ∃ (i : nat) limit, limits !! i = Some (Some limit) ∧ k = Z.of_nat i
      ∧ share = downloadOne env key stripeIndex shareSize (Z.of_nat i) limit.
Proof.
  rewrite list_elem_of_omap. unfold sent. split.
  - intros (msg & Hin & Hk). apply elem_of_lookup_imap in Hin as (i & l & -> & Hl).
    destruct l as [limit|]; simplify_eq/=.
    exists i, limit. by rewrite downloadOne_PieceNum.
  - intros (i & limit & Hl & -> & ->).
    exists (Some (downloadOne env key stripeIndex shareSize (Z.of_nat i) limit)). split.
    + apply elem_of_lookup_imap. exists i, (Some limit). done.
    + simpl. by rewrite downloadOne_PieceNum.
Qed.

(** Whatever the order of arrival, [DownloadShares] returns the map that
    holds, at each position of a non-nil limit, the share downloaded for it. *)
Lemma DownloadShares_returns env limits key stripeIndex shareSize :
  arrival env (sent env key stripeIndex shareSize limits)
    ≡ₚ sent env key stripeIndex shareSize limits →
  DownloadShares env limits key stripeIndex shareSize
  = Returns (list_to_map (omap keyed (sent env key stripeIndex shareSize limits)), None).
Proof.
  intros Hperm. unfold DownloadShares.
  rewrite receive_all.
  2:{ rewrite Hperm. unfold sent. by rewrite length_imap. }
  rewrite foldl_store, (right_id_L ∅ (∪)). do 2 f_equal.
  symmetry. apply list_to_map_proper; [apply sent_NoDup|].
  by rewrite reverse_Permutation, Hperm.
Qed.

(** C10: [DownloadShares] returns, with a nil error, the map that has exactly
    one share for each non-nil order limit, under the index of that limit,
    and nothing for the nil limits; the share of a failed download carries
    the failure as its [Error], the index and the node of the limit, and nil
    [Data]. *)
Theorem DownloadShares_map env limits key stripeIndex shareSize :
  arrival env (sent env key stripeIndex shareSize limits)
    ≡ₚ sent env key stripeIndex shareSize limits →
  ∃ shares : gmap Z Share,
    DownloadShares env limits key stripeIndex shareSize = Returns (shares, None)
    ∧ (∀ k share, shares !! k = Some share ↔
         ∃ (i : nat) limit, limits !! i = Some (Some limit) ∧ k = Z.of_nat i
           ∧ share = downloadOne env key stripeIndex shareSize (Z.of_nat i) limit)
    ∧ (∀ (i : nat) limit, limits !! i = Some (Some limit) →
         sh_PieceNum (downloadOne env key stripeIndex shareSize (Z.of_nat i) limit)
         = Z.of_nat i)
    ∧ (∀ (i : nat) limit err,
         (GetShare env limit key stripeIndex shareSize (Z.of_nat i)).2 = Some err →
         downloadOne env key stripeIndex shareSize (Z.of_nat i) limit
         = {| sh_Error := Some err; sh_PieceNum := Z.of_nat i;
              sh_NodeID := StorageNodeId limit; sh_Data := None |}).
Proof.
  intros Hperm. eexists. split; [by apply DownloadShares_returns|]. split; [|split].
  - intros k share. rewrite <-elem_of_list_to_map by apply sent_NoDup.
    apply elem_of_sent.
  - intros. apply downloadOne_PieceNum.
  - intros i limit err Herr. unfold downloadOne.
    destruct (GetShare env limit key stripeIndex shareSize (Z.of_nat i)) as [sh e].
    simpl in Herr. by subst.
Qed.

Lemma DownloadShares_map_witness :
  ∃ shares : gmap Z Share,
    DownloadShares
      (Fixtures.verifier 128 Fixtures.threeLimits
         (Fixtures.segment Fixtures.scheme2345 Fixtures.threePieces)
         (Fixtures.failingAt 11%N Fixtures.dialFailed))
      Fixtures.threeLimits 1%N 0 4 = Returns (shares, None)
    ∧ shares !! 1 = Some (Fixtures.failedShare 1 11%N Fixtures.dialFailed)
    ∧ shares !! 3 = None.
Proof.
  destruct (DownloadShares_map
              (Fixtures.verifier 128 Fixtures.threeLimits
                 (Fixtures.segment Fixtures.scheme2345 Fixtures.threePieces)
                 (Fixtures.failingAt 11%N Fixtures.dialFailed))
              Fixtures.threeLimits 1%N 0 4 (reverse_Permutation _))
    as (shares & Hret & Hlook & _ & _).
  exists shares. split; [exact Hret|]. split.
  - apply Hlook. exists 1%nat, {| StorageNodeId := 11%N; StorageNodeAddress := "" |}.
    repeat split.
  - destruct (shares !! 3) as [share|] eqn:E; [|reflexivity].
    apply Hlook in E as (i & limit & Hl & Hk & _).
    assert (i = 3%nat) as -> by lia. discriminate Hl.
Defined.

(** *** The classification of the shares in [Verify] *)

(** What one turn of the loop does to the four collections, case by case. *)
Lemma sortShare_cases env st pieceNum share :
  (sh_Error share = None →
   sortShare env st (pieceNum, share) = addToAudit st pieceNum share)
  ∧ (∀ err, sh_Error share = Some err → transport_Error_Has env err = true →
       errs_Is_DeadlineExceeded env err = true ∨ errs2_IsRPC env err Unknown = true →
       sortShare env st (pieceNum, share) = addOffline st (sh_NodeID share))
  ∧ (∀ err, sh_Error share = Some err → transport_Error_Has env err = true →
       errs_Is_DeadlineExceeded env err = false → errs2_IsRPC env err Unknown = false →
       containedNodes (sortShare env st (pieceNum, share)) !! pieceNum
       = Some (sh_NodeID share)
       ∧ offlineNodes (sortShare env st (pieceNum, share)) = offlineNodes st
       ∧ sharesToAudit (sortShare env st (pieceNum, share)) = sharesToAudit st)
  ∧ (∀ err, sh_Error share = Some err → transport_Error_Has env err = false →
       errs2_IsRPC env err NotFound = true →
       sortShare env st (pieceNum, share) = addFailed st (sh_NodeID share))
  ∧ (∀ err, sh_Error share = Some err → transport_Error_Has env err = false →
       errs2_IsRPC env err NotFound = false →
       errs2_IsRPC env err DeadlineExceeded = true →
       sortShare env st (pieceNum, share) = addContained st pieceNum (sh_NodeID share))
  ∧ (∀ err, sh_Error share = Some err → transport_Error_Has env err = false →
       errs2_IsRPC env err NotFound = false →
       errs2_IsRPC env err DeadlineExceeded = false →
       sortShare env st (pieceNum, share) = addContained st pieceNum (sh_NodeID share)).
Proof.
  unfold sortShare, sortByRPC. split; [by intros ->|].
  split; [intros err -> -> [->| ->]; [done|];
          by destruct (errs_Is_DeadlineExceeded env err)|].
  split.
  { intros err -> -> -> ->.
    destruct (errs2_IsRPC env err NotFound), (errs2_IsRPC env err DeadlineExceeded);
      simpl; by rewrite lookup_insert_eq. }
  split; [by intros err -> -> ->|].
  split; by intros err -> -> -> ->.
Qed.

(** *** Too few shares *)

Lemma foldl_insert_if {A} (P : Z * A → bool) l : ∀ m : gmap Z A,
  foldl (λ m e, if P e then <[e.1 := e.2]> m else m) m l
  = list_to_map (reverse (filter (λ e, P e = true) l)) ∪ m.
Proof.
  induction l as [|e l IH]; intros m; simpl.
  - by rewrite (left_id_L ∅ (∪)).
  - rewrite IH. destruct (P e) eqn:HP.
    + rewrite filter_cons_True by done.
      rewrite reverse_cons, list_to_map_app. simpl.
      rewrite <-(assoc_L (∪)). f_equal.
      by rewrite <-insert_union_l, (left_id_L ∅ (∪)).
    + rewrite filter_cons_False; [done|]. by rewrite HP.
Qed.

Lemma sharesToAudit_foldl env l : ∀ st,
  sharesToAudit (foldl (sortShare env) st l)
  = foldl (λ m e, if downloaded e then <[e.1 := e.2]> m else m) (sharesToAudit st) l.
Proof.
  induction l as [|[pieceNum share] l IH]; intros st; [done|].
  simpl. rewrite IH. f_equal.
  unfold downloaded, sortShare, sortByRPC. simpl.
  destruct (sh_Error share); [|done].
  repeat (case_match; try done).
Qed.

Lemma offlineNodes_foldl env l : ∀ st,
  offlineNodes st `prefix_of` offlineNodes (foldl (sortShare env) st l).
Proof.
  induction l as [|[pieceNum share] l IH]; intros st; [done|].
  simpl. etrans; [|apply IH].
  unfold sortShare, sortByRPC.
  repeat (case_match; simpl; try done; try by apply prefix_app_r).
Qed.

(** The shares to audit are as many as the shares downloaded without error. *)
Lemma sharesToAudit_size env (shares : gmap Z Share) st :
  rangeMap env Share shares ≡ₚ map_to_list shares →
  sharesToAudit st = ∅ →
  Z.of_nat (size (sharesToAudit (foldl (sortShare env) st (rangeMap env Share shares))))
  = downloadedCount shares.
Proof.
  intros Hperm Hst. rewrite sharesToAudit_foldl, Hst, foldl_insert_if.
  rewrite (right_id_L ∅ (∪)). unfold downloadedCount, len. f_equal.
  rewrite map_size_list_to_map.
  - by rewrite length_reverse, Hperm.
  - rewrite fmap_reverse, reverse_Permutation.
    eapply sublist_NoDup; [|apply fmap_sublist, sublist_filter].
    rewrite Hperm. apply NoDup_fst_map_to_list.
Qed.

Lemma keyed_all_nil (limits : list (option AddressedOrderLimit)) :
  ∀ f : nat → AddressedOrderLimit → Share,
  Forall (λ limit, limit = None) limits →
  omap keyed (imap (λ i (limit : option AddressedOrderLimit), f i <$> limit) limits) = [].
Proof.
  induction limits as [|limit limits IH]; intros f Hnil; [done|].
  apply Forall_cons in Hnil as [-> Hnil].
  rewrite imap_cons. csimpl. by apply (IH (f ∘ S)).
Qed.

(** When every limit is nil, nothing is sent but nils, and [DownloadShares]
    returns the empty map. *)
Lemma DownloadShares_all_nil env limits key stripeIndex shareSize :
  Forall (λ limit, limit = None) limits →
  arrival env (sent env key stripeIndex shareSize limits)
    ≡ₚ sent env key stripeIndex shareSize limits →
  DownloadShares env limits key stripeIndex shareSize = Returns (∅, None).
Proof.
  intros Hnil Hperm. rewrite DownloadShares_returns by done.
  unfold sent. by rewrite keyed_all_nil.
Qed.

(** The way a share takes through the loop of [Verify], by its verdict. *)
Lemma sortShare_verdict env st pieceNum share :
  sortShare env st (pieceNum, share)
  = match verdict env share with
    | ToAudit => addToAudit st pieceNum share
    | Offline => addOffline st (sh_NodeID share)
    | Failed => addFailed st (sh_NodeID share)
    | Contained => addContained st pieceNum (sh_NodeID share)
    | ContainedAndFailed =>
        addFailed (addContained st pieceNum (sh_NodeID share)) (sh_NodeID share)
    end.
Proof.
  unfold sortShare, sortByRPC, verdict.
  destruct (sh_Error share) as [err|]; [|done].
  destruct (transport_Error_Has env err), (errs_Is_DeadlineExceeded env err),
    (errs2_IsRPC env err Unknown), (errs2_IsRPC env err NotFound),
    (errs2_IsRPC env err DeadlineExceeded); try reflexivity.
  all: unfold addContained; simpl; by rewrite insert_insert_eq.
Qed.

Lemma offlineNodes_sorted env l : ∀ st,
  offlineNodes (foldl (sortShare env) st l)
  = offlineNodes st
    ++ ((λ e : Z * Share, sh_NodeID e.2)
          <$> filter (λ e : Z * Share, verdict env e.2 = Offline) l).
Proof.
  induction l as [|[k share] l IH]; intros st.
  - by rewrite filter_nil, app_nil_r.
  - change (foldl (sortShare env) st ((k, share) :: l))
      with (foldl (sortShare env) (sortShare env st (k, share)) l).
    rewrite IH, sortShare_verdict, filter_cons. simpl.
    destruct (verdict env share) eqn:Hv; simpl; try case_decide; try done.
    all: by rewrite <-(assoc_L (++)).
Qed.

Lemma failedNodes_sorted env l : ∀ st,
  failedNodes (foldl (sortShare env) st l)
  = failedNodes st
    ++ ((λ e : Z * Share, sh_NodeID e.2)
          <$> filter (λ e : Z * Share, isFailed (verdict env e.2) = true) l).
Proof.
  induction l as [|[k share] l IH]; intros st.
  - by rewrite filter_nil, app_nil_r.
  - change (foldl (sortShare env) st ((k, share) :: l))
      with (foldl (sortShare env) (sortShare env st (k, share)) l).
    rewrite IH, sortShare_verdict, filter_cons. simpl.
    destruct (verdict env share) eqn:Hv; simpl; try case_decide; try done.
    all: by rewrite <-(assoc_L (++)).
Qed.

Lemma verdict_Offline env share :
  verdict env share = Offline ↔
  ∃ e, sh_Error share = Some e
       ∧ transport_Error_Has env e = true
       ∧ (errs_Is_DeadlineExceeded env e = true ∨ errs2_IsRPC env e Unknown = true).
Proof.
  unfold verdict.
  destruct (sh_Error share) as [e|]; [|split; [done|by intros (? & ? & _)]].
  split.
  - intros Hv. exists e. split; [done|].
    destruct (transport_Error_Has env e), (errs_Is_DeadlineExceeded env e),
      (errs2_IsRPC env e Unknown), (errs2_IsRPC env e NotFound); auto; done.
  - intros (e' & [= <-] & -> & [-> | HU]); [done|].
    rewrite HU. by destruct (errs_Is_DeadlineExceeded env e).
Qed.

(** Up to the test on the number of shares, [Verify] goes as follows. *)
Lemma Verify_too_few env stripe skip limits key current remote (shares : gmap Z Share) :
  rangeMap env Share shares ≡ₚ map_to_list shares →
  orders_CreateAuditOrderLimits env (createBucketID env (SegmentPath stripe))
    (Segment stripe) skip = inr (limits, key) →
  DownloadShares env limits key (Index stripe)
    (GetErasureShareSize (GetRedundancy (GetRemote (Segment stripe))))
  = Returns (shares, None) →
  checkIfSegmentDeleted env (SegmentPath stripe) (Some (Segment stripe)) = inr current →
  Remote (Segment stripe) = Some remote →
  downloadedCount shares < MinReq (Redundancy remote) →
  ∃ msg,
    Verify env stripe skip
    = Returns (Some {| Successes := [];
                       Fails :=
                         (λ e : Z * Share, sh_NodeID e.2)
                           <$> filter (λ e : Z * Share, isFailed (verdict env e.2) = true)
                                 (rangeMap env Share shares);
                       Offlines :=
                         getOfflineNodes (Segment stripe) limits skip
                         ++ ((λ e : Z * Share, sh_NodeID e.2)
                               <$> filter (λ e : Z * Share, verdict env e.2 = Offline)
                                     (rangeMap env Share shares));
                       PendingAudits := [] |},
               Some (New ClsNotEnoughShares msg), []).
Proof.
  intros Hrange Hlim Hdl Hdel Hrem Hcount. unfold Verify.
  rewrite Hlim, Hdl, Hdel, Hrem. rewrite sharesToAudit_size by done.
  rewrite bool_decide_true by done.
  rewrite offlineNodes_sorted, failedNodes_sorted. simpl. eauto.
Qed.

(** C6: when fewer shares than [MinReq] are downloaded without error,
    [Verify] ends with a not-enough-shares error and a report that holds the
    offline nodes and the failed nodes and nothing else. The offline nodes are
    the nodes that got no order limit, followed by the nodes of the shares
    whose download ended with a transport error that is a dial timeout or has
    the RPC code Unknown, one entry for each such share. When every order
    limit is nil, [Verify] does not wait for shares that never come and ends
    with that error as well, the nodes without order limit being reported as
    offline. *)
Theorem Verify_not_enough_shares env stripe skip limits key current remote :
  (∀ shares : gmap Z Share, rangeMap env Share shares ≡ₚ map_to_list shares) →
  arrival env (sent env key (Index stripe)
                 (GetErasureShareSize (GetRedundancy (GetRemote (Segment stripe))))
                 limits)
    ≡ₚ sent env key (Index stripe)
         (GetErasureShareSize (GetRedundancy (GetRemote (Segment stripe)))) limits →
  orders_CreateAuditOrderLimits env (createBucketID env (SegmentPath stripe))
    (Segment stripe) skip = inr (limits, key) →
  checkIfSegmentDeleted env (SegmentPath stripe) (Some (Segment stripe)) = inr current →
  Remote (Segment stripe) = Some remote →
  (∀ shares : gmap Z Share,
     DownloadShares env limits key (Index stripe)
       (GetErasureShareSize (GetRedundancy (GetRemote (Segment stripe))))
     = Returns (shares, None) →
     downloadedCount shares < MinReq (Redundancy remote) →
     ∃ msg fails later,
       Verify env stripe skip
       = Returns (Some {| Successes := []; Fails := fails;
                          Offlines :=
                            getOfflineNodes (Segment stripe) limits skip ++ later;
                          PendingAudits := [] |},
                  Some (New ClsNotEnoughShares msg), [])
       ∧ later = ((λ e : Z * Share, sh_NodeID e.2)
                    <$> filter (λ e : Z * Share, verdict env e.2 = Offline)
                          (rangeMap env Share shares))
       ∧ fails = ((λ e : Z * Share, sh_NodeID e.2)
                    <$> filter (λ e : Z * Share, isFailed (verdict env e.2) = true)
                          (rangeMap env Share shares))
       ∧ ∀ n, n ∈ later ↔
           ∃ pieceNum share e,
             shares !! pieceNum = Some share
             ∧ sh_NodeID share = n
             ∧ sh_Error share = Some e
             ∧ transport_Error_Has env e = true
             ∧ (errs_Is_DeadlineExceeded env e = true
                ∨ errs2_IsRPC env e Unknown = true))
  ∧ (Forall (λ limit, limit = None) limits →
     1 ≤ MinReq (Redundancy remote) →
     ∃ msg,
       Verify env stripe skip
       = Returns (Some {| Successes := []; Fails := [];
                          Offlines := getOfflineNodes (Segment stripe) limits skip;
                          PendingAudits := [] |},
                  Some (New ClsNotEnoughShares msg), [])).
Proof.
  intros Hrange Harr Hlim Hdel Hrem. split.
  - intros shares Hdl Hcount.
    destruct (Verify_too_few env stripe skip limits key current remote shares)
      as [msg HV]; try done.
    eexists msg, _, _. split; [exact HV|]. split; [done|]. split; [done|].
    intros n. rewrite list_elem_of_fmap. split.
    + intros ([pieceNum share] & -> & [Hv Hin]%list_elem_of_filter). simpl in *.
      apply verdict_Offline in Hv as (e & He & Ht & Ho).
      exists pieceNum, share, e. repeat split; try done.
      apply elem_of_map_to_list. by rewrite <-(Hrange shares).
    + intros (pieceNum & share & e & Hl & <- & He & Ht & Ho).
      exists (pieceNum, share). split; [done|]. apply list_elem_of_filter. split.
      * simpl. apply verdict_Offline. eauto.
      * rewrite (Hrange shares). by apply elem_of_map_to_list.
  - intros Hnil Hk.
    pose proof (DownloadShares_all_nil _ _ _ _ _ Hnil Harr) as Hdl.
    unfold Verify. rewrite Hlim, Hdl, Hdel, Hrem.
    assert (rangeMap env Share ∅ = []) as ->.
    { apply Permutation_nil_r. by rewrite Hrange, map_to_list_empty. }
    simpl. rewrite bool_decide_true by (rewrite map_size_empty; simpl; lia).
    eauto.
Qed.

Lemma Verify_not_enough_shares_witness :
  ∃ msg,
    Verify
      (Fixtures.verifier 128
         [Fixtures.limitFor 10%N; Fixtures.limitFor 11%N; None; None; None]
         (Fixtures.segment Fixtures.scheme2345 Fixtures.threePieces)
         (Fixtures.failingAt 11%N Fixtures.dialFailed))
      (Fixtures.stripeOf Fixtures.threePieces) ∅
    = Returns (Some {| Successes := []; Fails := [];
                       Offlines := [12%N; 11%N]; PendingAudits := [] |},
               Some (New ClsNotEnoughShares msg), []).
Proof.
  unshelve epose proof
    (proj1 (Verify_not_enough_shares
              (Fixtures.verifier 128
                 [Fixtures.limitFor 10%N; Fixtures.limitFor 11%N; None; None; None]
                 (Fixtures.segment Fixtures.scheme2345 Fixtures.threePieces)
                 (Fixtures.failingAt 11%N Fixtures.dialFailed))
              (Fixtures.stripeOf Fixtures.threePieces) ∅
              [Fixtures.limitFor 10%N; Fixtures.limitFor 11%N; None; None; None] 1%N
              (Fixtures.segment Fixtures.scheme2345 Fixtures.threePieces)
              {| Redundancy := Fixtures.scheme2345; RootPieceId := 99%N;
                 RemotePieces := Some Fixtures.threePieces |}
              _ _ _ _ _)
           (list_to_map [(0, Fixtures.okShare 0 10%N);
                         (1, Fixtures.failedShare 1 11%N Fixtures.dialFailed)]) _ _)
    as (msg & fails & later & HV & -> & -> & _).
  - intros shares. reflexivity.
  - apply reverse_Permutation.
  - reflexivity.
  - reflexivity.
  - reflexivity.
  - vm_compute. reflexivity.
  - vm_compute. reflexivity.
  - exists msg. exact HV.
Defined.

(** *** The reported sets *)


(** *** The reported sets without the fall-through

    What [Verify] reports when no share takes the way through both the
    contained and the failed branch of the loop. *)

Lemma containedNodes_sorted env l : ∀ st,
  containedNodes (foldl (sortShare env) st l)
  = foldl (λ m (e : Z * Share),
             if isContained (verdict env e.2) then <[e.1 := sh_NodeID e.2]> m else m)
          (containedNodes st) l.
Proof.
  induction l as [|[k share] l IH]; intros st; [done|].
  change (foldl (sortShare env) st ((k, share) :: l))
    with (foldl (sortShare env) (sortShare env st (k, share)) l).
  rewrite IH, sortShare_verdict. simpl.
  by destruct (verdict env share).
Qed.

(** A loop that inserts some of the entries of a list into a map. *)
Lemma foldl_insert_map {A B} (P : Z * A → bool) (g : Z * A → B) l : ∀ m : gmap Z B,
  foldl (λ m e, if P e then <[e.1 := g e]> m else m) m l
  = list_to_map (reverse ((λ e, (e.1, g e)) <$> filter (λ e, P e = true) l)) ∪ m.
Proof.
  induction l as [|e l IH]; intros m; simpl.
  - by rewrite (left_id_L ∅ (∪)).
  - rewrite IH, filter_cons. destruct (P e) eqn:HP.
    + rewrite decide_True by done.
      rewrite fmap_cons, reverse_cons, list_to_map_app. simpl.
      rewrite <-(assoc_L (∪)). f_equal.
      by rewrite <-insert_union_l, (left_id_L ∅ (∪)).
    + by rewrite decide_False by done.
Qed.

Lemma foldl_insert_map_lookup {A B} (P : Z * A → bool) (g : Z * A → B) l k b :
  NoDup l.*1 →
  foldl (λ m e, if P e then <[e.1 := g e]> m else m) (∅ : gmap Z B) l !! k = Some b
  ↔ ∃ e, e ∈ l ∧ P e = true ∧ e.1 = k ∧ g e = b.
Proof.
  intros Hnd. rewrite foldl_insert_map, (right_id_L ∅ (∪)).
  rewrite <-elem_of_list_to_map.
  - rewrite elem_of_reverse, list_elem_of_fmap. split.
    + intros (e & [= -> ->] & [HP He]%list_elem_of_filter). eauto.
    + intros (e & He & HP & <- & <-). exists e. split; [done|].
      by apply list_elem_of_filter.
  - rewrite fmap_reverse, reverse_Permutation, <-list_fmap_compose.
    eapply sublist_NoDup; [exact Hnd|].
    apply (fmap_sublist fst), sublist_filter.
Qed.

(** A loop that appends the nodes of some elements of a list. *)
Lemma foldl_append_if {A} (c : A → bool) (f : A → NodeID) l : ∀ acc,
  foldl (λ acc x, if c x then acc ++ [f x] else acc) acc l
  = acc ++ (f <$> filter (λ x, c x = true) l).
Proof.
  induction l as [|x l IH]; intros acc; simpl.
  - rewrite ?filter_nil. simpl. by rewrite app_nil_r.
  - rewrite IH, filter_cons. destruct (c x) eqn:Hc.
    + rewrite decide_True by done. by rewrite <-(assoc_L (++)).
    + by rewrite decide_False by done.
Qed.

(** A map that marks nodes holds the nodes it was given. *)
Lemma marked_lookup (l : list NodeID) : ∀ (m : gmap N bool) n,
  lookupBool (foldl (λ (m : gmap N bool) n, <[n := true]> m) m l) n = true
  ↔ lookupBool m n = true ∨ n ∈ l.
Proof.
  induction l as [|x l IH]; intros m n; simpl.
  - set_solver.
  - rewrite IH. unfold lookupBool. rewrite lookup_insert.
    case_decide; simpl; set_solver.
Qed.

Lemma nodesWithLimit_lookup (limits : list (option AddressedOrderLimit)) :
  ∀ (m : gmap N bool) n,
  lookupBool
    (foldl (λ (m : gmap N bool) (limit : option AddressedOrderLimit),
              match limit with
              | Some l => <[StorageNodeId l := true]> m
              | None => m
              end) m limits) n = true
  ↔ lookupBool m n = true ∨ ∃ l, Some l ∈ limits ∧ StorageNodeId l = n.
Proof.
  induction limits as [|[l|] limits IH]; intros m n; simpl.
  - set_solver.
  - rewrite IH. unfold lookupBool. rewrite lookup_insert.
    case_decide; simpl; set_unfold; naive_solver.
  - rewrite IH. set_unfold; naive_solver.
Qed.

(** The nodes [getOfflineNodes] returns: the nodes of the pieces that have no
    order limit and are not skipped. *)
Lemma getOfflineNodes_elem pointer limits skip n :
  n ∈ getOfflineNodes pointer limits skip ↔
  (∃ piece, piece ∈ elems (GetRemotePieces (GetRemote pointer)) ∧ NodeId piece = n)
  ∧ (¬ ∃ l, Some l ∈ limits ∧ StorageNodeId l = n)
  ∧ lookupBool skip n = false.
Proof.
  unfold getOfflineNodes.
  rewrite (foldl_append_if
             (λ piece, negb (lookupBool _ (NodeId piece))
                       && negb (lookupBool skip (NodeId piece))) NodeId).
  rewrite app_nil_l, list_elem_of_fmap. setoid_rewrite list_elem_of_filter.
  setoid_rewrite andb_true_iff. setoid_rewrite negb_true_iff.
  split.
  - intros (piece & -> & [Hl Hs] & Hin). split; [eauto|]. split; [|done].
    intros Hex. apply eq_true_false_abs in Hl; [done|].
    apply nodesWithLimit_lookup. by right.
  - intros ((piece & Hin & <-) & Hl & Hs). exists piece. split; [done|].
    split; [|done]. split; [|done].
    apply not_true_is_false. intros [Hm|Hex]%nodesWithLimit_lookup; [|done].
    unfold lookupBool in Hm. by rewrite lookup_empty in Hm.
Qed.

(** The nodes [getSuccessNodes] returns: the nodes of the shares that are in
    none of the three other collections. *)
Lemma getSuccessNodes_elem env shares failed offline contained n :
  n ∈ getSuccessNodes env shares failed offline contained ↔
  (∃ e, e ∈ rangeMap env Share shares ∧ sh_NodeID e.2 = n)
  ∧ (n ∉ failed) ∧ (n ∉ offline) ∧ (n ∉ (rangeMap env NodeID contained).*2).
Proof.
  unfold getSuccessNodes.
  rewrite (foldl_append_if (λ e : Z * Share, negb (lookupBool _ (sh_NodeID e.2)))
                           (λ e : Z * Share, sh_NodeID e.2)).
  rewrite app_nil_l, list_elem_of_fmap. setoid_rewrite list_elem_of_filter.
  setoid_rewrite negb_true_iff.
  assert (∀ m, lookupBool
                 (foldl (λ (m : gmap N bool) n, <[n := true]> m)
                    (foldl (λ (m : gmap N bool) n, <[n := true]> m)
                       (foldl (λ (m : gmap N bool) n, <[n := true]> m) ∅ failed)
                       offline)
                    (rangeMap env NodeID contained).*2) m = false
               ↔ (m ∉ failed) ∧ (m ∉ offline)
                 ∧ (m ∉ (rangeMap env NodeID contained).*2))
    as Hmark.
  { intros m. rewrite <-not_true_iff_false, !marked_lookup.
    unfold lookupBool at 1. rewrite lookup_empty. simpl. set_solver. }
  split.
  - intros (e & -> & Hm & Hin). apply Hmark in Hm. split; [eauto|done].
  - intros ((e & Hin & <-) & Hm). exists e. split; [done|]. split; [|done].
    by apply Hmark.
Qed.

(** The pending audits are made for the contained nodes, one for each. *)
Lemma pendingLoop_nodes env required total stripeData shareSize stripe contained :
  ∀ pending result,
  pendingLoop env required total stripeData shareSize stripe contained pending
  = inr result →
  pa_NodeID <$> result = (pa_NodeID <$> pending) ++ contained.*2.
Proof.
  induction contained as [|[pieceNum nodeID] rest IH]; intros pending result; simpl.
  - intros [= <-]. by rewrite app_nil_r.
  - destruct (fec_EncodeSingle env required total stripeData shareSize pieceNum);
      [done|].
    intros ->%IH. rewrite fmap_app. simpl. by rewrite <-(assoc_L (++)).
Qed.

Lemma createPendingAudits_nodes env contained correctedShares stripe pending :
  rangeMap env NodeID contained ≡ₚ map_to_list contained →
  createPendingAudits env contained correctedShares stripe = inr pending →
  pa_NodeID <$> pending = (rangeMap env NodeID contained).*2.
Proof.
  intros Hperm. unfold createPendingAudits. case_bool_decide as Hsize.
  - intros [= <-].
    assert (contained = ∅) as -> by (apply map_size_empty_inv; lia).
    rewrite map_to_list_empty in Hperm. by apply Permutation_nil_r in Hperm as ->.
  - repeat case_match; try done. by intros ->%pendingLoop_nodes.
Qed.

(** The piece numbers [auditShares] returns are numbers of the shares it
    was given, when the erasure correction gives back the shares it got. *)
Lemma auditShares_nums env required total originals pieceNums corrected :
  (∀ copies corrected',
     fec_Correct env required total copies = inr corrected' →
     ∀ num, num ∈ Number <$> corrected' → num ∈ Number <$> copies) →
  auditShares env required total originals = inr (pieceNums, corrected) →
  ∀ pieceNum, pieceNum ∈ pieceNums →
    ∃ e, e ∈ rangeMap env Share originals ∧ sh_PieceNum e.2 = pieceNum.
Proof.
  intros Hcorrect. unfold auditShares.
  destruct (infectious_NewFEC env required total); [done|].
  destruct (fec_Correct env required total (makeCopies env originals))
    as [|corrected'] eqn:E; [done|].
  intros [= <- <-] pieceNum Hin.
  assert (pieceNum ∈ Number <$> corrected') as Hc.
  { apply list_elem_of_fmap in Hin as (c & -> & [_ Hc]%list_elem_of_filter).
    apply list_elem_of_fmap. eauto. }
  apply (Hcorrect _ _ E) in Hc. unfold makeCopies in Hc.
  apply list_elem_of_fmap in Hc as (c & -> & Hc).
  apply list_elem_of_fmap in Hc as (e & -> & He). eauto.
Qed.

(** A call of [Verify] that completes without error went through all its
    stages. *)
Lemma Verify_completes env stripe skip limits key (shares : gmap Z Share) report calls :
  orders_CreateAuditOrderLimits env (createBucketID env (SegmentPath stripe))
    (Segment stripe) skip = inr (limits, key) →
  DownloadShares env limits key (Index stripe)
    (GetErasureShareSize (GetRedundancy (GetRemote (Segment stripe))))
  = Returns (shares, None) →
  Verify env stripe skip = Returns (Some report, None, calls) →
  ∃ remote pieceNums corrected pending st,
    st = foldl (sortShare env)
           {| offlineNodes := getOfflineNodes (Segment stripe) limits skip;
              failedNodes := []; containedNodes := ∅; sharesToAudit := ∅ |}
           (rangeMap env Share shares)
    ∧ Remote (Segment stripe) = Some remote
    ∧ auditShares env (MinReq (Redundancy remote)) (Total (Redundancy remote))
        (sharesToAudit st) = inr (pieceNums, corrected)
    ∧ createPendingAudits env (containedNodes st) corrected stripe = inr pending
    ∧ Successes report
      = getSuccessNodes env shares (Fails report) (offlineNodes st) (containedNodes st)
    ∧ Fails report
      = failedNodes st
        ++ map (λ pieceNum, sh_NodeID (default zeroShare (shares !! pieceNum)))
               pieceNums
    ∧ Offlines report = offlineNodes st
    ∧ PendingAudits report = pending.
Proof.
  intros Hlim Hdl. unfold Verify. rewrite Hlim, Hdl.
  destruct (checkIfSegmentDeleted env (SegmentPath stripe) (Some (Segment stripe)));
    [done|].
  destruct (Remote (Segment stripe)) as [remote|]; [|done].
  case_bool_decide; [done|].
  destruct (auditShares env _ _ _) as [|[pieceNums corrected]] eqn:Haud; [done|].
  destruct (removeFailedPieces env _ _ _) as [? calls'].
  destruct (createPendingAudits env _ _ _) as [|pending] eqn:Hpend; [done|].
  intros [= <- <-]. simpl. eauto 15.
Qed.

(** X5: without the fall-through, the four reported sets are pairwise disjoint
    and cover the nodes of the pieces that are not skipped: here the order
    limits are for distinct nodes that hold a piece and are not skipped, and
    the erasure correction gives back the shares it was given. *)
Theorem Verify_partition env stripe skip limits key report calls :
  let shareSize := GetErasureShareSize (GetRedundancy (GetRemote (Segment stripe))) in
  let pieces := elems (GetRemotePieces (GetRemote (Segment stripe))) in
  (∀ A (m : gmap Z A), rangeMap env A m ≡ₚ map_to_list m) →
  arrival env (sent env key (Index stripe) shareSize limits)
    ≡ₚ sent env key (Index stripe) shareSize limits →
  orders_CreateAuditOrderLimits env (createBucketID env (SegmentPath stripe))
    (Segment stripe) skip = inr (limits, key) →
  (∀ (i : nat) limit, limits !! i = Some (Some limit) →
     (∃ piece, piece ∈ pieces ∧ NodeId piece = StorageNodeId limit)
     ∧ lookupBool skip (StorageNodeId limit) = false) →
  (∀ (i j : nat) li lj, limits !! i = Some (Some li) → limits !! j = Some (Some lj) →
     StorageNodeId li = StorageNodeId lj → i = j) →
  (∀ required total copies corrected,
     fec_Correct env required total copies = inr corrected →
     ∀ num, num ∈ Number <$> corrected → num ∈ Number <$> copies) →
  (∀ (i : nat) limit, limits !! i = Some (Some limit) →
     verdict env (downloadOne env key (Index stripe) shareSize (Z.of_nat i) limit)
     ≠ ContainedAndFailed) →
  Verify env stripe skip = Returns (Some report, None, calls) →
  let contained := pa_NodeID <$> PendingAudits report in
  (∀ n, n ∈ Successes report ∨ n ∈ Fails report ∨ n ∈ Offlines report ∨ n ∈ contained
        ↔ (∃ piece, piece ∈ pieces ∧ NodeId piece = n) ∧ lookupBool skip n = false)
  ∧ (∀ n, ¬ (n ∈ Successes report ∧ n ∈ Fails report))
  ∧ (∀ n, ¬ (n ∈ Successes report ∧ n ∈ Offlines report))
  ∧ (∀ n, ¬ (n ∈ Successes report ∧ n ∈ contained))
  ∧ (∀ n, ¬ (n ∈ Fails report ∧ n ∈ Offlines report))
  ∧ (∀ n, ¬ (n ∈ Fails report ∧ n ∈ contained))
  ∧ (∀ n, ¬ (n ∈ Offlines report ∧ n ∈ contained)).
Proof.
  intros shareSize pieces Hrange Harr Hlim Hpieces Hdistinct Hcorrect Hnofall Hver.
  pose proof (DownloadShares_returns _ _ _ _ _ Harr) as Hdl.
  set (shares := list_to_map (omap keyed (sent env key (Index stripe) shareSize limits))
                 : gmap Z Share) in *.
  destruct (Verify_completes _ _ _ _ _ _ _ _ Hlim Hdl Hver)
    as (remote & pieceNums & corrected & pending & st & Hst & Hrem & Haud & Hpend
        & HS & HF & HO & HC).
  set (l := rangeMap env Share shares) in *.
  (* the entries of the loop are the downloaded shares *)
  assert (∀ e, e ∈ l ↔ ∃ (i : nat) limit, limits !! i = Some (Some limit)
            ∧ e = (Z.of_nat i,
                   downloadOne env key (Index stripe) shareSize (Z.of_nat i) limit))
    as Hl.
  { intros [k share]. unfold l. rewrite (Hrange Share shares), elem_of_map_to_list.
    unfold shares. rewrite <-elem_of_list_to_map by apply sent_NoDup.
    rewrite elem_of_sent. naive_solver. }
  assert (NoDup l.*1) as Hnd.
  { unfold l. rewrite (Hrange Share shares). apply NoDup_fst_map_to_list. }
  assert (∀ e, e ∈ l ↔ shares !! e.1 = Some e.2) as Hl'.
  { intros [k share]. unfold l.
    by rewrite (Hrange Share shares), elem_of_map_to_list. }
  (* each of them is the share of a limit *)
  assert (∀ e, e ∈ l →
            (∃ limit, Some limit ∈ limits ∧ StorageNodeId limit = sh_NodeID e.2)
            ∧ ((∃ piece, piece ∈ pieces ∧ NodeId piece = sh_NodeID e.2)
               ∧ lookupBool skip (sh_NodeID e.2) = false)
            ∧ verdict env e.2 ≠ ContainedAndFailed
            ∧ sh_PieceNum e.2 = e.1) as Hshare.
  { intros e (i & limit & Hi & ->)%Hl. simpl.
    rewrite downloadOne_NodeID, downloadOne_PieceNum.
    split; [|split; [|split]]; [|by eapply Hpieces|by eapply Hnofall|done].
    exists limit. split; [|done]. apply list_elem_of_lookup. eauto. }
  (* and no two of them are on one node *)
  assert (∀ e e', e ∈ l → e' ∈ l → sh_NodeID e.2 = sh_NodeID e'.2 → e = e') as Hone.
  { intros e e' (i & li & Hi & ->)%Hl (j & lj & Hj & ->)%Hl. simpl.
    rewrite !downloadOne_NodeID. intros Hn.
    assert (i = j) as <- by by eapply Hdistinct.
    rewrite Hi in Hj. by injection Hj as <-. }
  (* the four reported lists *)
  assert (∀ n, n ∈ Offlines report ↔
            n ∈ getOfflineNodes (Segment stripe) limits skip
            ∨ ∃ e, e ∈ l ∧ verdict env e.2 = Offline ∧ sh_NodeID e.2 = n) as HOff.
  { intros n. rewrite HO, Hst, offlineNodes_sorted. simpl.
    rewrite elem_of_app, list_elem_of_fmap. setoid_rewrite list_elem_of_filter.
    naive_solver. }
  assert (∀ n, n ∈ failedNodes st ↔
            ∃ e, e ∈ l ∧ isFailed (verdict env e.2) = true ∧ sh_NodeID e.2 = n)
    as HFst.
  { intros n. rewrite Hst, failedNodes_sorted. simpl.
    rewrite list_elem_of_fmap. setoid_rewrite list_elem_of_filter.
    naive_solver. }
  assert (∀ k n, containedNodes st !! k = Some n ↔
            ∃ e, e ∈ l ∧ isContained (verdict env e.2) = true ∧ e.1 = k
                 ∧ sh_NodeID e.2 = n) as HCmap.
  { intros k n. rewrite Hst, containedNodes_sorted. simpl.
    by apply (foldl_insert_map_lookup
                (λ e : Z * Share, isContained (verdict env e.2))
                (λ e : Z * Share, sh_NodeID e.2)). }
  assert (∀ n, n ∈ pa_NodeID <$> PendingAudits report ↔
            ∃ e, e ∈ l ∧ isContained (verdict env e.2) = true ∧ sh_NodeID e.2 = n)
    as HCon.
  { intros n. rewrite HC.
    rewrite (createPendingAudits_nodes _ _ _ _ _ (Hrange _ _) Hpend).
    rewrite (Hrange NodeID (containedNodes st)), list_elem_of_fmap. split.
    - intros ([k n'] & -> & Hin). apply elem_of_map_to_list in Hin.
      apply HCmap in Hin. naive_solver.
    - intros (e & He & Hv & <-). exists (e.1, sh_NodeID e.2). split; [done|].
      apply elem_of_map_to_list, HCmap. eauto. }
  assert (∀ n, n ∈ Fails report →
            ∃ e, e ∈ l ∧ sh_NodeID e.2 = n
                 ∧ (verdict env e.2 = Failed ∨ verdict env e.2 = ToAudit)) as HFail.
  { intros n. rewrite HF, elem_of_app. intros [Hin|Hin].
    - apply HFst in Hin as (e & He & Hv & <-). exists e. split; [done|].
      split; [done|]. destruct (Hshare e He) as (_ & _ & Hnf & _).
      destruct (verdict env e.2); naive_solver.
    - apply list_elem_of_fmap in Hin as (pieceNum & -> & Hin).
      destruct (auditShares_nums _ _ _ _ _ _ (Hcorrect _ _) Haud _ Hin)
        as ([k share] & He & <-).
      rewrite (Hrange Share (sharesToAudit st)) in He.
      apply elem_of_map_to_list in He. rewrite Hst, sharesToAudit_foldl in He.
      simpl in He.
      apply (foldl_insert_map_lookup downloaded (λ e : Z * Share, e.2)) in He
        as (e & He & Hd & <- & <-); [|done].
      exists e. destruct (Hshare e He) as (_ & _ & _ & Hnum).
      apply Hl' in He as Hlook. simpl. rewrite Hnum, Hlook. simpl.
      split; [by apply Hl'|]. split; [done|]. right.
      unfold downloaded in Hd. unfold verdict. by destruct (sh_Error e.2). }
  assert (∀ e, e ∈ l → verdict env e.2 = Failed → sh_NodeID e.2 ∈ Fails report)
    as HFailed.
  { intros e He Hv. rewrite HF, elem_of_app. left. apply HFst.
    exists e. by rewrite Hv. }
  assert (∀ n, n ∈ Successes report ↔
            (∃ e, e ∈ l ∧ sh_NodeID e.2 = n)
            ∧ (n ∉ Fails report) ∧ (n ∉ Offlines report)
            ∧ (n ∉ pa_NodeID <$> PendingAudits report)) as HSuc.
  { intros n. rewrite HS, getSuccessNodes_elem, HO, HC.
    by rewrite (createPendingAudits_nodes _ _ _ _ _ (Hrange _ _) Hpend). }
  assert (∀ n, (∃ limit, Some limit ∈ limits ∧ StorageNodeId limit = n) →
            ∃ e, e ∈ l ∧ sh_NodeID e.2 = n) as Hhas.
  { intros n (limit & [i Hi]%list_elem_of_lookup & <-).
    eexists. split; [apply Hl; eauto|]. simpl. by rewrite downloadOne_NodeID. }
  assert (∀ n, n ∈ getOfflineNodes (Segment stripe) limits skip →
            ((∃ piece, piece ∈ pieces ∧ NodeId piece = n) ∧ lookupBool skip n = false)
            ∧ ¬ ∃ e, e ∈ l ∧ sh_NodeID e.2 = n) as Hnolimit.
  { intros n (Hp & Hno & Hs)%getOfflineNodes_elem. split; [done|].
    intros (e & He & <-). apply Hno. by destruct (Hshare e He) as (? & _). }
  assert (∀ e e', e ∈ l → e' ∈ l → sh_NodeID e.2 = sh_NodeID e'.2 →
            verdict env e.2 = verdict env e'.2) as Hsame.
  { intros e e' He He' Hn. by rewrite (Hone e e' He He' Hn). }
  clearbody l shares. clear Hst HS HF HO HC Hpend Haud Hver Hdl Hlim Hl Hl' Hone.
  cbv zeta. split; [|repeat split].
  - intros n. split.
    + intros [Hin|[Hin|[Hin|Hin]]].
      * apply HSuc in Hin as ((e & He & <-) & _). by apply Hshare.
      * apply HFail in Hin as (e & He & <- & _). by apply Hshare.
      * apply HOff in Hin as [Hin|(e & He & _ & <-)]; [by apply Hnolimit|].
        by apply Hshare.
      * apply HCon in Hin as (e & He & _ & <-). by apply Hshare.
    + intros [Hp Hs].
      destruct (decide (n ∈ (λ e : Z * Share, sh_NodeID e.2) <$> l)) as [Hin|Hout].
      * apply list_elem_of_fmap in Hin as (e & -> & He).
        destruct (verdict env e.2) eqn:Hv.
        -- destruct (decide (sh_NodeID e.2 ∈ Fails report)) as [?|HnF]; [by auto|].
           left. apply HSuc. split; [eauto|]. split; [done|]. split.
           ++ intros [Hin|(e' & He' & Hv' & Hn)]%HOff.
              ** apply Hnolimit in Hin as [_ Hin]. apply Hin. eauto.
              ** rewrite (Hsame e' e He' He Hn) in Hv'. congruence.
           ++ intros (e' & He' & Hv' & Hn)%HCon.
              rewrite (Hsame e' e He' He Hn), Hv in Hv'. done.
        -- right; right; left. apply HOff. right. eauto.
        -- right; left. by apply HFailed.
        -- right; right; right. apply HCon. exists e. by rewrite Hv.
        -- by destruct (Hshare e He) as (_ & _ & ? & _).
      * right; right; left. apply HOff. left. apply getOfflineNodes_elem.
        split; [done|]. split; [|done].
        intros Hex. apply Hhas in Hex as (e & He & <-).
        apply Hout, list_elem_of_fmap. eauto.
  - intros n [Hs Hf]. by apply HSuc in Hs as (_ & ? & _).
  - intros n [Hs Hf]. by apply HSuc in Hs as (_ & _ & ? & _).
  - intros n [Hs Hf]. by apply HSuc in Hs as (_ & _ & _ & ?).
  - intros n [(e & He & <- & Hv)%HFail [Hin|(e' & He' & Hv' & Hn)]%HOff].
    + apply Hnolimit in Hin as [_ Hin]. apply Hin. eauto.
    + rewrite (Hsame e' e He' He Hn) in Hv'. destruct Hv; congruence.
  - intros n [(e & He & <- & Hv)%HFail (e' & He' & Hv' & Hn)%HCon].
    rewrite (Hsame e' e He' He Hn) in Hv'. by destruct Hv as [Hv|Hv]; rewrite Hv in Hv'.
  - intros n [[Hin|(e & He & Hv & <-)]%HOff (e' & He' & Hv' & Hn)%HCon].
    + apply Hnolimit in Hin as [_ Hin]. apply Hin. eauto.
    + rewrite (Hsame e' e He' He Hn), Hv in Hv'. done.
Qed.

Lemma Verify_partition_witness :
  ∃ report calls,
    Verify
      (Fixtures.verifier 128 Fixtures.threeLimits
         (Fixtures.segment Fixtures.scheme2345 Fixtures.threePieces)
         (Fixtures.failingAt 10%N Fixtures.dialFailed))
      (Fixtures.stripeOf Fixtures.threePieces) ∅
    = Returns (Some report, None, calls)
    ∧ Offlines report = [10%N]
    ∧ ∀ n, ¬ (n ∈ Fails report ∧ n ∈ Offlines report).
Proof.
  eexists _, _. split; [vm_compute; reflexivity|]. split; [reflexivity|].
  refine (proj1 (proj2 (proj2 (proj2 (proj2 (Verify_partition
            (Fixtures.verifier 128 Fixtures.threeLimits
               (Fixtures.segment Fixtures.scheme2345 Fixtures.threePieces)
               (Fixtures.failingAt 10%N Fixtures.dialFailed))
            (Fixtures.stripeOf Fixtures.threePieces) ∅ Fixtures.threeLimits 1%N
            _ _ _ _ _ _ _ _ _ _)))))).
  - intros A m. reflexivity.
  - apply reverse_Permutation.
  - reflexivity.
  - intros [|[|[|[|[|i]]]]] limit [= <-]; (split; [|reflexivity]).
    + exists (Fixtures.piece 0 10%N). split; [|reflexivity].
      apply list_elem_of_here.
    + exists (Fixtures.piece 1 11%N). split; [|reflexivity].
      apply list_elem_of_further, list_elem_of_here.
    + exists (Fixtures.piece 2 12%N). split; [|reflexivity].
      do 2 apply list_elem_of_further. apply list_elem_of_here.
  - intros [|[|[|[|[|i]]]]] [|[|[|[|[|j]]]]] li lj [= <-] [= <-]; done.
  - intros required total copies corrected [= <-] num Hnum. exact Hnum.
  - intros [|[|[|[|[|i]]]]] limit [= <-]; vm_compute; discriminate.
  - vm_compute. reflexivity.
Defined.

(** The loop of [Verify] over the downloaded shares, seen from one share. *)
Lemma Verify_loop_verdict env (shares : gmap Z Share) offline0 pieceNum share :
  rangeMap env Share shares ≡ₚ map_to_list shares →
  shares !! pieceNum = Some share →
  let st := foldl (sortShare env)
              {| offlineNodes := offline0; failedNodes := [];
                 containedNodes := ∅; sharesToAudit := ∅ |}
              (rangeMap env Share shares) in
  (sharesToAudit st !! pieceNum
   = if bool_decide (verdict env share = ToAudit) then Some share else None)
  ∧ (containedNodes st !! pieceNum
     = if isContained (verdict env share) then Some (sh_NodeID share) else None)
  ∧ (verdict env share = Offline → sh_NodeID share ∈ offlineNodes st)
  ∧ (isFailed (verdict env share) = true → sh_NodeID share ∈ failedNodes st).
Proof.
  intros Hperm Hlook st.
  set (l := rangeMap env Share shares) in *.
  assert (∀ e, e ∈ l ↔ shares !! e.1 = Some e.2) as Hl.
  { intros [k s]. by rewrite Hperm, elem_of_map_to_list. }
  assert (NoDup l.*1) as Hnd.
  { rewrite Hperm. apply NoDup_fst_map_to_list. }
  assert ((pieceNum, share) ∈ l) as He by by apply Hl.
  assert (∀ e, e ∈ l → e.1 = pieceNum → e.2 = share) as Hkey.
  { intros [k s] Hin%Hl. simpl in *. intros ->. congruence. }
  assert (∀ s, downloaded (pieceNum, s) = bool_decide (verdict env s = ToAudit))
    as Hdown.
  { intros s. unfold downloaded, verdict. simpl. destruct (sh_Error s); [|done].
    repeat case_match; done. }
  split; [|split; [|split]].
  - unfold st. rewrite sharesToAudit_foldl. simpl. apply option_eq. intros s.
    rewrite (foldl_insert_map_lookup downloaded (λ e : Z * Share, e.2)) by done.
    split.
    + intros ([k s'] & Hin & Hd & Hk & <-). simpl in *. subst k.
      pose proof (Hkey _ Hin eq_refl) as Hs. simpl in Hs. subst s'.
      rewrite Hdown in Hd. by rewrite Hd.
    + rewrite <-Hdown. destruct (downloaded (pieceNum, share)) eqn:Hd; [|done].
      intros [= <-]. eauto.
  - unfold st. rewrite containedNodes_sorted. simpl. apply option_eq. intros n.
    rewrite (foldl_insert_map_lookup
               (λ e : Z * Share, isContained (verdict env e.2))
               (λ e : Z * Share, sh_NodeID e.2)) by done.
    split.
    + intros ([k s'] & Hin & Hc & Hk & <-). simpl in *. subst k.
      pose proof (Hkey _ Hin eq_refl) as Hs. simpl in Hs. subst s'.
      by rewrite Hc.
    + destruct (isContained (verdict env share)) eqn:Hc; [|done].
      intros [= <-]. exists (pieceNum, share). eauto.
  - intros Hv. unfold st. rewrite offlineNodes_sorted. simpl.
    apply elem_of_app. right. apply list_elem_of_fmap.
    exists (pieceNum, share). split; [done|]. by apply list_elem_of_filter.
  - intros Hv. unfold st. rewrite failedNodes_sorted. simpl.
    apply list_elem_of_fmap.
    exists (pieceNum, share). split; [done|]. by apply list_elem_of_filter.
Qed.

(** C4, as the code has it: in the loop of [Verify] over the downloaded
    shares, a share without error goes to the shares to audit; a share with an
    error does not, and: a transport error that is a dial timeout, or whose RPC
    code is [Unknown], makes the node offline and not contained; any other
    transport error makes the node contained; an error that is not a transport
    error makes the node failed and not contained when its RPC code is
    [NotFound], and contained otherwise, in particular when its RPC code is
    [DeadlineExceeded]. *)
Theorem Verify_sorts_shares env (shares : gmap Z Share) offline0 pieceNum share :
  rangeMap env Share shares ≡ₚ map_to_list shares →
  shares !! pieceNum = Some share →
  let st := foldl (sortShare env)
              {| offlineNodes := offline0; failedNodes := [];
                 containedNodes := ∅; sharesToAudit := ∅ |}
              (rangeMap env Share shares) in
  (sh_Error share = None →
   sharesToAudit st !! pieceNum = Some share ∧ containedNodes st !! pieceNum = None)
  ∧ (∀ err, sh_Error share = Some err →
       sharesToAudit st !! pieceNum = None
       ∧ (transport_Error_Has env err = true →
          errs_Is_DeadlineExceeded env err = true ∨ errs2_IsRPC env err Unknown = true →
          sh_NodeID share ∈ offlineNodes st ∧ containedNodes st !! pieceNum = None)
       ∧ (transport_Error_Has env err = true →
          errs_Is_DeadlineExceeded env err = false →
          errs2_IsRPC env err Unknown = false →
          containedNodes st !! pieceNum = Some (sh_NodeID share))
       ∧ (transport_Error_Has env err = false →
          errs2_IsRPC env err NotFound = true →
          sh_NodeID share ∈ failedNodes st ∧ containedNodes st !! pieceNum = None)
       ∧ (transport_Error_Has env err = false →
          errs2_IsRPC env err NotFound = false →
          errs2_IsRPC env err DeadlineExceeded = true →
          containedNodes st !! pieceNum = Some (sh_NodeID share))
       ∧ (transport_Error_Has env err = false →
          errs2_IsRPC env err NotFound = false →
          errs2_IsRPC env err DeadlineExceeded = false →
          containedNodes st !! pieceNum = Some (sh_NodeID share))).
Proof.
  intros Hperm Hlook st.
  destruct (Verify_loop_verdict env shares offline0 pieceNum share Hperm Hlook)
    as (Haudit & Hcont & Hoff & Hfail).
  fold st in Haudit, Hcont, Hoff, Hfail.
  rewrite Haudit, Hcont. unfold verdict in *. split.
  - intros ->. done.
  - intros err Herr. rewrite Herr in *.
    split; [by repeat case_match|].
    split; [|split; [|split; [|split]]].
    + intros Ht [Hd|Hu]; rewrite Ht in *.
      * rewrite Hd in *. auto.
      * rewrite Hu in *. destruct (errs_Is_DeadlineExceeded env err); auto.
    + intros Ht Hd Hu. rewrite Ht, Hd, Hu.
      by destruct (errs2_IsRPC env err NotFound).
    + intros Ht Hn. rewrite Ht, Hn in *. auto.
    + intros Ht Hn _. by rewrite Ht, Hn.
    + intros Ht Hn _. by rewrite Ht, Hn.
Qed.

Lemma Verify_sorts_shares_witness :
  11%N ∈ offlineNodes
           (foldl (sortShare
                     (Fixtures.verifier 128 Fixtures.threeLimits
                        (Fixtures.segment Fixtures.scheme2345 Fixtures.threePieces)
                        Fixtures.noFailure))
                  Fixtures.emptySorted
                  (map_to_list
                     ({[1 := Fixtures.failedShare 1 11%N Fixtures.dialFailed]}
                      : gmap Z Share))).
Proof.
  refine (proj1 (proj1 (proj2 (proj2 (Verify_sorts_shares
            (Fixtures.verifier 128 Fixtures.threeLimits
               (Fixtures.segment Fixtures.scheme2345 Fixtures.threePieces)
               Fixtures.noFailure)
            {[1 := Fixtures.failedShare 1 11%N Fixtures.dialFailed]} [] 1
            (Fixtures.failedShare 1 11%N Fixtures.dialFailed) _ _)
            Fixtures.dialFailed eq_refl)) eq_refl _)).
  - reflexivity.
  - reflexivity.
  - right. reflexivity.
Defined.

(** C4 does not hold as stated: when the download from node 11 ends with a
    transport error that is not a dial timeout and has the RPC code [Unknown],
    [Verify] reports node 11 offline and contains no node. *)
Lemma Verify_dial_failed_offline :
  transport_Error_Has
    (Fixtures.verifier 128 Fixtures.threeLimits
       (Fixtures.segment Fixtures.scheme2345 Fixtures.threePieces)
       (Fixtures.failingAt 11%N Fixtures.dialFailed))
    Fixtures.dialFailed = true
  ∧ errs_Is_DeadlineExceeded
      (Fixtures.verifier 128 Fixtures.threeLimits
         (Fixtures.segment Fixtures.scheme2345 Fixtures.threePieces)
         (Fixtures.failingAt 11%N Fixtures.dialFailed))
      Fixtures.dialFailed = false
  ∧ ∃ calls,
      Verify
        (Fixtures.verifier 128 Fixtures.threeLimits
           (Fixtures.segment Fixtures.scheme2345 Fixtures.threePieces)
           (Fixtures.failingAt 11%N Fixtures.dialFailed))
        (Fixtures.stripeOf Fixtures.threePieces) ∅
      = Returns (Some {| Successes := [12%N; 10%N]; Fails := [];
                         Offlines := [11%N]; PendingAudits := [] |},
                 None, calls).
Proof. split; [done|]. split; [done|]. eexists. vm_compute. reflexivity. Qed.

(** *** What [Verify] reports and asks for, however it ends *)

(** X6: whenever [Verify] gives back a report, the nodes that have a piece
    but got no order limit and are not skipped come first among the offline
    nodes, and every other offline node is the node of a downloaded share whose
    error is a transport error that is a dial timeout or has the RPC code
    Unknown. *)
Theorem Verify_offline_nodes env stripe skip limits key (shares : gmap Z Share)
    report err calls :
  orders_CreateAuditOrderLimits env (createBucketID env (SegmentPath stripe))
    (Segment stripe) skip = inr (limits, key) →
  DownloadShares env limits key (Index stripe)
    (GetErasureShareSize (GetRedundancy (GetRemote (Segment stripe))))
  = Returns (shares, None) →
  Verify env stripe skip = Returns (Some report, err, calls) →
  ∃ later,
    Offlines report = getOfflineNodes (Segment stripe) limits skip ++ later
    ∧ ∀ n, n ∈ later →
        ∃ pieceNum share e,
          (pieceNum, share) ∈ rangeMap env Share shares
          ∧ sh_NodeID share = n
          ∧ sh_Error share = Some e
          ∧ transport_Error_Has env e = true
          ∧ (errs_Is_DeadlineExceeded env e = true ∨ errs2_IsRPC env e Unknown = true).
Proof.
  intros Hlim Hdl. unfold Verify. rewrite Hlim, Hdl.
  assert (∀ n, n ∈ (λ e : Z * Share, sh_NodeID e.2)
                     <$> filter (λ e : Z * Share, verdict env e.2 = Offline)
                           (rangeMap env Share shares) →
            ∃ pieceNum share e,
              (pieceNum, share) ∈ rangeMap env Share shares
              ∧ sh_NodeID share = n
              ∧ sh_Error share = Some e
              ∧ transport_Error_Has env e = true
              ∧ (errs_Is_DeadlineExceeded env e = true
                 ∨ errs2_IsRPC env e Unknown = true)) as Hlater.
  { intros n ([pieceNum share] & -> & [Hv Hin]%list_elem_of_filter)%list_elem_of_fmap.
    simpl in *. unfold verdict in Hv.
    destruct (sh_Error share) as [e|] eqn:He; [|done].
    exists pieceNum, share, e. repeat split; try done.
    - by destruct (transport_Error_Has env e), (errs2_IsRPC env e NotFound).
    - destruct (transport_Error_Has env e), (errs_Is_DeadlineExceeded env e),
        (errs2_IsRPC env e Unknown), (errs2_IsRPC env e NotFound); auto; done. }
  destruct (checkIfSegmentDeleted env (SegmentPath stripe) (Some (Segment stripe))).
  { intros [= <- <- <-]. exists []. split; [by rewrite app_nil_r|].
    by intros n ?%elem_of_nil. }
  destruct (Remote (Segment stripe)) as [remote|]; [|done].
  pose proof (offlineNodes_sorted env (rangeMap env Share shares)
                {| offlineNodes := getOfflineNodes (Segment stripe) limits skip;
                   failedNodes := []; containedNodes := ∅; sharesToAudit := ∅ |})
    as Hoff.
  simpl in Hoff.
  case_bool_decide.
  { intros [= <- <- <-]. eexists. split; [exact Hoff|exact Hlater]. }
  destruct (auditShares env _ _ _) as [|[pieceNums corrected]].
  { intros [= <- <- <-]. eexists. split; [exact Hoff|exact Hlater]. }
  destruct (removeFailedPieces env _ _ _) as [? calls'].
  destruct (createPendingAudits env _ _ _).
  all: intros [= <- <- <-]; eexists; split; [exact Hoff|exact Hlater].
Qed.

Lemma Verify_offline_nodes_witness :
  ∃ later,
    [11%N] = getOfflineNodes (Fixtures.segment Fixtures.scheme2345 Fixtures.threePieces)
               Fixtures.threeLimits ∅ ++ later
    ∧ ∀ n, n ∈ later →
        ∃ pieceNum share e,
          (pieceNum, share)
          ∈ rangeMap
              (Fixtures.verifier 128 Fixtures.threeLimits
                 (Fixtures.segment Fixtures.scheme2345 Fixtures.threePieces)
                 (Fixtures.failingAt 11%N Fixtures.dialFailed))
              Share
              (list_to_map
                 [(0, Fixtures.okShare 0 10%N);
                  (1, Fixtures.failedShare 1 11%N Fixtures.dialFailed);
                  (2, Fixtures.okShare 2 12%N)])
          ∧ sh_NodeID share = n
          ∧ sh_Error share = Some e
          ∧ transport_Error_Has
              (Fixtures.verifier 128 Fixtures.threeLimits
                 (Fixtures.segment Fixtures.scheme2345 Fixtures.threePieces)
                 (Fixtures.failingAt 11%N Fixtures.dialFailed)) e = true
          ∧ (errs_Is_DeadlineExceeded
               (Fixtures.verifier 128 Fixtures.threeLimits
                  (Fixtures.segment Fixtures.scheme2345 Fixtures.threePieces)
                  (Fixtures.failingAt 11%N Fixtures.dialFailed)) e = true
             ∨ errs2_IsRPC
                 (Fixtures.verifier 128 Fixtures.threeLimits
                    (Fixtures.segment Fixtures.scheme2345 Fixtures.threePieces)
                    (Fixtures.failingAt 11%N Fixtures.dialFailed)) e Unknown = true).
Proof.
  apply (Verify_offline_nodes
           (Fixtures.verifier 128 Fixtures.threeLimits
              (Fixtures.segment Fixtures.scheme2345 Fixtures.threePieces)
              (Fixtures.failingAt 11%N Fixtures.dialFailed))
           (Fixtures.stripeOf Fixtures.threePieces) ∅ Fixtures.threeLimits 1%N
           (list_to_map
              [(0, Fixtures.okShare 0 10%N);
               (1, Fixtures.failedShare 1 11%N Fixtures.dialFailed);
               (2, Fixtures.okShare 2 12%N)])
           {| Successes := [12%N; 10%N]; Fails := []; Offlines := [11%N];
              PendingAudits := [] |} None []).
  - reflexivity.
  - vm_compute. reflexivity.
  - vm_compute. reflexivity.
Defined.

(** X7: [Verify] asks for at most one update of the pointer. The update is
    for the segment of the stripe, adds no piece, and removes exactly the
    pieces of the pointer held by the nodes reported as failed, of which there
    is at least one; and when [Verify] ends without error and reports a failed
    node, it has asked for the update. *)
Theorem Verify_removes_failed_pieces env stripe skip report err calls :
  Verify env stripe skip = Returns (report, err, calls) →
  (calls = []
   ∨ ∃ r, report = Some r
          ∧ Fails r ≠ []
          ∧ calls = [{| up_path := SegmentPath stripe; up_ref := Segment stripe;
                        up_toAdd := [];
                        up_toRemove :=
                          filter (λ piece, NodeId piece ∈ Fails r)
                            (elems (GetRemotePieces (GetRemote (Segment stripe)))) |}])
  ∧ (err = None → ∀ r, report = Some r → Fails r ≠ [] → calls ≠ []).
Proof.
  unfold Verify.
  destruct (orders_CreateAuditOrderLimits env _ _ _) as [|[limits key]].
  { intros [= <- <- <-]. split; [by left|done]. }
  destruct (DownloadShares env _ _ _ _) as [[shares [e|]]| |]; try done.
  { intros [= <- <- <-]. split; [by left|done]. }
  destruct (checkIfSegmentDeleted env _ _).
  { intros [= <- <- <-]. split; [by left|done]. }
  destruct (Remote (Segment stripe)) as [remote|]; [|done].
  case_bool_decide.
  { intros [= <- <- <-]. split; [by left|done]. }
  destruct (auditShares env _ _ _) as [|[pieceNums corrected]].
  { intros [= <- <- <-]. split; [by left|done]. }
  unfold removeFailedPieces. case_bool_decide as Hlen.
  - apply len_nil_iff in Hlen.
    destruct (createPendingAudits env _ _ _); intros [= <- <- <-].
    all: split; [by left|]. all: intros _ r [= <-]; simpl; by rewrite Hlen.
  - rewrite len_nil_iff in Hlen.
    destruct (createPendingAudits env _ _ _); intros [= <- <- <-].
    all: split; [right; eexists; split; [done|]; split; [exact Hlen|done]|done].
Qed.

Lemma Verify_removes_failed_pieces_witness :
  [{| up_path := "project/l/bucket/object";
      up_ref := Fixtures.segment Fixtures.scheme2345 Fixtures.threePieces;
      up_toAdd := []; up_toRemove := [Fixtures.piece 1 11%N] |}]
  ≠ ([] : list UpdatePiecesCall).
Proof.
  refine (proj2 (Verify_removes_failed_pieces
            (Fixtures.verifier 128 Fixtures.threeLimits
               (Fixtures.segment Fixtures.scheme2345 Fixtures.threePieces)
               (Fixtures.failingAt 11%N Fixtures.downloadNotFound))
            (Fixtures.stripeOf Fixtures.threePieces) ∅
            (Some {| Successes := [12%N; 10%N]; Fails := [11%N]; Offlines := [];
                     PendingAudits := [] |})
            None _ _) eq_refl _ eq_refl _).
  - vm_compute. reflexivity.
  - discriminate.
Defined.

(** X8: when the segment is gone from the metainfo after the download, or
    was made anew in the meantime, [Verify] ends with a segment-deleted error;
    it reports as offline only the nodes that got no order limit, reports
    nothing else, and asks for no update of the pointer. *)
Theorem Verify_segment_deleted env stripe skip limits key (shares : gmap Z Share) :
  orders_CreateAuditOrderLimits env (createBucketID env (SegmentPath stripe))
    (Segment stripe) skip = inr (limits, key) →
  DownloadShares env limits key (Index stripe)
    (GetErasureShareSize (GetRedundancy (GetRemote (Segment stripe))))
  = Returns (shares, None) →
  (∃ e, metainfo_Get env (SegmentPath stripe) = inl e
        ∧ storage_ErrKeyNotFound_Has env e = true)
  ∨ (∃ newPointer, metainfo_Get env (SegmentPath stripe) = inr newPointer
                   ∧ CreationDate (Segment stripe) ≠ CreationDate newPointer) →
  Verify env stripe skip
  = Returns (Some {| Successes := []; Fails := [];
                     Offlines := getOfflineNodes (Segment stripe) limits skip;
                     PendingAudits := [] |},
             Some (New ClsSegmentDeleted (SegmentPath stripe)), []).
Proof.
  intros Hlim Hdl Hgone. unfold Verify. rewrite Hlim, Hdl.
  unfold checkIfSegmentDeleted.
  destruct Hgone as [(e & -> & ->)|(newPointer & -> & Hdate)]; [done|].
  by rewrite bool_decide_true.
Qed.

Lemma Verify_segment_deleted_witness :
  Verify
    (Fixtures.verifier 128 Fixtures.threeLimits
       (Fixtures.segment Fixtures.scheme2345 [])
       Fixtures.noFailure)
    {| Index := 0;
       Segment := {| Type_ := REMOTE; InlineSegment := [];
                     Remote := Some {| Redundancy := Fixtures.scheme2345;
                                       RootPieceId := 99%N;
                                       RemotePieces := Some Fixtures.threePieces |};
                     SegmentSize := 64; CreationDate := 50; ExpirationDate := 0;
                     Metadata := [] |};
       SegmentPath := "project/l/bucket/object" |} ∅
  = Returns (Some {| Successes := []; Fails := []; Offlines := [];
                     PendingAudits := [] |},
             Some (New ClsSegmentDeleted "project/l/bucket/object"), []).
Proof.
  refine (Verify_segment_deleted
            (Fixtures.verifier 128 Fixtures.threeLimits
               (Fixtures.segment Fixtures.scheme2345 [])
               Fixtures.noFailure)
            {| Index := 0;
               Segment := {| Type_ := REMOTE; InlineSegment := [];
                             Remote := Some {| Redundancy := Fixtures.scheme2345;
                                               RootPieceId := 99%N;
                                               RemotePieces := Some Fixtures.threePieces |};
                             SegmentSize := 64; CreationDate := 50; ExpirationDate := 0;
                             Metadata := [] |};
               SegmentPath := "project/l/bucket/object" |} ∅
            Fixtures.threeLimits 1%N
            (list_to_map [(0, Fixtures.okShare 0 10%N); (1, Fixtures.okShare 1 11%N);
                          (2, Fixtures.okShare 2 12%N)]) eq_refl _ _).
  - vm_compute. reflexivity.
  - right. eexists. split; [reflexivity|]. simpl. discriminate.
Defined.

(** *** The shares [Verify] downloads and audits *)

(** X9: the share [DownloadShares] keeps for an order limit has no error
    exactly when the dial, the start of the download, the reading of the whole
    share and the closing of the download have all succeeded; it then carries
    the bytes read. In every other case it carries the error and no data; a
    failed dial gives an error of the audit class that wraps the dial
    error. *)
Theorem downloadOne_error env key stripeIndex shareSize i limit :
  let share := downloadOne env key stripeIndex shareSize i limit in
  let timeout := GetShare_timeout env shareSize in
  let offset := int64 (shareSize * stripeIndex) in
  (sh_Error share = None ↔
   piecestore_Dial env timeout limit = None
   ∧ ps_Download env timeout limit key offset shareSize = None
   ∧ (∃ buf, io_ReadFull env limit offset shareSize = inr buf ∧ sh_Data share = Some buf)
   ∧ downloader_Close env limit = None)
  ∧ (sh_Error share ≠ None → sh_Data share = None)
  ∧ (∀ e, piecestore_Dial env timeout limit = Some e →
       sh_Error share = Some (Wrap ClsAudit e)).
Proof.
  cbv zeta. unfold downloadOne, GetShare.
  destruct (piecestore_Dial env _ limit) as [e|]; simpl.
  { split; [split; [done|by intros [? _]]|]. split; [done|by intros ? [= ->]]. }
  destruct (ps_Download env _ limit key _ shareSize) as [e|]; simpl.
  { split; [split; [done|by intros (_ & ? & _)]|]. done. }
  destruct (io_ReadFull env limit _ shareSize) as [e|buf]; simpl.
  { destruct (downloader_Close env limit); simpl.
    all: split; [split; [done|by intros (_ & _ & (? & ? & _) & _)]|done]. }
  destruct (downloader_Close env limit); simpl.
  - split; [split; [done|by intros (_ & _ & _ & ?)]|done].
  - split; [|done]. split; [|done]. intros _. repeat split; eauto.
Qed.

(** X10: [getOfflineNodes] gives the nodes of the pieces of the pointer
    that have no order limit and are not skipped, in the order of the pieces;
    for a pointer without remote segment it gives none. *)
Theorem getOfflineNodes_spec pointer limits skip :
  (∀ n, n ∈ getOfflineNodes pointer limits skip ↔
     (∃ piece, piece ∈ elems (GetRemotePieces (GetRemote pointer)) ∧ NodeId piece = n)
     ∧ (¬ ∃ l, Some l ∈ limits ∧ StorageNodeId l = n)
     ∧ lookupBool skip n = false)
  ∧ getOfflineNodes pointer limits skip
    `sublist_of` NodeId <$> elems (GetRemotePieces (GetRemote pointer))
  ∧ (GetRemote pointer = None → getOfflineNodes pointer limits skip = []).
Proof.
  split; [apply getOfflineNodes_elem|]. split.
  - unfold getOfflineNodes.
    rewrite (foldl_append_if
               (λ piece, negb (lookupBool _ (NodeId piece))
                         && negb (lookupBool skip (NodeId piece))) NodeId).
    apply fmap_sublist, sublist_filter.
  - unfold getOfflineNodes, GetRemotePieces. by intros ->.
Qed.

(** X11: [getSuccessNodes] gives the nodes of the shares that are neither
    among the failed nodes, nor among the offline ones, nor contained; it gives
    at most one node for each share. *)
Theorem getSuccessNodes_spec env (shares : gmap Z Share) failed offline
    (contained : gmap Z NodeID) :
  (∀ A (m : gmap Z A), rangeMap env A m ≡ₚ map_to_list m) →
  (∀ n, n ∈ getSuccessNodes env shares failed offline contained ↔
     (∃ pieceNum share, shares !! pieceNum = Some share ∧ sh_NodeID share = n)
     ∧ (n ∉ failed) ∧ (n ∉ offline)
     ∧ ¬ ∃ pieceNum, contained !! pieceNum = Some n)
  ∧ (length (getSuccessNodes env shares failed offline contained) ≤ size shares)%nat.
Proof.
  intros Hrange. split.
  - intros n. rewrite getSuccessNodes_elem.
    assert ((∃ e, e ∈ rangeMap env Share shares ∧ sh_NodeID e.2 = n)
            ↔ ∃ pieceNum share, shares !! pieceNum = Some share ∧ sh_NodeID share = n)
      as ->.
    { setoid_rewrite (Hrange Share shares). split.
      - intros ([k s] & Hin%elem_of_map_to_list & Hn). eauto.
      - intros (k & s & Hin & Hn). exists (k, s). by rewrite elem_of_map_to_list. }
    assert (n ∈ (rangeMap env NodeID contained).*2
            ↔ ∃ pieceNum, contained !! pieceNum = Some n) as ->; [|done].
    rewrite (Hrange NodeID contained), list_elem_of_fmap. split.
    + intros ([k n'] & -> & Hin%elem_of_map_to_list). eauto.
    + intros (k & Hin). exists (k, n). by rewrite elem_of_map_to_list.
  - unfold getSuccessNodes.
    rewrite (foldl_append_if (λ e : Z * Share, negb (lookupBool _ (sh_NodeID e.2)))
                             (λ e : Z * Share, sh_NodeID e.2)).
    rewrite app_nil_l, length_fmap.
    etrans; [apply length_filter|].
    by rewrite (Hrange Share shares), length_map_to_list.
Qed.

Lemma getSuccessNodes_spec_witness :
  (length (getSuccessNodes
             (Fixtures.verifier 128 Fixtures.threeLimits
                (Fixtures.segment Fixtures.scheme2345 Fixtures.threePieces)
                Fixtures.noFailure)
             Fixtures.twoShares
             [11%N] [] ∅)
   ≤ size Fixtures.twoShares)%nat.
Proof.
  refine (proj2 (getSuccessNodes_spec
            (Fixtures.verifier 128 Fixtures.threeLimits
               (Fixtures.segment Fixtures.scheme2345 Fixtures.threePieces)
               Fixtures.noFailure)
            Fixtures.twoShares
            [11%N] [] ∅ _)).
  intros A m. reflexivity.
Defined.

(** X12: when the erasure correction gives back the copies of the shares as
    it got them, [auditShares] finds no altered share; and a corrected share
    whose data is not the data downloaded under its number is among the piece
    numbers [auditShares] returns. *)
Theorem auditShares_altered env required total (originals : gmap Z Share) corrected :
  rangeMap env Share originals ≡ₚ map_to_list originals →
  (∀ pieceNum share, originals !! pieceNum = Some share → sh_PieceNum share = pieceNum) →
  infectious_NewFEC env required total = None →
  fec_Correct env required total (makeCopies env originals) = inr corrected →
  ∃ pieceNums,
    auditShares env required total originals = inr (pieceNums, corrected)
    ∧ (corrected = makeCopies env originals → pieceNums = [])
    ∧ (∀ c share, c ∈ corrected → originals !! Number c = Some share →
         elems (sh_Data share) ≠ inf_Data c → Number c ∈ pieceNums).
Proof.
  intros Hrange Hkeyed Hfec Hcorrect. unfold auditShares. rewrite Hfec, Hcorrect.
  eexists. split; [done|]. split.
  - intros ->.
    match goal with
    | |- map _ ?l = [] => assert (l = []) as ->; [|done]
    end.
    apply elem_of_nil_inv.
    intros c [Hdiff Hin]%list_elem_of_filter. apply Hdiff.
    unfold makeCopies in Hin.
    apply list_elem_of_fmap in Hin as ([pieceNum share] & -> & Hin).
    rewrite Hrange in Hin. apply elem_of_map_to_list in Hin. simpl.
    by rewrite (Hkeyed _ _ Hin), Hin.
  - intros c share Hin Hlook Hdiff. apply list_elem_of_fmap. exists c.
    split; [done|]. apply list_elem_of_filter. split; [|done]. by rewrite Hlook.
Qed.

Lemma auditShares_altered_witness :
  ∃ pieceNums,
    auditShares
      (Fixtures.verifier 128 Fixtures.threeLimits
         (Fixtures.segment Fixtures.scheme2345 Fixtures.threePieces) Fixtures.noFailure)
      2 5 Fixtures.twoShares
    = inr (pieceNums,
           makeCopies
             (Fixtures.verifier 128 Fixtures.threeLimits
                (Fixtures.segment Fixtures.scheme2345 Fixtures.threePieces)
                Fixtures.noFailure)
             Fixtures.twoShares)
    ∧ pieceNums = [].
Proof.
  destruct (auditShares_altered
              (Fixtures.verifier 128 Fixtures.threeLimits
                 (Fixtures.segment Fixtures.scheme2345 Fixtures.threePieces)
                 Fixtures.noFailure)
              2 5 Fixtures.twoShares
              (makeCopies
                 (Fixtures.verifier 128 Fixtures.threeLimits
                    (Fixtures.segment Fixtures.scheme2345 Fixtures.threePieces)
                    Fixtures.noFailure)
                 Fixtures.twoShares))
    as (pieceNums & Haudit & Hclean & _).
  - reflexivity.
  - intros pieceNum share Hlook. unfold Fixtures.twoShares in Hlook.
    apply lookup_insert_Some in Hlook as [[<- <-]|[_ Hlook]]; [done|].
    apply lookup_singleton_Some in Hlook as [<- <-]. done.
  - reflexivity.
  - reflexivity.
  - exists pieceNums. split; [exact Haudit|]. apply Hclean. reflexivity.
Defined.

(** The pending audits made by the loop, one for each contained node. *)
Lemma pendingLoop_each env required total stripeData shareSize stripe contained :
  ∀ pending result,
  pendingLoop env required total stripeData shareSize stripe contained pending
  = inr result →
  ∃ made,
    result = pending ++ made
    ∧ Forall2 (λ p (entry : Z * NodeID),
                 ∃ share,
                   fec_EncodeSingle env required total stripeData shareSize entry.1
                   = inr share
                   ∧ p = {| pa_NodeID := entry.2;
                            pa_PieceID :=
                              from_option RootPieceId 0%N (GetRemote (Segment stripe));
                            pa_StripeIndex := Index stripe;
                            pa_ShareSize := shareSize;
                            pa_ExpectedShareHash := pkcrypto_SHA256Hash env share;
                            pa_Path := SegmentPath stripe |})
              made contained.
Proof.
  induction contained as [|[pieceNum nodeID] rest IH]; intros pending result; simpl.
  - intros [= <-]. exists []. split; [by rewrite app_nil_r|constructor].
  - destruct (fec_EncodeSingle env required total stripeData shareSize pieceNum)
      as [|share] eqn:Henc; [done|].
    intros (made & -> & Hall)%IH. eexists (_ :: made). split.
    + by rewrite <-(assoc_L (++)).
    + constructor; [|done]. exists share. done.
Qed.

(** X13: with no contained node, [createPendingAudits] makes nothing and
    does not fail, whatever the erasure code. Otherwise, when it succeeds, it
    has made one pending audit for each contained node: for the node, the root
    piece ID, the index of the stripe, the share size and the path of the
    segment, with the hash of the share that the rebuilt stripe encodes to
    under the piece number of the node. *)
Theorem createPendingAudits_spec env (contained : gmap Z NodeID) correctedShares stripe :
  let redundancy := GetRedundancy (GetRemote (Segment stripe)) in
  let required := from_option MinReq 0 redundancy in
  let total := from_option Total 0 redundancy in
  let shareSize := GetErasureShareSize redundancy in
  (contained = ∅ → createPendingAudits env contained correctedShares stripe = inr [])
  ∧ (∀ pending,
       contained ≠ ∅ →
       createPendingAudits env contained correctedShares stripe = inr pending →
       ∃ stripeData,
         fec_Rebuild env required total correctedShares shareSize = inr stripeData
         ∧ Forall2 (λ p (entry : Z * NodeID),
                      ∃ share,
                        fec_EncodeSingle env required total stripeData shareSize entry.1
                        = inr share
                        ∧ p = {| pa_NodeID := entry.2;
                                 pa_PieceID :=
                                   from_option RootPieceId 0%N
                                     (GetRemote (Segment stripe));
                                 pa_StripeIndex := Index stripe;
                                 pa_ShareSize := shareSize;
                                 pa_ExpectedShareHash := pkcrypto_SHA256Hash env share;
                                 pa_Path := SegmentPath stripe |})
                   pending (rangeMap env NodeID contained)).
Proof.
  cbv zeta. unfold createPendingAudits. split.
  - intros ->. by rewrite map_size_empty.
  - intros pending Hne. rewrite bool_decide_false.
    2:{ intros Hsize. apply Hne, map_size_empty_inv. lia. }
    destruct (infectious_NewFEC env _ _); [done|].
    destruct (fec_Rebuild env _ _ correctedShares _) as [|stripeData]; [done|].
    intros (made & -> & Hall)%pendingLoop_each. eauto.
Qed.

(** *** Reverification *)

Lemma receiveResults_all ch : ∀ n acc,
  length ch = n → receiveResults n ch acc = Returns (foldl recordResult acc ch).
Proof.
  induction ch as [|r ch IH]; intros [|n] acc Hlen; simplify_eq/=; auto.
Qed.

(** What the receiving loop has put into the report when it ends. *)
Lemma foldl_recordResult ch : ∀ report err,
  Successes (foldl recordResult (report, err) ch).1
  = Successes report ++ omap successOf ch
  ∧ Offlines (foldl recordResult (report, err) ch).1
    = Offlines report ++ omap offlineOf ch
  ∧ Fails (foldl recordResult (report, err) ch).1 = Fails report ++ omap failedOf ch
  ∧ PendingAudits (foldl recordResult (report, err) ch).1
    = PendingAudits report ++ omap containedOf ch
  ∧ ((foldl recordResult (report, err) ch).2 = None
     ↔ err = None ∧ omap erredOf ch = []).
Proof.
  induction ch as [|r ch IH]; intros report err.
  - simpl. rewrite !app_nil_r. repeat split; try done. by intros [? _].
  - cbn [foldl].
    destruct r; cbn [recordResult];
      match goal with
      | |- context [foldl recordResult (?rep, ?e) ch] =>
          destruct (IH rep e) as (HS & HO & HF & HP & HE)
      end;
      rewrite HS, HO, HF, HP, HE; cbn;
      rewrite <-?(assoc_L (++)); do 4 (split; [done|]); try done.
    split; [|by intros [_ ?]]. intros [Hc _]. by destruct err.
Qed.

(** Every result is for the node of its piece. *)
Lemma reverifyPiece_node env c stripe piece :
  nodeOf (reverifyPiece env c stripe piece).1 = NodeId piece.
Proof.
  unfold reverifyPiece, reverifyPending, failUnlessDeleted.
  repeat (case_match; simpl; try done).
Qed.

Lemma imap_nodes (pieces : list RemotePiece) :
  ∀ f : nat → RemotePiece → result * list UpdatePiecesCall,
  (∀ i piece, nodeOf (f i piece).1 = NodeId piece) →
  nodeOf <$> (imap f pieces).*1 = NodeId <$> pieces.
Proof.
  induction pieces as [|piece pieces IH]; intros f Hf; [done|].
  rewrite imap_cons. csimpl. rewrite Hf. f_equal. apply (IH (f ∘ S)).
  intros i p. apply Hf.
Qed.

Lemma reverified_nodes v stripe :
  nodeOf <$> (reverified v stripe).*1
  = NodeId <$> elems (GetRemotePieces (GetRemote (Segment stripe))).
Proof.
  unfold reverified. apply imap_nodes. intros i piece. apply reverifyPiece_node.
Qed.

(** A result adds at most one entry to the report. *)
Lemma results_count (ch : list result) :
  (length (omap successOf ch) + length (omap offlineOf ch)
   + length (omap failedOf ch) + length (omap containedOf ch) ≤ length ch)%nat.
Proof.
  induction ch as [|r ch IH]; [done|]. destruct r; csimpl in *; lia.
Qed.

(** The nodes that enter the report are nodes of results, and the node of a
    result enters the report once. *)
Lemma results_nodes (ch : list result) :
  (∀ n p, contained n p ∈ ch → pa_NodeID p = n) →
  omap successOf ch ++ omap offlineOf ch ++ omap failedOf ch
    ++ (pa_NodeID <$> omap containedOf ch)
  ≡ₚ nodeOf <$> filter (λ r, reported r = true) ch.
Proof.
  induction ch as [|r ch IH]; intros Hp; [done|].
  rewrite filter_cons.
  assert (∀ n p, contained n p ∈ ch → pa_NodeID p = n) as Hp'.
  { intros n p Hin. apply Hp. by apply list_elem_of_further. }
  specialize (IH Hp').
  destruct r as [n|n|n|n|n p|n e]; csimpl.
  - done.
  - by rewrite IH.
  - rewrite <-IH. by rewrite <-Permutation_middle.
  - rewrite <-IH.
    by rewrite (assoc_L (++)), <-Permutation_middle, <-(assoc_L (++)).
  - rewrite <-IH. rewrite (Hp n p) by apply list_elem_of_here.
    by rewrite !(assoc_L (++)), <-Permutation_middle.
  - done.
Qed.

(** Whatever the order of arrival, [Reverify] ends with the report that
    holds the results sent, sorted by their status. *)
Lemma Reverify_shape v stripe :
  arrivalOfResults v (reverified v stripe).*1 ≡ₚ (reverified v stripe).*1 →
  ∃ report err,
    Reverify v stripe = Returns (report, err, concat (reverified v stripe).*2)
    ∧ Successes report ≡ₚ omap successOf (reverified v stripe).*1
    ∧ Offlines report ≡ₚ omap offlineOf (reverified v stripe).*1
    ∧ Fails report ≡ₚ omap failedOf (reverified v stripe).*1
    ∧ PendingAudits report ≡ₚ omap containedOf (reverified v stripe).*1
    ∧ (err = None ↔ omap erredOf (reverified v stripe).*1 = []).
Proof.
  intros Harr. unfold Reverify.
  set (sent := (reverified v stripe).*1) in *.
  assert (length sent = length (elems (GetRemotePieces (GetRemote (Segment stripe)))))
    as Hlen.
  { unfold sent, reverified. by rewrite length_fmap, length_imap. }
  rewrite receiveResults_all by (by rewrite Harr, Hlen).
  destruct (foldl_recordResult (arrivalOfResults v sent)
              {| Successes := []; Fails := []; Offlines := []; PendingAudits := [] |}
              None) as (HS & HO & HF & HP & HE).
  destruct (foldl recordResult _ (arrivalOfResults v sent)) as [report err].
  simpl in *. exists report, err. split; [done|].
  rewrite HS, HO, HF, HP, HE.
  split; [by rewrite Harr|]. split; [by rewrite Harr|]. split; [by rewrite Harr|].
  split; [by rewrite Harr|].
  split; [intros [_ Hnil]|intros Hnil; split; [done|]].
  - apply Permutation_nil_r. by rewrite <-Hnil, Harr.
  - apply Permutation_nil_r. by rewrite <-Hnil, Harr.
Qed.

(** X14: whatever the order in which the results arrive, [Reverify] ends
    and gives back a report: it holds, up to their order, the nodes of the
    pieces whose result is a success, an offline node or a failure, and the
    pending audits of the pieces whose node stays contained; skipped pieces add
    nothing; the error is nil exactly when no piece ended in an error; and the
    report has at most one entry for each piece. *)
Theorem Reverify_reports v stripe :
  let sent := (reverified v stripe).*1 in
  arrivalOfResults v sent ≡ₚ sent →
  ∃ report err,
    Reverify v stripe = Returns (report, err, concat (reverified v stripe).*2)
    ∧ Successes report ≡ₚ omap successOf sent
    ∧ Offlines report ≡ₚ omap offlineOf sent
    ∧ Fails report ≡ₚ omap failedOf sent
    ∧ PendingAudits report ≡ₚ omap containedOf sent
    ∧ (err = None ↔ omap erredOf sent = [])
    ∧ (length (Successes report) + length (Offlines report) + length (Fails report)
       + length (PendingAudits report)
       ≤ length (elems (GetRemotePieces (GetRemote (Segment stripe)))))%nat.
Proof.
  intros sent Harr.
  destruct (Reverify_shape v stripe Harr) as (report & err & Hret & HS & HO & HF & HP & HE).
  exists report, err. do 6 (split; [done|]).
  rewrite HS, HO, HF, HP.
  assert (length sent = length (elems (GetRemotePieces (GetRemote (Segment stripe)))))
    as <-.
  { unfold sent, reverified. by rewrite length_fmap, length_imap. }
  apply results_count.
Qed.

Lemma Reverify_reports_witness :
  ∃ report err,
    Reverify (Fixtures.reverifier [11%N; 12%N]
                (Fixtures.failingAt 11%N Fixtures.downloadNotFound))
             (Fixtures.stripeOf Fixtures.threePieces)
    = Returns (report, err,
               concat (reverified
                         (Fixtures.reverifier [11%N; 12%N]
                            (Fixtures.failingAt 11%N Fixtures.downloadNotFound))
                         (Fixtures.stripeOf Fixtures.threePieces)).*2)
    ∧ Successes report ≡ₚ [12%N]
    ∧ Fails report ≡ₚ [11%N]
    ∧ err = None.
Proof.
  destruct (Reverify_reports
              (Fixtures.reverifier [11%N; 12%N]
                 (Fixtures.failingAt 11%N Fixtures.downloadNotFound))
              (Fixtures.stripeOf Fixtures.threePieces) (reverse_Permutation _))
    as (report & err & Hret & HS & _ & HF & _ & HE & _).
  exists report, err. split; [exact Hret|]. split; [exact HS|]. split; [exact HF|].
  apply HE. reflexivity.
Defined.

(** X15: when the pieces of the stripe are on different nodes and the
    containment store gives for a node the pending audit of that node, no node
    is reported twice by [Reverify]: the successes, the offline nodes, the
    failures and the nodes of the pending audits are pairwise disjoint, without
    repetition, and are nodes of pieces of the stripe. *)
Theorem Reverify_exclusive v stripe report err calls :
  let pieces := elems (GetRemotePieces (GetRemote (Segment stripe))) in
  arrivalOfResults v (reverified v stripe).*1 ≡ₚ (reverified v stripe).*1 →
  NoDup (NodeId <$> pieces) →
  (∀ i n pending,
     containment_Get (containmentAt v i) n = inr pending → pa_NodeID pending = n) →
  Reverify v stripe = Returns (report, err, calls) →
  NoDup (Successes report ++ Offlines report ++ Fails report
         ++ (pa_NodeID <$> PendingAudits report))
  ∧ ∀ n, n ∈ Successes report ++ Offlines report ++ Fails report
             ++ (pa_NodeID <$> PendingAudits report) →
         n ∈ NodeId <$> pieces.
Proof.
  intros pieces Harr Hnd Hpend Hret.
  destruct (Reverify_shape v stripe Harr)
    as (report' & err' & Hret' & HS & HO & HF & HP & _).
  rewrite Hret in Hret'. injection Hret' as <- <- _.
  assert (∀ n p, contained n p ∈ (reverified v stripe).*1 → pa_NodeID p = n) as Hcont.
  { intros n p Hin. apply list_elem_of_fmap in Hin as ([r c] & Hr & Hin).
    simpl in Hr. subst r. unfold reverified in Hin.
    apply elem_of_lookup_imap in Hin as (i & piece & Heq & _).
    assert ((reverifyPiece (envAt v i) (containmentAt v i) stripe piece).1
            = contained n p) as Hres by by rewrite <-Heq.
    revert Hres. unfold reverifyPiece.
    destruct (containment_Get (containmentAt v i) (NodeId piece)) as [|pending] eqn:Hget.
    { by case_match. }
    apply Hpend in Hget. unfold reverifyPending, failUnlessDeleted.
    repeat (case_match; simpl; try done); intros [= <- <-]; done. }
  assert (Successes report ++ Offlines report ++ Fails report
          ++ (pa_NodeID <$> PendingAudits report)
          ≡ₚ nodeOf <$> filter (λ r, reported r = true) (reverified v stripe).*1)
    as Hperm.
  { rewrite HS, HO, HF, HP. by apply results_nodes. }
  split.
  - rewrite Hperm. eapply sublist_NoDup; [|apply fmap_sublist, sublist_filter].
    by rewrite reverified_nodes.
  - intros n. rewrite Hperm.
    intros (r & -> & [_ Hin]%list_elem_of_filter)%list_elem_of_fmap.
    unfold pieces. rewrite <-(reverified_nodes v stripe).
    apply list_elem_of_fmap. eauto.
Qed.

Lemma Reverify_exclusive_witness :
  NoDup ([12%N] ++ [] ++ [11%N] ++ (pa_NodeID <$> [])).
Proof.
  refine (proj1 (Reverify_exclusive
            (Fixtures.reverifier [11%N; 12%N]
               (Fixtures.failingAt 11%N Fixtures.downloadNotFound))
            (Fixtures.stripeOf Fixtures.threePieces)
            {| Successes := [12%N]; Fails := [11%N]; Offlines := [];
               PendingAudits := [] |}
            None
            [{| up_path := "project/l/bucket/object";
                up_ref := Fixtures.segment Fixtures.scheme2345 Fixtures.threePieces;
                up_toAdd := []; up_toRemove := [Fixtures.piece 1 11%N] |}]
            (reverse_Permutation _) _ _ _)).
  - apply (bool_decide_unpack _). vm_compute. exact I.
  - intros i n pending. simpl. case_bool_decide; [|done]. by intros [= <-].
  - vm_compute. reflexivity.
Defined.

(** X16: the result of reverifying a piece whose node is contained, once the
    order limit is made and the node is still contained after the download. A
    transport error that is a dial timeout or has the RPC code Unknown makes
    the node offline, and any other transport error leaves it contained with
    its pending audit, also when its RPC code is NotFound. An error that is not
    a transport error leaves the node contained unless its RPC code is
    NotFound. A share that is not found, or whose hash is not the expected
    one, makes the audit fail and removes the pieces of the node from the
    pointer, unless the segment is gone, which counts as a success; a share
    with the expected hash is a success. *)
Theorem reverifyPiece_result env c stripe piece pending limit key share err :
  containment_Get c (NodeId piece) = inr pending →
  orders_CreateAuditOrderLimit c (createBucketID env (SegmentPath stripe))
    (pa_NodeID pending) (PieceNum piece) (pa_PieceID pending) (pa_ShareSize pending)
  = inr (limit, key) →
  GetShare env limit key (pa_StripeIndex pending) (pa_ShareSize pending) (PieceNum piece)
  = (share, err) →
  (∃ again, containment_GetAgain c (NodeId piece) = inr again) →
  let r := reverifyPiece env c stripe piece in
  let failure oldPointer :=
    match checkIfSegmentDeleted env (pa_Path pending) oldPointer with
    | inl _ => (success (NodeId piece), [])
    | inr current =>
        (failed (NodeId piece),
         [{| up_path := pa_Path pending; up_ref := current; up_toAdd := [];
             up_toRemove :=
               filter (λ p, NodeId p = pa_NodeID pending)
                      (elems (GetRemotePieces (GetRemote current))) |}])
    end in
  (∀ e, err = Some e → transport_Error_Has env e = true →
     (errs_Is_DeadlineExceeded env e = true ∨ errs2_IsRPC env e Unknown = true →
      r = (offline (NodeId piece), []))
     ∧ (errs_Is_DeadlineExceeded env e = false → errs2_IsRPC env e Unknown = false →
        r = (contained (NodeId piece) pending, [])))
  ∧ (∀ e, err = Some e → transport_Error_Has env e = false →
       (errs2_IsRPC env e NotFound = true → r = failure (Some (Segment stripe)))
       ∧ (errs2_IsRPC env e NotFound = false →
          r = (contained (NodeId piece) pending, [])))
  ∧ (err = None →
     (pkcrypto_SHA256Hash env (elems (sh_Data share)) = pa_ExpectedShareHash pending →
      r = (success (NodeId piece), []))
     ∧ (pkcrypto_SHA256Hash env (elems (sh_Data share)) ≠ pa_ExpectedShareHash pending →
        r = failure None)).
Proof.
  intros Hget Hlimit Hshare [again Hagain]. cbv zeta.
  assert (∀ old,
            failUnlessDeleted env pending piece old
            = match checkIfSegmentDeleted env (pa_Path pending) old with
              | inl _ => (success (NodeId piece), [])
              | inr current =>
                  (failed (NodeId piece),
                   [{| up_path := pa_Path pending; up_ref := current; up_toAdd := [];
                       up_toRemove :=
                         filter (λ p, NodeId p = pa_NodeID pending)
                                (elems (GetRemotePieces (GetRemote current))) |}])
              end) as Hfail.
  { intros old. unfold failUnlessDeleted, removeFailedPieces.
    destruct (checkIfSegmentDeleted env (pa_Path pending) old) as [|current]; [done|].
    simpl. do 3 f_equal. f_equal. apply list_filter_iff. intros p.
    by rewrite list_elem_of_singleton. }
  unfold reverifyPiece, reverifyPending.
  rewrite Hget, Hlimit, Hshare, Hagain, !Hfail.
  split; [|split].
  - intros e -> ->. split.
    + intros [->| ->]; [done|]. by destruct (errs_Is_DeadlineExceeded env e).
    + by intros -> ->.
  - intros e -> ->. split; [by intros ->|]. intros ->.
    by destruct (errs2_IsRPC env e DeadlineExceeded).
  - intros ->. split; intros Hhash.
    + by rewrite bool_decide_true.
    + by rewrite bool_decide_false.
Qed.

Lemma reverifyPiece_result_witness :
  reverifyPiece
    (Fixtures.verifier 128 Fixtures.threeLimits
       (Fixtures.segment Fixtures.scheme2345 Fixtures.threePieces)
       (Fixtures.failingAt 11%N Fixtures.transportNotFound))
    (Fixtures.containment [11%N]) (Fixtures.stripeOf Fixtures.threePieces)
    (Fixtures.piece 1 11%N)
  = (contained 11%N (Fixtures.pendingOf 11%N), []).
Proof.
  refine (proj2 (proj1 (reverifyPiece_result
            (Fixtures.verifier 128 Fixtures.threeLimits
               (Fixtures.segment Fixtures.scheme2345 Fixtures.threePieces)
               (Fixtures.failingAt 11%N Fixtures.transportNotFound))
            (Fixtures.containment [11%N]) (Fixtures.stripeOf Fixtures.threePieces)
            (Fixtures.piece 1 11%N) (Fixtures.pendingOf 11%N)
            {| StorageNodeId := 11%N; StorageNodeAddress := "" |} 1%N
            zeroShare (Some Fixtures.transportNotFound) _ _ _ _)
            Fixtures.transportNotFound eq_refl eq_refl) eq_refl eq_refl).
  - reflexivity.
  - reflexivity.
  - reflexivity.
  - eexists. reflexivity.
Defined.

Lemma omap_skipped {A} (f : result → option A) (ch : list result) :
  (∀ n, f (skipped n) = None) →
  Forall (λ r, ∃ n, r = skipped n) ch → omap f ch = [].
Proof.
  intros Hf. induction 1 as [|r ch [n ->] _ IH]; [done|]. csimpl. by rewrite Hf.
Qed.

(** X17: when none of the nodes that hold a piece of the stripe is in the
    containment store, [Reverify] gives back an empty report and a nil error
    and asks for no update of the pointer. *)
Theorem Reverify_nothing_contained v stripe :
  arrivalOfResults v (reverified v stripe).*1 ≡ₚ (reverified v stripe).*1 →
  (∀ (i : nat) piece,
     elems (GetRemotePieces (GetRemote (Segment stripe))) !! i = Some piece →
     ∃ e, containment_Get (containmentAt v i) (NodeId piece) = inl e
          ∧ ErrContainedNotFound_Has (containmentAt v i) e = true) →
  Reverify v stripe
  = Returns ({| Successes := []; Fails := []; Offlines := []; PendingAudits := [] |},
             None, []).
Proof.
  intros Harr Hnone.
  assert (Forall (λ rc, ∃ n, rc = (skipped n, [])) (reverified v stripe)) as Hall.
  { apply Forall_forall. intros rc Hin. unfold reverified in Hin.
    apply elem_of_lookup_imap in Hin as (i & piece & -> & Hi).
    destruct (Hnone i piece Hi) as (e & Hget & Hnot).
    unfold reverifyPiece. rewrite Hget, Hnot. eauto. }
  assert (Forall (λ r, ∃ n, r = skipped n) (reverified v stripe).*1) as Hskipped.
  { apply Forall_fmap. eapply Forall_impl; [exact Hall|].
    intros rc [n ->]. simpl. eauto. }
  assert (concat (reverified v stripe).*2 = []) as Hcalls.
  { clear Harr Hskipped.
    induction Hall as [|rc l [n ->] _ IH]; [done|]. csimpl. exact IH. }
  destruct (Reverify_shape v stripe Harr)
    as ([S F O P] & err & -> & HS & HO & HF & HP & HE).
  simpl in *. rewrite Hcalls.
  rewrite (omap_skipped successOf) in HS by done.
  rewrite (omap_skipped offlineOf) in HO by done.
  rewrite (omap_skipped failedOf) in HF by done.
  rewrite (omap_skipped containedOf) in HP by done.
  apply Permutation_nil_r in HS, HO, HF, HP. subst.
  assert (err = None) as ->; [|done].
  apply HE. by apply omap_skipped.
Qed.

Lemma Reverify_nothing_contained_witness :
  Reverify (Fixtures.reverifier [] Fixtures.noFailure)
           (Fixtures.stripeOf Fixtures.threePieces)
  = Returns ({| Successes := []; Fails := []; Offlines := []; PendingAudits := [] |},
             None, []).
Proof.
  apply (Reverify_nothing_contained (Fixtures.reverifier [] Fixtures.noFailure)
           (Fixtures.stripeOf Fixtures.threePieces) (reverse_Permutation _)).
  intros i piece _. exists Fixtures.notContained. split; reflexivity.
Defined.

End AuditProps.


(** ** The segment-health observer *)

Module CheckerProps.

Import Go pb Checker GoProps.

(** C2: for a remote segment whose missing pieces the reliability cache has
    listed, the observer inserts the injured segment [(path, missing, now)]
    into the repair queue if and only if [k < numHealthy <= r], [numHealthy <
    s] and some piece is missing, where [numHealthy = |pieces| - |missing|];
    it inserts nothing else; and with [k = r = s] it never inserts. *)
Theorem RemoteSegment_insert env monStats path pointer remote :
  Remote pointer = Some remote →
  (∀ missing,
     nodestate_MissingPieces env (CreationDate pointer) (elems (RemotePieces remote))
     = inr missing →
     len missing ≤ len (elems (RemotePieces remote)) ≤ MaxInt32 →
     let numHealthy := len (elems (RemotePieces remote)) - len missing in
     let calls := (RemoteSegment env monStats path pointer).2 in
     (CallInsert {| is_Path := path; is_LostPieces := missing;
                    is_InsertedTime := time_Now env |} ∈ calls
      ↔ MinReq (Redundancy remote) < numHealthy
        ∧ numHealthy ≤ RepairThreshold (Redundancy remote)
        ∧ numHealthy < SuccessThreshold (Redundancy remote)
        ∧ missing ≠ [])
     ∧ (∀ seg, CallInsert seg ∈ calls →
          seg = {| is_Path := path; is_LostPieces := missing;
                   is_InsertedTime := time_Now env |}))
  ∧ (MinReq (Redundancy remote) = RepairThreshold (Redundancy remote) →
     RepairThreshold (Redundancy remote) = SuccessThreshold (Redundancy remote) →
     ∀ seg, CallInsert seg ∉ (RemoteSegment env monStats path pointer).2).
Proof.
  intros Hrem. unfold RemoteSegment, GetRemotePieces, GetRemote. rewrite Hrem. simpl.
  split.
  - intros missing Hmiss Hlen.
    destruct (RemotePieces remote) as [pieces|] eqn:Hp; simpl in *.
    + rewrite Hmiss. rewrite int32_small by (unfold len, MinInt32, MaxInt32 in *; lia).
      repeat case_bool_decide; simpl.
      all: try destruct (repairQueue_Insert env _).
      all: rewrite ?len_nil_iff in *.
      all: set_unfold.
      all: split; [split|]; intros; destruct_and?; destruct_or?; simplify_eq;
        try done; try lia; try (exfalso; lia); eauto 10.
      all: repeat split; first [done | lia].
    + assert (missing = []) as -> by (apply len_nil_iff; unfold len in *; simpl in *; lia).
      split; [|by intros seg ?%elem_of_nil].
      split; [by intros ?%elem_of_nil|]. naive_solver.
  - intros Hkr Hrs seg.
    destruct (RemotePieces remote) as [pieces|]; simpl; [|by apply not_elem_of_nil].
    destruct (nodestate_MissingPieces env (CreationDate pointer) pieces);
      simpl; [by apply not_elem_of_nil|].
    repeat case_bool_decide; simpl; try (by apply not_elem_of_nil); try lia.
    all: set_unfold; naive_solver.
Qed.

Lemma RemoteSegment_insert_witness :
  CallInsert {| is_Path := "project/l/bucket/object"; is_LostPieces := [3; 4];
                is_InsertedTime := 777 |}
  ∈ (RemoteSegment (Fixtures.observer [3; 4]) Fixtures.noStats
       "project/l/bucket/object"
       (Fixtures.segment Fixtures.scheme2345 Fixtures.fivePieces)).2.
Proof.
  apply (proj1 (RemoteSegment_insert (Fixtures.observer [3; 4]) Fixtures.noStats
                  "project/l/bucket/object"
                  (Fixtures.segment Fixtures.scheme2345 Fixtures.fivePieces)
                  _ eq_refl) [3; 4]).
  - reflexivity.
  - vm_compute. split; discriminate.
  - vm_compute. repeat split; discriminate.
Defined.

(** *** What the observer returns, calls and counts *)

(** X18: the observer returns an error only when the reliability cache
    fails to list the missing pieces of a segment that has pieces: the error
    then combines a checker error with the cache's, and neither the repair
    queue nor the irreparable store is called. The errors of the queue and of
    the store are never returned. *)
Theorem RemoteSegment_error env monStats path pointer err :
  (RemoteSegment env monStats path pointer).1.1 = Some err ↔
  ∃ pieces e,
    GetRemotePieces (GetRemote pointer) = Some pieces
    ∧ nodestate_MissingPieces env (CreationDate pointer) pieces = inl e
    ∧ err = Combined (New ClsChecker "error getting missing pieces") e
    ∧ (RemoteSegment env monStats path pointer).2 = [].
Proof.
  unfold RemoteSegment, GetRemotePieces, GetRemote.
  destruct (Remote pointer) as [remote|]; simpl.
  2:{ split; [done|]. intros (? & ? & ? & _). simplify_eq/=. }
  destruct (RemotePieces remote) as [pieces|]; simpl.
  2:{ split; [done|]. intros (? & ? & ? & _). simplify_eq/=. }
  destruct (nodestate_MissingPieces env (CreationDate pointer) pieces) as [e|missing]
    eqn:Hm; simpl.
  - split.
    + intros [= <-]. by exists pieces, e.
    + intros (pieces' & e' & [= <-] & He & -> & _). congruence.
  - split; [|intros (pieces' & e' & [= <-] & He & _); congruence].
    repeat (case_match; simpl; try done).
Qed.

(** X19: for a segment whose missing pieces the reliability cache has listed,
    the observer records the segment in the irreparable store exactly when
    [numHealthy <= k] and [numHealthy < r], with the number of missing pieces
    and an attempt count of one; a segment is never both queued for repair and
    recorded as irreparable; and the entry of the irreparable store is deleted
    only for the path of a segment the queue has taken. *)
Theorem RemoteSegment_irreparable env monStats path pointer remote pieces missing :
  Remote pointer = Some remote →
  RemotePieces remote = Some pieces →
  nodestate_MissingPieces env (CreationDate pointer) pieces = inr missing →
  len missing ≤ len pieces ≤ MaxInt32 →
  let numHealthy := len pieces - len missing in
  let calls := (RemoteSegment env monStats path pointer).2 in
  (∀ seg, CallIncrementRepairAttempts seg ∈ calls ↔
     numHealthy ≤ MinReq (Redundancy remote)
     ∧ numHealthy < RepairThreshold (Redundancy remote)
     ∧ seg = {| irr_Path := path; irr_SegmentDetail := pointer;
                irr_LostPieces := len missing;
                irr_LastRepairAttempt := time_NowUnix env;
                irr_RepairAttemptCount := 1 |})
  ∧ (∀ seg seg', CallInsert seg ∈ calls → CallIncrementRepairAttempts seg' ∉ calls)
  ∧ (∀ p, CallDelete p ∈ calls →
       p = path
       ∧ ∃ seg, CallInsert seg ∈ calls ∧ repairQueue_Insert env seg = None).
Proof.
  intros Hrem Hp Hmiss Hlen. cbv zeta.
  unfold RemoteSegment, GetRemotePieces, GetRemote. rewrite Hrem. simpl.
  rewrite Hp, Hmiss.
  rewrite !int32_small by (unfold len, MinInt32, MaxInt32 in *; lia).
  repeat case_bool_decide; simpl.
  all: try destruct (repairQueue_Insert env _) eqn:Hins.
  all: split; [|split].
  all: set_unfold.
  all: try (intros; split; intros; destruct_and?; destruct_or?; simplify_eq; try done;
            try lia; eauto 10; fail).
  all: try (intros; destruct_and?; destruct_or?; simplify_eq; try done; try lia;
            eauto 10; fail).
  all: try naive_solver.
Qed.

Lemma RemoteSegment_irreparable_witness :
  CallIncrementRepairAttempts
    {| irr_Path := "project/l/bucket/object";
       irr_SegmentDetail := Fixtures.segment Fixtures.scheme2345 Fixtures.fivePieces;
       irr_LostPieces := 3; irr_LastRepairAttempt := 7; irr_RepairAttemptCount := 1 |}
  ∈ (RemoteSegment (Fixtures.observer [2; 3; 4]) Fixtures.noStats
       "project/l/bucket/object"
       (Fixtures.segment Fixtures.scheme2345 Fixtures.fivePieces)).2.
Proof.
  apply (proj1 (RemoteSegment_irreparable (Fixtures.observer [2; 3; 4]) Fixtures.noStats
                  "project/l/bucket/object"
                  (Fixtures.segment Fixtures.scheme2345 Fixtures.fivePieces)
                  _ Fixtures.fivePieces [2; 3; 4] eq_refl eq_refl eq_refl
                  ltac:(vm_compute; split; discriminate))).
  vm_compute. repeat split; discriminate.
Defined.

(** [contains] tells whether the string is in the slice. *)
Lemma contains_elem_of a x : contains a x = true ↔ x ∈ a.
Proof.
  induction a as [|n rest IH]; simpl.
  - split; [done|]. by intros ?%elem_of_nil.
  - case_bool_decide as Heq.
    + subst. split; [intros _; apply list_elem_of_here|done].
    + rewrite IH, elem_of_cons. naive_solver.
Qed.

(** X20: every call of the observer on a remote segment counts one more
    segment checked and leaves the count of files as it was; it counts one more
    segment needing repair exactly when it hands a segment to the repair queue,
    and one more lost segment exactly when it records a segment in the
    irreparable store. So the segments needing repair and the lost ones never
    outnumber the segments checked. *)
Theorem RemoteSegment_counts env monStats path pointer :
  0 ≤ remoteSegmentsNeedingRepair monStats →
  0 ≤ remoteSegmentsLost monStats →
  remoteSegmentsNeedingRepair monStats + remoteSegmentsLost monStats
    ≤ remoteSegmentsChecked monStats →
  remoteSegmentsChecked monStats < MaxInt64 →
  let after := (RemoteSegment env monStats path pointer).1.2 in
  let calls := (RemoteSegment env monStats path pointer).2 in
  remoteSegmentsChecked after = remoteSegmentsChecked monStats + 1
  ∧ remoteFilesChecked after = remoteFilesChecked monStats
  ∧ ((∃ seg, CallInsert seg ∈ calls) →
     remoteSegmentsNeedingRepair after = remoteSegmentsNeedingRepair monStats + 1)
  ∧ ((∀ seg, CallInsert seg ∉ calls) →
     remoteSegmentsNeedingRepair after = remoteSegmentsNeedingRepair monStats)
  ∧ ((∃ seg, CallIncrementRepairAttempts seg ∈ calls) →
     remoteSegmentsLost after = remoteSegmentsLost monStats + 1)
  ∧ ((∀ seg, CallIncrementRepairAttempts seg ∉ calls) →
     remoteSegmentsLost after = remoteSegmentsLost monStats)
  ∧ 0 ≤ remoteSegmentsNeedingRepair after
  ∧ 0 ≤ remoteSegmentsLost after
  ∧ remoteSegmentsNeedingRepair after + remoteSegmentsLost after
    ≤ remoteSegmentsChecked after.
Proof.
  intros Hn Hl Hsum Hmax. cbv zeta.
  unfold RemoteSegment, setChecked, setNeedingRepair, setLost.
  unfold MaxInt64 in *.
  repeat (case_match; simpl).
  all: rewrite ?int64_small by (unfold MinInt64, MaxInt64; lia).
  all: set_unfold.
  all: repeat split; try lia.
  all: try (intros [seg Hseg]; destruct_or?; simplify_eq; done).
  all: intros Hno; exfalso; eapply Hno; eauto.
Qed.

Lemma RemoteSegment_counts_witness :
  remoteSegmentsChecked
    (RemoteSegment (Fixtures.observer [3; 4]) Fixtures.noStats "project/l/bucket/object"
       (Fixtures.segment Fixtures.scheme2345 Fixtures.fivePieces)).1.2
  = remoteSegmentsChecked Fixtures.noStats + 1.
Proof.
  refine (proj1 (RemoteSegment_counts (Fixtures.observer [3; 4]) Fixtures.noStats
                   "project/l/bucket/object"
                   (Fixtures.segment Fixtures.scheme2345 Fixtures.fivePieces) _ _ _ _)).
  all: unfold MaxInt64; simpl; lia.
Defined.

(** X21: the list of lost files the observer keeps never holds a file twice:
    a call leaves the list as it was or adds one entry that was not in it. *)
Theorem RemoteSegment_lost_files env monStats path pointer :
  NoDup (remoteSegmentInfo monStats) →
  let after := (RemoteSegment env monStats path pointer).1.2 in
  NoDup (remoteSegmentInfo after)
  ∧ (remoteSegmentInfo after = remoteSegmentInfo monStats
     ∨ ∃ lostSegInfo,
         (lostSegInfo ∉ remoteSegmentInfo monStats)
         ∧ remoteSegmentInfo after = remoteSegmentInfo monStats ++ [lostSegInfo]
         ∧ remoteSegmentsLost after = int64 (remoteSegmentsLost monStats + 1)).
Proof.
  intros Hnd. cbv zeta. unfold RemoteSegment, setChecked, setNeedingRepair, setLost.
  repeat (case_match; simpl); try (split; [done|by left]).
  all: match goal with
       | H : contains _ ?x = false |- _ =>
           assert (x ∉ remoteSegmentInfo monStats) as Hnot
             by (rewrite <-contains_elem_of, H; discriminate)
       end.
  all: split; [|right; eexists; split; [exact Hnot|done]].
  all: apply NoDup_app; split; [done|]; split; [|apply NoDup_singleton].
  all: by intros x Hx ->%list_elem_of_singleton.
Qed.

Lemma RemoteSegment_lost_files_witness :
  NoDup (remoteSegmentInfo
           (RemoteSegment (Fixtures.observer [2; 3; 4]) Fixtures.noStats
              "project/l/bucket/object"
              (Fixtures.segment Fixtures.scheme2345 Fixtures.fivePieces)).1.2).
Proof.
  apply (RemoteSegment_lost_files (Fixtures.observer [2; 3; 4]) Fixtures.noStats
           "project/l/bucket/object"
           (Fixtures.segment Fixtures.scheme2345 Fixtures.fivePieces)).
  simpl. constructor.
Defined.

(** *** The irreparable segments looked at again *)

(** X22: [updateIrreparableSegmentStatus] does nothing for a nil pointer; for
    a pointer it makes the calls the observer makes for the same segment, and
    returns an error exactly when the missing pieces could not be listed, the
    repair queue refused the segment, or the irreparable store refused the
    entry. *)
Theorem updateIrreparableSegmentStatus_calls env monStats path pointer :
  updateIrreparableSegmentStatus env None path = (None, [])
  ∧ (updateIrreparableSegmentStatus env (Some pointer) path).2
    = (RemoteSegment env monStats path pointer).2
  ∧ ((updateIrreparableSegmentStatus env (Some pointer) path).1 ≠ None ↔
     (RemoteSegment env monStats path pointer).1.1 ≠ None
     ∨ (∃ seg e, CallInsert seg
                 ∈ (updateIrreparableSegmentStatus env (Some pointer) path).2
                 ∧ repairQueue_Insert env seg = Some e)
     ∨ (∃ seg e, CallIncrementRepairAttempts seg
                 ∈ (updateIrreparableSegmentStatus env (Some pointer) path).2
                 ∧ irrdb_IncrementRepairAttempts env seg = Some e)).
Proof.
  split; [done|].
  unfold updateIrreparableSegmentStatus, RemoteSegment, GetRemotePieces, GetRemote.
  simpl. destruct (Remote pointer) as [remote|]; simpl.
  2:{ split; [done|]. set_unfold. naive_solver. }
  destruct (RemotePieces remote) as [pieces|]; simpl.
  2:{ split; [done|]. set_unfold. naive_solver. }
  destruct (nodestate_MissingPieces env (CreationDate pointer) pieces)
    as [e|missing]; simpl.
  { split; [done|]. set_unfold. naive_solver. }
  repeat case_bool_decide; simpl.
  all: try destruct (repairQueue_Insert env _) eqn:Hins; simpl.
  all: try destruct (irrdb_IncrementRepairAttempts env _) eqn:Hinc; simpl.
  all: split; [done|].
  all: set_unfold.
  all: split; [intros ?|intros [?|[(? & ? & ? & ?)|(? & ? & ? & ?)]]];
    destruct_or?; simplify_eq; try done; eauto 10.
Qed.

Lemma updateSegments_cons w seg rest history :
  updateSegments w (seg :: rest) history
  = updateSegments w rest
      (history ++
       [EvUpdate (irr_Path seg)
          (updateIrreparableSegmentStatus (checkerAt w history)
             (Some (irr_SegmentDetail seg)) (irr_Path seg)).2
          (updateIrreparableSegmentStatus (checkerAt w history)
             (Some (irr_SegmentDetail seg)) (irr_Path seg)).1]).
Proof.
  unfold updateSegments. cbn [foldl].
  by destruct (updateIrreparableSegmentStatus (checkerAt w history)
                 (Some (irr_SegmentDetail seg)) (irr_Path seg)).
Qed.

(** The loop over a page adds one event for each segment, in order. *)
Lemma updateSegments_events w segments : ∀ history,
  ∃ events,
    updateSegments w segments history = history ++ events
    ∧ Forall2 (λ ev seg, ∃ calls err, ev = EvUpdate (irr_Path seg) calls err)
              events segments.
Proof.
  induction segments as [|seg rest IH]; intros history.
  - exists []. split; [by rewrite app_nil_r|constructor].
  - rewrite updateSegments_cons.
    destruct (IH (history ++
                  [EvUpdate (irr_Path seg)
                     (updateIrreparableSegmentStatus (checkerAt w history)
                        (Some (irr_SegmentDetail seg)) (irr_Path seg)).2
                     (updateIrreparableSegmentStatus (checkerAt w history)
                        (Some (irr_SegmentDetail seg)) (irr_Path seg)).1]))
      as (events & Heq & Hall).
    eexists (_ :: events). split.
    + rewrite Heq. by rewrite <-(assoc_L (++)).
    + constructor; [eauto|done].
Qed.

Lemma updates_paths events segments :
  Forall2 (λ ev seg, ∃ calls err, ev = EvUpdate (irr_Path seg) calls err)
          events segments →
  updatedPaths events = irr_Path <$> segments ∧ pagesRead events = [].
Proof.
  induction 1 as [|ev seg events segments (calls & err & ->) _ [IH1 IH2]]; [done|].
  split; [|exact IH2]. rewrite fmap_cons, <-IH1. reflexivity.
Qed.

Lemma updatedPaths_app h1 h2 : updatedPaths (h1 ++ h2) = updatedPaths h1 ++ updatedPaths h2.
Proof. unfold updatedPaths. by rewrite omap_app. Qed.

Lemma pagesRead_app h1 h2 : pagesRead (h1 ++ h2) = pagesRead h1 ++ pagesRead h2.
Proof. unfold pagesRead. by rewrite omap_app. Qed.

Lemma IrreparableLoop_pages w pages : ∀ cursor history fuel,
  serves w cursor pages →
  (length pages < fuel)%nat →
  ∃ events,
    IrreparableLoop fuel w cursor history = Some (None, history ++ events)
    ∧ updatedPaths events = irr_Path <$> concat pages
    ∧ length (pagesRead events) = S (length pages).
Proof.
  induction pages as [|page rest IH]; intros cursor history [|fuel] Hserves Hfuel;
    simpl in *; try lia.
  - rewrite Hserves. simpl. exists [EvGetLimited 1000 cursor]. done.
  - destruct Hserves as (Hne & Hpage & Hrest). rewrite Hpage.
    rewrite bool_decide_false by (by rewrite len_nil_iff).
    destruct (updateSegments_events w page (history ++ [EvGetLimited 1000 cursor]))
      as (events & -> & Hall).
    apply updates_paths in Hall as [Hpaths Hreads].
    destruct (IH (from_option irr_Path cursor (last page))
                 ((history ++ [EvGetLimited 1000 cursor]) ++ events) fuel Hrest)
      as (events' & -> & Hpaths' & Hreads'); [lia|].
    exists ([EvGetLimited 1000 cursor] ++ events ++ events'). split; [|split].
    + by rewrite <-!(assoc_L (++)).
    + rewrite !updatedPaths_app, Hpaths, Hpaths', fmap_app. done.
    + rewrite !pagesRead_app, Hreads, !length_app, Hreads'. simpl. lia.
Qed.

(** X23: when the irreparable store holds a number of pages that do not
    change while they are read, [IrreparableProcess] ends, whatever the bound
    above the number of pages: it returns nil, has read each page and once
    more, and has looked again at every segment of every page, once and in
    order. The errors it meets on the segments do not stop it. *)
Theorem IrreparableProcess_pages w pages fuel :
  serves w "" pages →
  (length pages < fuel)%nat →
  ∃ history,
    IrreparableProcess fuel w = Some (None, history)
    ∧ updatedPaths history = irr_Path <$> concat pages
    ∧ length (pagesRead history) = S (length pages).
Proof.
  intros Hserves Hfuel.
  destruct (IrreparableLoop_pages w pages "" [] fuel Hserves Hfuel)
    as (events & Heq & Hpaths & Hreads).
  exists events. done.
Qed.

Lemma IrreparableProcess_pages_witness :
  ∃ history,
    IrreparableProcess 3 (Fixtures.irreparableStore [2; 3; 4]) = Some (None, history)
    ∧ updatedPaths history = ["a"; "b"; "c"]%string
    ∧ length (pagesRead history) = 3%nat.
Proof.
  apply (IrreparableProcess_pages (Fixtures.irreparableStore [2; 3; 4])
           [[Fixtures.lostSegment "a"; Fixtures.lostSegment "b"];
            [Fixtures.lostSegment "c"]] 3).
  - simpl. repeat split; try done.
  - simpl. lia.
Defined.


Lemma readsInOrder_read history cursor :
  readsInOrder history → cursorAfter history cursor →
  readsInOrder (history ++ [EvGetLimited 1000 cursor]).
Proof.
  intros Hreads Hcur before limit c rest Heq.
  destruct rest as [|x rest _] using rev_ind.
  - apply app_inj_tail in Heq as [<- [= <- <-]]. done.
  - rewrite app_comm_cons, (assoc_L (++)) in Heq.
    apply app_inj_tail in Heq as [-> _]. by eapply Hreads.
Qed.

Lemma readsInOrder_update history path calls err :
  readsInOrder history → readsInOrder (history ++ [EvUpdate path calls err]).
Proof.
  intros Hreads before limit c rest Heq.
  destruct rest as [|x rest _] using rev_ind.
  - by apply app_inj_tail in Heq as [_ ?].
  - rewrite app_comm_cons, (assoc_L (++)) in Heq.
    apply app_inj_tail in Heq as [-> _]. by eapply Hreads.
Qed.

Lemma updateSegments_reads w segments : ∀ history,
  readsInOrder history →
  readsInOrder (updateSegments w segments history)
  ∧ ∀ seg, last segments = Some seg →
      cursorAfter (updateSegments w segments history) (irr_Path seg).
Proof.
  induction segments as [|seg rest IH]; intros history Hreads.
  - split; [done|]. by intros seg.
  - rewrite updateSegments_cons.
    destruct (IH (history ++
                  [EvUpdate (irr_Path seg)
                     (updateIrreparableSegmentStatus (checkerAt w history)
                        (Some (irr_SegmentDetail seg)) (irr_Path seg)).2
                     (updateIrreparableSegmentStatus (checkerAt w history)
                        (Some (irr_SegmentDetail seg)) (irr_Path seg)).1]))
      as [Hreads' Hlast]; [by apply readsInOrder_update|].
    split; [done|]. intros seg' Hseg'.
    destruct rest as [|seg'' rest].
    + simpl in Hseg'. injection Hseg' as <-. unfold cursorAfter, updateSegments.
      cbn [foldl]. rewrite last_snoc. eauto.
    + apply Hlast. by rewrite last_cons_cons in Hseg'.
Qed.

Lemma IrreparableLoop_reads w fuel : ∀ cursor history err result,
  readsInOrder history → cursorAfter history cursor →
  IrreparableLoop fuel w cursor history = Some (err, result) →
  (∃ before c,
     result = before ++ [EvGetLimited 1000 c]
     ∧ match irrdb_GetLimited w before 1000 c with
       | inl e =>
           err = Some (Combined (New ClsChecker "error reading segment from the queue") e)
       | inr segments => segments = [] ∧ err = None
       end)
  ∧ readsInOrder result.
Proof.
  induction fuel as [|fuel IH]; intros cursor history err result Hreads Hcur; [done|].
  simpl.
  destruct (irrdb_GetLimited w history 1000 cursor) as [e|segments] eqn:Hget.
  - intros [= <- <-]. split; [|by apply readsInOrder_read].
    exists history, cursor. by rewrite Hget.
  - case_bool_decide as Hlen.
    + intros [= <- <-]. split; [|by apply readsInOrder_read].
      exists history, cursor. rewrite Hget. by apply len_nil_iff in Hlen.
    + intros Hloop.
      destruct (updateSegments_reads w segments (history ++ [EvGetLimited 1000 cursor]))
        as [Hreads' Hlast]; [by apply readsInOrder_read|].
      destruct (last segments) as [seg|] eqn:Hseg.
      * eapply IH; [exact Hreads'|by apply Hlast|exact Hloop].
      * apply last_None in Hseg. subst. done.
Qed.

(** X24: when [IrreparableProcess] ends, it ends on a read of the
    irreparable store that failed or found no segment, and it returns an error
    exactly when that read failed, whatever happened with the segments; every
    read asked for 1000 segments, the first from the empty path and every other
    one from the path of the segment looked at just before it. *)
Theorem IrreparableProcess_reads w fuel err history :
  IrreparableProcess fuel w = Some (err, history) →
  (∃ before cursor,
     history = before ++ [EvGetLimited 1000 cursor]
     ∧ match irrdb_GetLimited w before 1000 cursor with
       | inl e =>
           err = Some (Combined (New ClsChecker "error reading segment from the queue") e)
       | inr segments => segments = [] ∧ err = None
       end)
  ∧ readsInOrder history.
Proof.
  apply IrreparableLoop_reads.
  - intros before limit cursor rest Heq. by destruct before.
  - done.
Qed.

Lemma IrreparableProcess_reads_witness :
  readsInOrder [EvGetLimited 1000 ""].
Proof.
  refine (proj2 (IrreparableProcess_reads Fixtures.brokenStore 1
                   (Some (Combined (New ClsChecker "error reading segment from the queue")
                            (External "database is locked" Fixtures.plainFacts)))
                   [EvGetLimited 1000 ""] _)).
  reflexivity.
Defined.

End CheckerProps.

(** ** The segment repairer *)

Module RepairerProps.

Import Go pb Repairer GoProps.

(** [sliceToSet] holds exactly the values of the slice. *)
Lemma sliceToSet_lookup slice k :
  lookupBool (sliceToSet slice) k = bool_decide (k ∈ slice).
Proof.
  unfold sliceToSet, lookupBool.
  assert (∀ m : gmap Z bool,
            foldl (λ set value, <[value := true]> set) m slice !! k
            = if bool_decide (k ∈ slice) then Some true else m !! k) as ->.
  { induction slice as [|v slice IH]; intros m.
    - case_bool_decide as Hin; [by apply elem_of_nil in Hin|done].
    - simpl foldl. rewrite IH. rewrite lookup_insert.
      repeat case_bool_decide; repeat case_decide; set_solver. }
  rewrite lookup_empty. by case_bool_decide.
Qed.

(** The loop over the pieces keeps the node IDs of all pieces, and splits the
    pieces into those whose number is not lost and those whose number is. *)
Lemma sortPieces_spec lostPiecesSet pieces :
  sortPieces lostPiecesSet pieces
  = (NodeId <$> pieces,
     filter (λ piece, lookupBool lostPiecesSet (PieceNum piece) = false) pieces,
     filter (λ piece, lookupBool lostPiecesSet (PieceNum piece) = true) pieces).
Proof.
  unfold sortPieces.
  assert (∀ a b c,
    foldl (λ '(excludeNodeIDs, healthyPieces, unhealthyPieces) piece,
             if negb (lookupBool lostPiecesSet (PieceNum piece))
             then (excludeNodeIDs ++ [NodeId piece], healthyPieces ++ [piece],
                   unhealthyPieces)
             else (excludeNodeIDs ++ [NodeId piece], healthyPieces,
                   unhealthyPieces ++ [piece]))
          (a, b, c) pieces
    = (a ++ (NodeId <$> pieces),
       b ++ filter (λ piece, lookupBool lostPiecesSet (PieceNum piece) = false) pieces,
       c ++ filter (λ piece, lookupBool lostPiecesSet (PieceNum piece) = true) pieces))
    as ->; [|done].
  induction pieces as [|piece pieces IH]; intros a b c; simpl.
  - by rewrite !filter_nil, !app_nil_r.
  - rewrite !filter_cons.
    destruct (lookupBool lostPiecesSet (PieceNum piece)) eqn:E; simpl; rewrite IH;
      repeat case_decide; try done; by rewrite <-!(assoc_L (++)).
Qed.

(** On a partial repair, the pieces to remove are the unhealthy pieces whose
    number is in the map of repaired numbers. *)
Lemma piecesToRemove_spec healthyAfterRepair redundancy unhealthyPieces repairedMap :
  piecesToRemove healthyAfterRepair redundancy unhealthyPieces repairedMap
  = if bool_decide (healthyAfterRepair >= SuccessThreshold redundancy)
    then unhealthyPieces
    else filter (λ piece, lookupBool repairedMap (PieceNum piece) = true) unhealthyPieces.
Proof.
  unfold piecesToRemove. case_bool_decide; [done|].
  assert (∀ acc,
    foldl (λ toRemove piece,
             if lookupBool repairedMap (PieceNum piece)
             then toRemove ++ [piece] else toRemove) acc unhealthyPieces
    = acc ++ filter (λ piece, lookupBool repairedMap (PieceNum piece) = true)
               unhealthyPieces) as ->; [|done].
  induction unhealthyPieces as [|piece rest IH]; intros acc; simpl.
  - by rewrite filter_nil, app_nil_r.
  - rewrite IH, filter_cons.
    destruct (lookupBool repairedMap (PieceNum piece)) eqn:E;
      case_decide; try done; by rewrite <-(assoc_L (++)).
Qed.

(** The loop over the uploaded nodes makes no call; when it ends, the map of
    repaired numbers holds exactly the numbers of the repaired pieces. *)
Lemma collectRepaired_spec successfulNodes hashes :
  ∀ i repairedPieces (repairedMap : gmap Z bool) t r,
  (∀ k, lookupBool repairedMap k = true ↔ k ∈ PieceNum <$> repairedPieces) →
  collectRepaired i successfulNodes hashes repairedPieces repairedMap = (t, r) →
  t = [] ∧
  match r with
  | Val (repairedPieces', repairedMap') =>
      ∀ k, lookupBool repairedMap' k = true ↔ k ∈ PieceNum <$> repairedPieces'
  | Ret _ => False
  | Panic _ => True
  end.
Proof.
  induction successfulNodes as [|[node|] rest IH];
    intros i repairedPieces repairedMap t r Hinv; simpl.
  - by intros [= <- <-].
  - destruct (hashes !! i) as [hash|]; [|by intros [= <- <-]].
    apply IH. intros k. rewrite fmap_app, elem_of_app, <-Hinv. simpl.
    unfold lookupBool. rewrite lookup_insert. case_decide; simpl; set_solver.
  - apply IH, Hinv.
Qed.

(** The calls of a sequence are those of its first part and, when that part
    yields a value, those of what follows. *)
Lemma elem_of_bind {A B} (m : M A) (k : A → M B) c :
  c ∈ (m ≫= k).1 ↔ c ∈ m.1 ∨ ∃ a, m.2 = Val a ∧ c ∈ (k a).1.
Proof.
  unfold mbind, M_bind, bind. destruct m as [t [a|e|msg]]; simpl.
  - destruct (k a) as [t' r] eqn:E. simpl. rewrite elem_of_app. split.
    + intros [?|?]; [by left|]. right. exists a. by rewrite E.
    + intros [?|(a' & [= <-] & Hc)]; [by left|]. right. by rewrite E in Hc.
  - naive_solver.
  - naive_solver.
Qed.

Lemma try_inv {A} (r : error + A) mk c :
  (c ∉ (try r mk).1) ∧ ∀ a, (try r mk).2 = Val a → r = inr a.
Proof.
  destruct r; simpl; split; try apply not_elem_of_nil; by intros a' [= ->].
Qed.

Lemma tryOpt_inv (r : option error) mk c :
  (c ∉ (tryOpt r mk).1) ∧ ∀ a, (tryOpt r mk).2 = Val a → r = None.
Proof. destruct r; simpl; split; try apply not_elem_of_nil; done. Qed.

Lemma elem_of_deferClose {A} env (m : M A) c :
  c ∈ (deferClose env m).1 → c ∈ m.1 ∨ c = CallClose.
Proof.
  destruct m as [t [a|e|msg]]; simpl; rewrite ?elem_of_app; set_solver.
Qed.

(** The update of the pointer asked for by the last stage of [Repair]. *)
(** A call that is not among the few calls of a step. *)
Ltac absent H := exfalso; simpl in H; set_unfold; naive_solver.

Lemma uploadAndUpdate_update env path pointer remote redundancy expiration
    putLimits putPrivateKey healthyPieces unhealthyPieces path' ref toAdd toRemove :
  CallUpdatePieces path' ref toAdd toRemove
  ∈ (uploadAndUpdate env path pointer remote redundancy expiration putLimits
       putPrivateKey healthyPieces unhealthyPieces).1 →
  path' = path ∧ ref = pointer
  ∧ toRemove
    = if bool_decide (int32 (len healthyPieces + len toAdd)
                      >= SuccessThreshold (Redundancy remote))
      then unhealthyPieces
      else filter (λ piece, PieceNum piece ∈ PieceNum <$> toAdd) unhealthyPieces.
Proof.
  unfold uploadAndUpdate. intros Hin.
  apply elem_of_bind in Hin as [Hin|(_ & _ & Hin)]; [absent Hin|].
  apply elem_of_bind in Hin as [Hin|([nodes hashes] & Hup & Hin)];
    [by apply try_inv in Hin|].
  apply elem_of_bind in Hin as [Hin|([repairedPieces repairedMap] & Hcol & Hin)].
  - destruct (collectRepaired 0 nodes hashes [] ∅) as [t r] eqn:E.
    apply collectRepaired_spec in E as [-> _]; [absent Hin|].
    intros k. unfold lookupBool. rewrite lookup_empty. set_solver.
  - destruct (collectRepaired 0 nodes hashes [] ∅) as [t r] eqn:E.
    simpl in Hcol. subst r.
    apply collectRepaired_spec in E as [_ Hmap].
    2:{ intros k. unfold lookupBool. rewrite lookup_empty. set_solver. }
    apply elem_of_bind in Hin as [Hin|(_ & _ & Hin)]; [|absent Hin].
    simpl in Hin. apply list_elem_of_singleton in Hin. injection Hin as -> -> -> ->.
    repeat split; try done. rewrite piecesToRemove_spec.
    case_bool_decide; [done|]. by apply list_filter_iff.
Qed.

(** The numbers of the repaired pieces are the positions of the nodes the
    upload succeeded on. *)
Lemma collectRepaired_nums successfulNodes hashes :
  ∀ i repairedPieces (repairedMap : gmap Z bool) t repairedPieces' repairedMap',
  collectRepaired i successfulNodes hashes repairedPieces repairedMap
  = (t, Val (repairedPieces', repairedMap')) →
  ∀ k, k ∈ PieceNum <$> repairedPieces' ↔
       k ∈ PieceNum <$> repairedPieces
       ∨ ∃ (j : nat) node, successfulNodes !! j = Some (Some node)
                           ∧ k = int32 (Z.of_nat (i + j)).
Proof.
  induction successfulNodes as [|[node|] rest IH];
    intros i repairedPieces repairedMap t rp' rm'; simpl.
  - intros [= <- <- <-] k. split; [by left|]. intros [?|(j & n & Hj & _)]; [done|].
    by rewrite lookup_nil in Hj.
  - destruct (hashes !! i) as [hash|]; [|done].
    intros E k. rewrite (IH _ _ _ _ _ _ E k). rewrite fmap_app, elem_of_app. simpl.
    rewrite list_elem_of_singleton. split.
    + intros [[?| ->]|(j & n & Hj & ->)]; [by left| |].
      * right. exists 0%nat, node. split; [done|]. do 2 f_equal. lia.
      * right. exists (S j), n. split; [done|]. do 2 f_equal. lia.
    + intros [?|(j & n & Hj & ->)]; [by left; left|].
      destruct j as [|j]; simpl in Hj.
      * left; right. do 2 f_equal. lia.
      * right. exists j, n. split; [done|]. do 2 f_equal. lia.
  - intros E k. rewrite (IH _ _ _ _ _ _ E k). split.
    + intros [?|(j & n & Hj & ->)]; [by left|].
      right. exists (S j), n. split; [done|]. do 2 f_equal. lia.
    + intros [?|(j & n & Hj & ->)]; [by left|].
      destruct j as [|j]; simpl in Hj; [done|].
      right. exists j, n. split; [done|]. do 2 f_equal. lia.
Qed.

Lemma uploadAndUpdate_uploaded env path pointer remote redundancy expiration
    putLimits putPrivateKey healthyPieces unhealthyPieces path' ref toAdd toRemove :
  CallUpdatePieces path' ref toAdd toRemove
  ∈ (uploadAndUpdate env path pointer remote redundancy expiration putLimits
       putPrivateKey healthyPieces unhealthyPieces).1 →
  ∃ successfulNodes hashes,
    ec_Repair env putLimits putPrivateKey redundancy expiration path
    = inr (successfulNodes, hashes)
    ∧ ∀ k, k ∈ PieceNum <$> toAdd ↔
           ∃ (j : nat) node, successfulNodes !! j = Some (Some node)
                             ∧ k = int32 (Z.of_nat j).
Proof.
  unfold uploadAndUpdate. intros Hin.
  apply elem_of_bind in Hin as [Hin|(_ & _ & Hin)]; [absent Hin|].
  apply elem_of_bind in Hin as [Hin|([nodes hashes] & Hup & Hin)];
    [by apply try_inv in Hin|].
  apply (try_inv _ _ CallClose) in Hup.
  exists nodes, hashes. split; [done|].
  destruct (collectRepaired 0 nodes hashes [] ∅) as [t r] eqn:E.
  apply elem_of_bind in Hin as [Hin|([repairedPieces repairedMap] & Hcol & Hin)].
  - apply collectRepaired_spec in E as [-> _]; [absent Hin|].
    intros k. unfold lookupBool. rewrite lookup_empty. set_solver.
  - simpl in Hcol. subst r.
    apply elem_of_bind in Hin as [Hin|(_ & _ & Hin)]; [|absent Hin].
    simpl in Hin. apply list_elem_of_singleton in Hin. injection Hin as -> -> -> ->.
    intros k. rewrite (collectRepaired_nums _ _ _ _ _ _ _ _ E k). simpl.
    split; [intros [Hk|?]; [by apply elem_of_nil in Hk|done]|by right].
Qed.

(** The stage that repairs asks for a pointer update only at its end. *)
Lemma repairSegment_update env path pointer remote redundancy pieces missingPieces
    path' ref toAdd toRemove :
  CallUpdatePieces path' ref toAdd toRemove
  ∈ (repairSegment env path pointer remote redundancy pieces missingPieces).1 →
  ∃ putLimits putPrivateKey,
    CallUpdatePieces path' ref toAdd toRemove
    ∈ (uploadAndUpdate env path pointer remote redundancy (ExpirationDate pointer)
         putLimits putPrivateKey
         (filter (λ piece,
            lookupBool (sliceToSet missingPieces) (PieceNum piece) = false) pieces)
         (filter (λ piece,
            lookupBool (sliceToSet missingPieces) (PieceNum piece) = true) pieces)).1.
Proof.
  unfold repairSegment. rewrite sortPieces_spec. intros Hin.
  apply elem_of_bind in Hin as [Hin|(bucketID & _ & Hin)]; [by apply try_inv in Hin|].
  apply elem_of_bind in Hin as [Hin|(_ & _ & Hin)]; [absent Hin|].
  apply elem_of_bind in Hin as [Hin|([getOrderLimits getPrivateKey] & _ & Hin)];
    [by apply try_inv in Hin|].
  apply elem_of_bind in Hin as [Hin|(_ & _ & Hin)]; [absent Hin|].
  apply elem_of_bind in Hin as [Hin|(newNodes & _ & Hin)]; [by apply try_inv in Hin|].
  apply elem_of_bind in Hin as [Hin|(_ & _ & Hin)]; [absent Hin|].
  apply elem_of_bind in Hin as [Hin|([putLimits putPrivateKey] & _ & Hin)];
    [by apply try_inv in Hin|].
  apply elem_of_bind in Hin as [Hin|(_ & _ & Hin)]; [absent Hin|].
  apply elem_of_bind in Hin as [Hin|(_ & _ & Hin)]; [by apply tryOpt_inv in Hin|].
  apply elem_of_bind in Hin as [Hin|(_ & _ & Hin)]; [absent Hin|].
  apply elem_of_bind in Hin as [Hin|(_ & _ & Hin)]; [by apply tryOpt_inv in Hin|].
  apply elem_of_deferClose in Hin as [Hin|Hin]; [|done].
  eauto.
Qed.

Lemma Repair_calls env path : (Repair env path).1 = (RepairM env path).1.
Proof. unfold Repair. by destruct (RepairM env path) as [t [a|e|msg]]. Qed.

(** Every call of [Repair] other than the reading of the pointer and of the
    missing pieces is made by the repairing stage, which is entered for a
    remote segment that passed both health tests. *)
Lemma RepairM_reaches env path c :
  c ∈ (RepairM env path).1 →
  c ≠ CallGet path →
  (∀ pieces, c ≠ CallGetMissingPieces pieces) →
  ∃ pointer remote redundancy missing,
    metainfo_Get env path = inr pointer
    ∧ Type_ pointer = REMOTE
    ∧ Remote pointer = Some remote
    ∧ eestream_NewRedundancyStrategyFromProto env (Some (Redundancy remote))
      = inr redundancy
    ∧ cache_GetMissingPieces env (elems (RemotePieces remote)) = inr missing
    ∧ ¬ int32 (len (elems (RemotePieces remote)) - len missing)
        < int32 (MinReq (Redundancy remote) + 1)
    ∧ ¬ int32 (len (elems (RemotePieces remote)) - len missing)
        > RepairThreshold (Redundancy remote)
    ∧ c ∈ (repairSegment env path pointer remote redundancy
             (elems (RemotePieces remote)) missing).1.
Proof.
  unfold RepairM. intros Hin Hget Hmiss.
  apply elem_of_bind in Hin as [Hin|(_ & _ & Hin)]; [absent Hin|].
  apply elem_of_bind in Hin as [Hin|(pointer & Hp & Hin)]; [by apply try_inv in Hin|].
  apply (try_inv _ _ c) in Hp.
  case_bool_decide as Htype; [absent Hin|].
  apply elem_of_bind in Hin as [Hin|(redundancy & Hr & Hin)];
    [by apply try_inv in Hin|].
  apply (try_inv _ _ c) in Hr.
  apply elem_of_bind in Hin as [Hin|(_ & _ & Hin)].
  { simpl in Hin. apply list_elem_of_singleton in Hin. by apply Hmiss in Hin. }
  apply elem_of_bind in Hin as [Hin|(missing & Hm & Hin)]; [by apply try_inv in Hin|].
  apply (try_inv _ _ c) in Hm.
  unfold GetRedundancy, GetRemotePieces, GetRemote in *.
  destruct (Remote pointer) as [remote|] eqn:Hrem; [|absent Hin].
  simpl in *.
  case_bool_decide as Hk; [absent Hin|].
  case_bool_decide as Hrt; [absent Hin|].
  exists pointer, remote, redundancy, missing.
  repeat split; try done.
Qed.

(** C1: for a remote segment whose redundancy strategy and missing pieces
    were obtained, with [numHealthy = |pieces| - |missing|]: when [numHealthy
    < k + 1], [Repair] returns an error of the irreparable class after having
    read the pointer and the missing pieces only; when [numHealthy > r] (and
    [k <= r]), it returns nil after the same two calls; and it downloads,
    uploads or updates the pointer only when [k + 1 <= numHealthy <= r]. *)
Theorem Repair_health_check env path pointer remote redundancy missing :
  metainfo_Get env path = inr pointer →
  Type_ pointer = REMOTE →
  Remote pointer = Some remote →
  eestream_NewRedundancyStrategyFromProto env (Some (Redundancy remote))
    = inr redundancy →
  cache_GetMissingPieces env (elems (RemotePieces remote)) = inr missing →
  len (elems (RemotePieces remote)) ≤ MaxInt32 →
  len missing ≤ MaxInt32 →
  MinInt32 ≤ MinReq (Redundancy remote) < MaxInt32 →
  let numHealthy := len (elems (RemotePieces remote)) - len missing in
  (numHealthy < MinReq (Redundancy remote) + 1 →
   ∃ err, Repair env path
          = ([CallGet path; CallGetMissingPieces (elems (RemotePieces remote))],
             Returns (Some err))
          ∧ Has ClsIrreparable err = true)
  ∧ (MinReq (Redundancy remote) ≤ RepairThreshold (Redundancy remote) →
     numHealthy > RepairThreshold (Redundancy remote) →
     Repair env path
     = ([CallGet path; CallGetMissingPieces (elems (RemotePieces remote))],
        Returns None))
  ∧ (∀ c, c ∈ (Repair env path).1 →
       isDownload c || isUpload c || isUpdate c = true →
       MinReq (Redundancy remote) + 1 ≤ numHealthy
       ∧ numHealthy ≤ RepairThreshold (Redundancy remote)).
Proof.
  intros Hget Htype Hrem Hred Hmiss Hlp Hlm Hk numHealthy.
  assert (int32 numHealthy = numHealthy) as Hnh.
  { apply int32_small. unfold numHealthy, len, MinInt32, MaxInt32 in *. lia. }
  assert (int32 (MinReq (Redundancy remote) + 1) = MinReq (Redundancy remote) + 1)
    as Hk1.
  { apply int32_small. unfold MinInt32, MaxInt32 in *. lia. }
  split; [|split].
  - intros Hlt. eexists. unfold Repair, RepairM. rewrite Hget. simpl.
    rewrite Htype. simpl. unfold GetRedundancy, GetRemotePieces, GetRemote.
    rewrite Hrem. simpl. rewrite Hred. simpl. rewrite Hmiss. simpl.
    fold numHealthy. rewrite Hnh, Hk1. rewrite bool_decide_true by done.
    simpl. split; reflexivity.
  - intros Hkr Hgt. unfold Repair, RepairM. rewrite Hget. simpl.
    rewrite Htype. simpl. unfold GetRedundancy, GetRemotePieces, GetRemote.
    rewrite Hrem. simpl. rewrite Hred. simpl. rewrite Hmiss. simpl.
    fold numHealthy. rewrite Hnh, Hk1. rewrite bool_decide_false by lia.
    rewrite bool_decide_true by done. reflexivity.
  - intros c Hin Hc. rewrite Repair_calls in Hin.
    apply RepairM_reaches in Hin
      as (pointer' & remote' & redundancy' & missing' & Hget' & _ & Hrem' & _
          & Hmiss' & Hk' & Hr' & _).
    + rewrite Hget in Hget'. injection Hget' as <-.
      rewrite Hrem in Hrem'. injection Hrem' as <-.
      rewrite Hmiss in Hmiss'. injection Hmiss' as <-.
      fold numHealthy in Hk', Hr'. rewrite Hnh in Hk', Hr'. rewrite Hk1 in Hk'. lia.
    + by intros ->.
    + by intros pieces ->.
Qed.

(** C3: when [Repair] asks for the update of the pointer, with [healthyAfter
    = |healthyPieces| + |uploaded pieces|]: if [healthyAfter >= s] the pieces
    it gives for removal are all the unhealthy pieces, and if [healthyAfter <
    s] they are exactly the unhealthy pieces whose number is the number of an
    uploaded piece; the uploaded pieces are numbered by the positions of the
    nodes the upload succeeded on. *)
Theorem Repair_pieces_removed env path pointer remote missing path' ref toAdd toRemove :
  metainfo_Get env path = inr pointer →
  Remote pointer = Some remote →
  cache_GetMissingPieces env (elems (RemotePieces remote)) = inr missing →
  len (elems (RemotePieces remote)) + len toAdd ≤ MaxInt32 →
  CallUpdatePieces path' ref toAdd toRemove ∈ (Repair env path).1 →
  let pieces := elems (RemotePieces remote) in
  let healthyPieces := filter (λ piece, PieceNum piece ∉ missing) pieces in
  let unhealthyPieces := filter (λ piece, PieceNum piece ∈ missing) pieces in
  let healthyAfter := len healthyPieces + len toAdd in
  path' = path ∧ ref = pointer
  ∧ (healthyAfter >= SuccessThreshold (Redundancy remote) → toRemove = unhealthyPieces)
  ∧ (healthyAfter < SuccessThreshold (Redundancy remote) →
     toRemove
     = filter (λ piece, PieceNum piece ∈ PieceNum <$> toAdd) unhealthyPieces)
  ∧ ∃ putLimits putPrivateKey redundancy successfulNodes hashes,
      ec_Repair env putLimits putPrivateKey redundancy (ExpirationDate pointer) path
      = inr (successfulNodes, hashes)
      ∧ ∀ k, k ∈ PieceNum <$> toAdd ↔
             ∃ (j : nat) node, successfulNodes !! j = Some (Some node)
                               ∧ k = int32 (Z.of_nat j).
Proof.
  intros Hget Hrem Hmiss Hlen Hin. cbv zeta.
  rewrite Repair_calls in Hin.
  apply RepairM_reaches in Hin
    as (pointer' & remote' & redundancy & missing' & Hget' & _ & Hrem' & _
        & Hmiss' & _ & _ & Hin); [|done..].
  rewrite Hget in Hget'. injection Hget' as <-.
  rewrite Hrem in Hrem'. injection Hrem' as <-.
  rewrite Hmiss in Hmiss'. injection Hmiss' as <-.
  apply repairSegment_update in Hin as (putLimits & putPrivateKey & Hin).
  pose proof (uploadAndUpdate_uploaded _ _ _ _ _ _ _ _ _ _ _ _ _ _ Hin)
    as (successfulNodes & hashes & Hup & Hnums).
  apply uploadAndUpdate_update in Hin as (-> & -> & ->).
  set (pieces := elems (RemotePieces remote)) in *.
  assert (filter (λ piece,
            lookupBool (sliceToSet missing) (PieceNum piece) = false) pieces
          = filter (λ piece, PieceNum piece ∉ missing) pieces) as ->.
  { apply list_filter_iff. intros piece. rewrite sliceToSet_lookup.
    by rewrite bool_decide_eq_false. }
  assert (filter (λ piece,
            lookupBool (sliceToSet missing) (PieceNum piece) = true) pieces
          = filter (λ piece, PieceNum piece ∈ missing) pieces) as ->.
  { apply list_filter_iff. intros piece. rewrite sliceToSet_lookup.
    by rewrite bool_decide_eq_true. }
  rewrite int32_small.
  2:{ pose proof (length_filter (λ piece, PieceNum piece ∉ missing) pieces).
      unfold len, MinInt32, MaxInt32 in *. lia. }
  repeat split.
  - intros Hge. by rewrite bool_decide_true.
  - intros Hlt. rewrite bool_decide_false by lia. done.
  - eauto 10.
Qed.

Lemma Repair_health_check_witness :
  ∃ err,
    Repair (Fixtures.repairer (Fixtures.segment Fixtures.scheme2345 Fixtures.fivePieces)
              [2; 3; 4] [])
           "project/l/bucket/object"
    = ([CallGet "project/l/bucket/object"; CallGetMissingPieces Fixtures.fivePieces],
       Returns (Some err))
    ∧ Has ClsIrreparable err = true.
Proof.
  refine (proj1 (Repair_health_check
            (Fixtures.repairer
               (Fixtures.segment Fixtures.scheme2345 Fixtures.fivePieces) [2; 3; 4] [])
            "project/l/bucket/object"
            (Fixtures.segment Fixtures.scheme2345 Fixtures.fivePieces)
            _ _ [2; 3; 4] eq_refl eq_refl eq_refl eq_refl eq_refl _ _ _) _).
  - vm_compute. discriminate.
  - vm_compute. discriminate.
  - vm_compute. split; [discriminate|reflexivity].
  - vm_compute. reflexivity.
Defined.

Lemma Repair_pieces_removed_witness :
  [Fixtures.piece 3 13%N; Fixtures.piece 4 14%N]
  = filter (λ piece, PieceNum piece ∈ [3; 4]) Fixtures.fivePieces.
Proof.
  refine (proj1 (proj2 (proj2 (Repair_pieces_removed
            (Fixtures.repairer
               (Fixtures.segment Fixtures.scheme2345 Fixtures.fivePieces) [3; 4]
               [None; None; None; Fixtures.node 20%N; None])
            "project/l/bucket/object"
            (Fixtures.segment Fixtures.scheme2345 Fixtures.fivePieces)
            _ [3; 4] "project/l/bucket/object"
            (Fixtures.segment Fixtures.scheme2345 Fixtures.fivePieces)
            [{| PieceNum := 3; NodeId := 20%N; Hash := Some 5%N |}]
            [Fixtures.piece 3 13%N; Fixtures.piece 4 14%N]
            eq_refl eq_refl eq_refl _ _))) _).
  - vm_compute. discriminate.
  - do 8 apply list_elem_of_further. apply list_elem_of_here.
  - vm_compute. discriminate.
Defined.

(** *** How [Repair] ends *)

(** The loop over the uploaded nodes ends with a panic only when a node has
    no hash at its position. *)
Lemma collectRepaired_panics successfulNodes hashes :
  ∀ i repairedPieces (repairedMap : gmap Z bool) t msg,
  collectRepaired i successfulNodes hashes repairedPieces repairedMap = (t, Panic msg) →
  (length hashes < i + length successfulNodes)%nat.
Proof.
  induction successfulNodes as [|[node|] rest IH];
    intros i repairedPieces repairedMap t msg; simpl.
  - done.
  - destruct (hashes !! i) as [hash|] eqn:Hi.
    + intros ?%IH. lia.
    + apply lookup_ge_None in Hi. lia.
  - intros ?%IH. lia.
Qed.

(** The loop over the uploaded nodes, as [Repair] starts it. *)
Lemma collectRepaired_start successfulNodes hashes t r :
  collectRepaired 0 successfulNodes hashes [] ∅ = (t, r) →
  t = [] ∧
  match r with
  | Val (repairedPieces, repairedMap) =>
      ∀ k, lookupBool repairedMap k = true ↔ k ∈ PieceNum <$> repairedPieces
  | Ret _ => False
  | Panic _ => (length hashes < length successfulNodes)%nat
  end.
Proof.
  intros E. pose proof E as E'. apply collectRepaired_spec in E' as [-> Hr].
  2:{ intros k. unfold lookupBool. rewrite lookup_empty. set_solver. }
  split; [done|]. destruct r as [[? ?]|?|?]; try done.
  by apply collectRepaired_panics in E.
Qed.

(** Running [Repair] step by step. *)
Ltac repair_step :=
  match goal with
  | p : (_ * _)%type |- _ => destruct p; simpl
  | |- context [try ?r _] => destruct r as [?|?] eqn:?; simpl
  | |- context [tryOpt ?r _] => destruct r as [?|] eqn:?; simpl
  | |- context [bool_decide ?P] => destruct (bool_decide P) eqn:?; simpl
  | |- context [match Remote ?p with _ => _ end] => destruct (Remote p) eqn:?; simpl
  | |- context [sortPieces ?s ?p] => destruct (sortPieces s p) as [[? ?] ?] eqn:?; simpl
  | |- context [collectRepaired ?i ?n ?h ?p ?m] =>
      let E := fresh "Hcollect" in
      destruct (collectRepaired i n h p m) as [? [[? ?]|?|?]] eqn:E; simpl;
      apply collectRepaired_start in E as [-> ?]; simpl
  end.

(** X25: [Repair] returns nil only when the segment is above the repair
    threshold, in which case it has only read the pointer and the missing
    pieces, or when it has updated the pointer: the update and the closing of
    the downloaded segment have then both succeeded. *)
Theorem Repair_returns_nil env path calls :
  Repair env path = (calls, Returns None) →
  (∃ pointer remote missing,
     metainfo_Get env path = inr pointer
     ∧ Remote pointer = Some remote
     ∧ cache_GetMissingPieces env (elems (RemotePieces remote)) = inr missing
     ∧ int32 (len (elems (RemotePieces remote)) - len missing)
       > RepairThreshold (Redundancy remote)
     ∧ calls = [CallGet path; CallGetMissingPieces (elems (RemotePieces remote))])
  ∨ (∃ path' ref toAdd toRemove,
       CallUpdatePieces path' ref toAdd toRemove ∈ calls
       ∧ metainfo_UpdatePieces env path' ref toAdd toRemove = None
       ∧ r_Close env = None).
Proof.
  unfold Repair, RepairM, repairSegment, uploadAndUpdate, deferClose.
  unfold mbind, M_bind, bind, call. simpl.
  repeat repair_step; try (intros [=]; fail); try done.
  all: unfold GetRemotePieces, GetRemote in *.
  all: try match goal with
            | H : Remote _ = Some _ |- _ => rewrite H in *
            end; simpl in *.
  all: try (destruct (r_Close env); intros [=]; fail).
  all: try (intros [= <-]; left; eexists _, _, _; repeat split; try done;
            match goal with
            | H : bool_decide (_ > _) = true |- _ =>
                apply bool_decide_eq_true in H; exact H
            end).
  intros [= <- Hret]. right. eexists _, _, _, _. split; [|split].
  - do 8 apply list_elem_of_further. apply list_elem_of_here.
  - by destruct (metainfo_UpdatePieces env _ _ _ _), (r_Close env).
  - by destruct (metainfo_UpdatePieces env _ _ _ _), (r_Close env).
Qed.


Lemma Repair_returns_nil_witness :
  (∃ pointer remote missing,
     metainfo_Get
       (Fixtures.repairer (Fixtures.segment Fixtures.scheme2345 Fixtures.fivePieces) [] [])
       "project/l/bucket/object" = inr pointer
     ∧ Remote pointer = Some remote
     ∧ cache_GetMissingPieces
         (Fixtures.repairer (Fixtures.segment Fixtures.scheme2345 Fixtures.fivePieces)
            [] [])
         (elems (RemotePieces remote)) = inr missing
     ∧ int32 (len (elems (RemotePieces remote)) - len missing)
       > RepairThreshold (Redundancy remote)
     ∧ [CallGet "project/l/bucket/object"; CallGetMissingPieces Fixtures.fivePieces]
       = [CallGet "project/l/bucket/object";
          CallGetMissingPieces (elems (RemotePieces remote))])
  ∨ (∃ path' ref toAdd toRemove,
       CallUpdatePieces path' ref toAdd toRemove
       ∈ [CallGet "project/l/bucket/object"; CallGetMissingPieces Fixtures.fivePieces]
       ∧ metainfo_UpdatePieces
           (Fixtures.repairer (Fixtures.segment Fixtures.scheme2345 Fixtures.fivePieces)
              [] [])
           path' ref toAdd toRemove = None
       ∧ r_Close
           (Fixtures.repairer (Fixtures.segment Fixtures.scheme2345 Fixtures.fivePieces)
              [] []) = None).
Proof.
  apply (Repair_returns_nil
           (Fixtures.repairer (Fixtures.segment Fixtures.scheme2345 Fixtures.fivePieces)
              [] [])
           "project/l/bucket/object"
           [CallGet "project/l/bucket/object"; CallGetMissingPieces Fixtures.fivePieces]).
  vm_compute. reflexivity.
Defined.

(** Membership of a kind of call, decided by running over the calls. *)
Lemma elem_of_Close calls :
  CallClose ∈ calls
  ↔ existsb (λ c, match c with CallClose => true | _ => false end) calls = true.
Proof.
  rewrite existsb_exists. setoid_rewrite <-list_elem_of_In. split.
  - intros Hin. by exists CallClose.
  - intros ([] & Hin & Hc); done.
Qed.

Lemma elem_of_ECRepair calls :
  (∃ limits, CallECRepair limits ∈ calls) ↔ existsb isUpload calls = true.
Proof.
  rewrite existsb_exists. setoid_rewrite <-list_elem_of_In. split.
  - intros [limits Hin]. by exists (CallECRepair limits).
  - intros ([] & Hin & Hc); try done. eauto.
Qed.

Lemma elem_of_UpdatePieces calls path ref toAdd toRemove :
  CallUpdatePieces path ref toAdd toRemove ∈ calls → existsb isUpdate calls = true.
Proof.
  intros Hin. apply existsb_exists. exists (CallUpdatePieces path ref toAdd toRemove).
  split; [|done]. by apply list_elem_of_In.
Qed.

(** X26: [Repair] closes the downloaded segment exactly when it has started
    the upload, and then as its last call, also when it panics; it updates the
    pointer at most once, right after the upload and right before the
    close. *)
Theorem Repair_call_order env path :
  let calls := (Repair env path).1 in
  (CallClose ∈ calls ↔ ∃ limits, CallECRepair limits ∈ calls)
  ∧ (CallClose ∈ calls → last calls = Some CallClose)
  ∧ (∀ path' ref toAdd toRemove,
       CallUpdatePieces path' ref toAdd toRemove ∈ calls →
       ∃ before limits,
         calls = before ++ [CallECRepair limits;
                            CallUpdatePieces path' ref toAdd toRemove; CallClose]
         ∧ ∀ c, c ∈ before → isUpdate c = false ∧ isUpload c = false ∧ c ≠ CallClose).
Proof.
  cbv zeta. destruct (Repair env path) as [calls out] eqn:HRepair. simpl.
  revert HRepair.
  unfold Repair, RepairM, repairSegment, uploadAndUpdate, deferClose.
  unfold mbind, M_bind, bind, call. simpl.
  repeat repair_step.
  all: try (by intros []).
  all: intros [= <- _].
  all: rewrite elem_of_Close, elem_of_ECRepair; simpl.
  all: split; [done|]; split; [done|].
  all: intros path' ref toAdd toRemove Hin.
  all: try (apply elem_of_UpdatePieces in Hin; discriminate Hin).
  do 8 (apply elem_of_cons in Hin as [?|Hin]; [done|]).
  apply elem_of_cons in Hin as [[= -> -> -> ->]|Hin].
  - eexists [_; _; _; _; _; _; _], _. split; [reflexivity|].
    intros c Hc.
    repeat (apply elem_of_cons in Hc as [->|Hc]; [done|]).
    by apply elem_of_nil in Hc.
  - apply list_elem_of_singleton in Hin. done.
Qed.

(** The loop over the uploaded nodes panics at a node without hash. *)
Lemma collectRepaired_no_hash successfulNodes hashes :
  ∀ (i j : nat) node repairedPieces (repairedMap : gmap Z bool),
  successfulNodes !! j = Some (Some node) →
  hashes !! (i + j)%nat = None →
  ∃ msg, collectRepaired i successfulNodes hashes repairedPieces repairedMap
         = ([], Panic msg).
Proof.
  induction successfulNodes as [|[n|] rest IH];
    intros i j node repairedPieces repairedMap Hn Hh; [done| |].
  - simpl. destruct (hashes !! i) as [hash|] eqn:Hi; [|eauto].
    destruct j as [|j]; [rewrite Nat.add_0_r in Hh; congruence|].
    apply (IH (S i) j node); [done|].
    by replace (S i + j)%nat with (i + S j)%nat by lia.
  - simpl. destruct j as [|j]; [done|].
    apply (IH (S i) j node); [done|].
    by replace (S i + j)%nat with (i + S j)%nat by lia.
Qed.

(** X27: two ways in which [Repair] panics. When the pointer it has read is
    remote by its type but has no remote segment, and the redundancy strategy
    and the missing pieces are made without error, [Repair] panics after these
    two calls. When the upload gives back a node that has no hash at its
    position, a [Repair] that has started the upload panics: the upload and the
    close of the downloaded segment are its last calls, and the pointer is not
    updated. *)
Theorem Repair_panics env path :
  (∀ pointer redundancy missing,
     metainfo_Get env path = inr pointer →
     Type_ pointer = REMOTE →
     Remote pointer = None →
     eestream_NewRedundancyStrategyFromProto env None = inr redundancy →
     cache_GetMissingPieces env [] = inr missing →
     ∃ msg,
       Repair env path = ([CallGet path; CallGetMissingPieces []], Panics msg))
  ∧ (∀ limits successfulNodes hashes (i : nat) node,
       CallECRepair limits ∈ (Repair env path).1 →
       (∀ key redundancy expiration,
          ec_Repair env limits key redundancy expiration path
          = inr (successfulNodes, hashes)) →
       successfulNodes !! i = Some (Some node) →
       hashes !! i = None →
       ∃ msg before,
         Repair env path = (before ++ [CallECRepair limits; CallClose], Panics msg)
         ∧ ∀ c, c ∈ before → isUpdate c = false ∧ c ≠ CallClose).
Proof.
  split.
  - intros pointer redundancy missing HGet HType HRemote HRed HMiss.
    unfold Repair, RepairM. unfold mbind, M_bind, bind, call. simpl.
    rewrite HGet. simpl. rewrite bool_decide_false by (by intros ?).
    unfold GetRemote, GetRedundancy, GetRemotePieces. rewrite HRemote. simpl.
    rewrite HRed. simpl. rewrite HMiss. simpl. eauto.
  - intros limits successfulNodes hashes i node Hin Hec Hn Hh. revert Hin.
    unfold Repair, RepairM, repairSegment, uploadAndUpdate, deferClose.
    unfold mbind, M_bind, bind, call. simpl.
    repeat match goal with
           | p : (_ * _)%type |- _ => destruct p; simpl
           | |- context [try ?r _] => destruct r as [?|?] eqn:?; simpl
           | |- context [tryOpt ?r _] => destruct r as [?|] eqn:?; simpl
           | |- context [bool_decide ?P] => destruct (bool_decide P) eqn:?; simpl
           | |- context [match Remote ?p with _ => _ end] =>
               destruct (Remote p) eqn:?; simpl
           | |- context [sortPieces ?s ?p] =>
               destruct (sortPieces s p) as [[? ?] ?] eqn:?; simpl
           end.
    all: try (intros Hin;
              assert (∃ l, CallECRepair l ∈ _) as Hex by (eexists; exact Hin);
              apply elem_of_ECRepair in Hex; discriminate Hex).
    all: intros Hin.
    all: try match goal with
         | H : ec_Repair _ _ _ _ _ _ = inr (?a, ?b) |- _ =>
             let E := fresh "Hcollect" in
             let E' := fresh "Hstart" in
             destruct (collectRepaired 0 a b [] ∅) as [t res] eqn:E;
             pose proof E as E'; apply collectRepaired_start in E' as [-> _];
             destruct res as [[? ?]|?|?]; simpl in Hin |- *
         end.
    all: repeat (apply elem_of_cons in Hin as [Heq|Hin]; [try discriminate Heq|]).
    all: try (by apply elem_of_nil in Hin).
    all: injection Heq as <-.
    all: match goal with
         | H : ec_Repair _ _ _ _ _ _ = _ |- _ => rewrite Hec in H
         end.
    all: try discriminate.
    all: match goal with
         | H : inr _ = inr _ |- _ => injection H as <- <-
         end.
    all: destruct (collectRepaired_no_hash successfulNodes hashes 0 i node [] ∅ Hn Hh)
           as [msg' Hpanic].
    all: rewrite Hpanic in Hcollect; try discriminate.
    eexists _, [_; _; _; _; _; _; _]. split; [reflexivity|].
    intros c Hc.
    repeat (apply elem_of_cons in Hc as [->|Hc]; [done|]).
    by apply elem_of_nil in Hc.
Qed.

Lemma Repair_panics_witness :
  ∃ msg before,
    Repair
      (Fixtures.withoutHashes
         (Fixtures.repairer (Fixtures.segment Fixtures.scheme2345 Fixtures.fivePieces)
            [3; 4] [None; Fixtures.node 20%N]))
      "project/l/bucket/object"
    = (before ++ [CallECRepair []; CallClose], Panics msg)
    ∧ ∀ c, c ∈ before → isUpdate c = false ∧ c ≠ CallClose.
Proof.
  refine (proj2 (Repair_panics
                   (Fixtures.withoutHashes
                      (Fixtures.repairer
                         (Fixtures.segment Fixtures.scheme2345 Fixtures.fivePieces)
                         [3; 4] [None; Fixtures.node 20%N]))
                   "project/l/bucket/object")
            [] [None; Fixtures.node 20%N] [] 1%nat
            {| Id := 20%N; Address := "" |} _ _ _ _).
  - vm_compute. do 7 apply list_elem_of_further. apply list_elem_of_here.
  - intros key redundancy expiration. reflexivity.
  - reflexivity.
  - reflexivity.
Defined.

(** X28: when [Repair] asks the overlay for new nodes, it excludes the nodes
    of all the pieces of the pointer, healthy or not, asks for as many nodes as
    the multiplied optimal threshold exceeds the number of healthy pieces, and
    asks for the piece size as free bandwidth and as free disk space. *)
Theorem Repair_find_request env path request :
  CallFindStorageNodes request ∈ (Repair env path).1 →
  ∃ pointer remote redundancy missing,
    metainfo_Get env path = inr pointer
    ∧ Remote pointer = Some remote
    ∧ eestream_NewRedundancyStrategyFromProto env (Some (Redundancy remote))
      = inr redundancy
    ∧ cache_GetMissingPieces env (elems (RemotePieces remote)) = inr missing
    ∧ ExcludedNodes request = NodeId <$> elems (RemotePieces remote)
    ∧ RequestedCount request
      = ceilTimesMultiplier env (OptimalThreshold redundancy)
        - len (filter (λ piece, PieceNum piece ∉ missing) (elems (RemotePieces remote)))
    ∧ FreeBandwidth request = eestream_CalcPieceSize env (SegmentSize pointer) redundancy
    ∧ FreeDisk request = eestream_CalcPieceSize env (SegmentSize pointer) redundancy.
Proof.
  rewrite Repair_calls. intros Hin.
  apply RepairM_reaches in Hin
    as (pointer & remote & redundancy & missing & Hget & _ & Hrem & Hred & Hmiss
        & _ & _ & Hin); [|done..].
  exists pointer, remote, redundancy, missing. do 4 (split; [done|]).
  revert Hin. unfold repairSegment. rewrite sortPieces_spec.
  assert (filter (λ piece,
            lookupBool (sliceToSet missing) (PieceNum piece) = false)
            (elems (RemotePieces remote))
          = filter (λ piece, PieceNum piece ∉ missing) (elems (RemotePieces remote)))
    as ->.
  { apply list_filter_iff. intros piece. rewrite sliceToSet_lookup.
    by rewrite bool_decide_eq_false. }
  unfold uploadAndUpdate, deferClose, mbind, M_bind, bind, call. simpl.
  repeat repair_step; try done.
  all: intros Hin; set_unfold; destruct_or?; simplify_eq; done.
Qed.

Lemma Repair_find_request_witness :
  ∃ pointer remote redundancy missing,
    metainfo_Get
      (Fixtures.repairer (Fixtures.segment Fixtures.scheme2345 Fixtures.fivePieces)
         [3; 4] [])
      "project/l/bucket/object" = inr pointer
    ∧ Remote pointer = Some remote
    ∧ eestream_NewRedundancyStrategyFromProto
        (Fixtures.repairer (Fixtures.segment Fixtures.scheme2345 Fixtures.fivePieces)
           [3; 4] [])
        (Some (Redundancy remote)) = inr redundancy
    ∧ cache_GetMissingPieces
        (Fixtures.repairer (Fixtures.segment Fixtures.scheme2345 Fixtures.fivePieces)
           [3; 4] [])
        (elems (RemotePieces remote)) = inr missing
    ∧ [10%N; 11%N; 12%N; 13%N; 14%N] = NodeId <$> elems (RemotePieces remote)
    ∧ 1 = ceilTimesMultiplier
            (Fixtures.repairer (Fixtures.segment Fixtures.scheme2345 Fixtures.fivePieces)
               [3; 4] [])
            (OptimalThreshold redundancy)
          - len (filter (λ piece, PieceNum piece ∉ missing)
                   (elems (RemotePieces remote)))
    ∧ 64 = eestream_CalcPieceSize
             (Fixtures.repairer (Fixtures.segment Fixtures.scheme2345 Fixtures.fivePieces)
                [3; 4] [])
             (SegmentSize pointer) redundancy
    ∧ 64 = eestream_CalcPieceSize
             (Fixtures.repairer (Fixtures.segment Fixtures.scheme2345 Fixtures.fivePieces)
                [3; 4] [])
             (SegmentSize pointer) redundancy.
Proof.
  apply (Repair_find_request
           (Fixtures.repairer (Fixtures.segment Fixtures.scheme2345 Fixtures.fivePieces)
              [3; 4] [])
           "project/l/bucket/object"
           {| RequestedCount := 1; FreeBandwidth := 64; FreeDisk := 64;
              ExcludedNodes := [10%N; 11%N; 12%N; 13%N; 14%N] |}).
  do 3 apply list_elem_of_further. apply list_elem_of_here.
Defined.

(** X29: an error [Repair] returns before it has opened the downloaded
    segment is of the repairer's error class; an error of the upload is of that
    class too and is combined with the error of the close, if any; after the
    pointer update, [Repair] returns what [UpdatePieces] gave back, not
    wrapped, combined with the error of the close. *)
Theorem Repair_error_class env path calls err :
  Repair env path = (calls, Returns (Some err)) →
  (CallClose ∉ calls → Has ClsRepairer err = true)
  ∧ (CallClose ∈ calls →
     (∃ e, Has ClsRepairer e = true ∧ Some err = Combine (Some e) (r_Close env))
     ∨ (∃ path' ref toAdd toRemove,
          CallUpdatePieces path' ref toAdd toRemove ∈ calls
          ∧ Some err
            = Combine (metainfo_UpdatePieces env path' ref toAdd toRemove)
                      (r_Close env))).
Proof.
  unfold Repair, RepairM, repairSegment, uploadAndUpdate, deferClose.
  unfold mbind, M_bind, bind, call. simpl.
  repeat repair_step; try done.
  all: intros [= <- Herr]; rewrite elem_of_Close; simpl.
  all: split; [intros Hno|intros Hyes]; try done.
  all: try (by rewrite <-Herr).
  - left. eexists. split; [|by rewrite <-Herr]. done.
  - right. eexists _, _, _, _. split; [|by rewrite <-Herr].
    do 8 apply list_elem_of_further. apply list_elem_of_here.
Qed.

Lemma Repair_error_class_witness :
  Has ClsRepairer (New ClsRepairer "cannot repair inline segment") = true.
Proof.
  refine (proj1 (Repair_error_class
            (Fixtures.repairer
               {| Type_ := INLINE; InlineSegment := [1]; Remote := None; SegmentSize := 1;
                  CreationDate := 100; ExpirationDate := 0; Metadata := [] |} [] [])
            "project/l/bucket/object" [CallGet "project/l/bucket/object"]
            (New ClsRepairer "cannot repair inline segment") _) _).
  - reflexivity.
  - intros Hin. repeat (apply elem_of_cons in Hin as [?|Hin]; [done|]).
    by apply elem_of_nil in Hin.
Defined.

End RepairerProps.
